(** * mocktwilio: the routing store, the ID issuer and the coordinator

    A shallow embedding of [devtools/mocktwilio/server.go].

    The Go server keeps its two routing tables in buffered channels of
    capacity one ([numbersDB], [msgSvcDB]); an operation receives the map,
    works on it and sends it back.  Both tables hold pointers to [Number]
    objects, and [AddMsgService] writes through those pointers, so the
    [Number] objects live in an explicit heap here and the tables hold
    locations into it. *)

From Stdlib Require Import NArith Ascii.
From stdpp Require Import gmap strings list fin_maps.

Open Scope string_scope.
Open Scope nat_scope.

(** ** Data model *)

(** [Config]; the [OnError] callback plays no role in what follows. *)
Record Config := mkConfig {
  AccountSID : string;
  AuthToken : string;
  EnableAuth : bool
}.

Module Number.
(** [type Number struct { Number, VoiceWebhookURL, SMSWebhookURL string }] *)
Record t := mk {
  Number : string;
  VoiceWebhookURL : string;
  SMSWebhookURL : string
}.

(** [n.SMSWebhookURL = u] on a value. *)
Definition with_SMSWebhookURL (u : string) (n : t) : t :=
  {| Number := Number n;
     VoiceWebhookURL := VoiceWebhookURL n;
     SMSWebhookURL := u |}.
End Number.

Module MsgService.
(** [type MsgService struct { ID string; Numbers []string; SMSWebhookURL string }] *)
Record t := mk {
  ID : string;
  Numbers : list string;
  SMSWebhookURL : string
}.
End MsgService.

#[global] Instance Number_eq_dec : EqDecision Number.t.
Proof. solve_decision. Defined.

(** A [*Number]: an index into the heap of [Number] objects. *)
Abbreviation loc := nat (only parsing).

(** The part of [Server] the store and the ID issuer use.  A channel of
    capacity one is [Some m] when it holds the map [m] and [None] while an
    operation has taken the map out. *)
Record Server := mkServer {
  cfg : Config;
  numbersDB : option (gmap string loc);
  msgSvcDB : option (gmap string (list loc));
  heap : list Number.t;
  id : N
}.

Definition set_numbersDB (c : option (gmap string loc)) (s : Server) : Server :=
  {| cfg := cfg s; numbersDB := c; msgSvcDB := msgSvcDB s;
     heap := heap s; id := id s |}.

Definition set_msgSvcDB (c : option (gmap string (list loc))) (s : Server) : Server :=
  {| cfg := cfg s; numbersDB := numbersDB s; msgSvcDB := c;
     heap := heap s; id := id s |}.

Definition set_heap (h : list Number.t) (s : Server) : Server :=
  {| cfg := cfg s; numbersDB := numbersDB s; msgSvcDB := msgSvcDB s;
     heap := h; id := id s |}.

Definition set_id (i : N) (s : Server) : Server :=
  {| cfg := cfg s; numbersDB := numbersDB s; msgSvcDB := msgSvcDB s;
     heap := heap s; id := i |}.

(** ** The monad of store operations *)

(** A method of [*Server] either returns a value and a new server state,
    blocks for ever on a channel operation that cannot proceed, or follows
    a pointer that is outside the heap. *)
Inductive res (A : Type) : Type :=
| Done (a : A) (s : Server)
| Block
| Wild.
Arguments Done {A} a s.
Arguments Block {A}.
Arguments Wild {A}.

Definition M (A : Type) : Type := Server → res A.

#[global] Instance M_ret : MRet M := λ A a s, Done a s.
#[global] Instance M_bind : MBind M := λ A B f m s,
  match m s with
  | Done a s' => f a s'
  | Block => Block
  | Wild => Wild
  end.

(** [db := <-srv.numbersDB] *)
Definition recv_numbersDB : M (gmap string loc) := λ s,
  match numbersDB s with
  | Some db => Done db (set_numbersDB None s)
  | None => Block
  end.

(** [srv.numbersDB <- db] *)
Definition send_numbersDB (db : gmap string loc) : M unit := λ s,
  match numbersDB s with
  | None => Done () (set_numbersDB (Some db) s)
  | Some _ => Block
  end.

(** [db := <-srv.msgSvcDB] *)
Definition recv_msgSvcDB : M (gmap string (list loc)) := λ s,
  match msgSvcDB s with
  | Some db => Done db (set_msgSvcDB None s)
  | None => Block
  end.

(** [srv.msgSvcDB <- db] *)
Definition send_msgSvcDB (db : gmap string (list loc)) : M unit := λ s,
  match msgSvcDB s with
  | None => Done () (set_msgSvcDB (Some db) s)
  | Some _ => Block
  end.

(** [&n], [&Number{...}]: a fresh object at the end of the heap. *)
Definition alloc (n : Number.t) : M loc := λ s,
  Done (length (heap s)) (set_heap (heap s ++ [n])%list s).

(** [n.SMSWebhookURL = u] through a pointer [n]. *)
Definition store_SMSWebhookURL (p : loc) (u : string) : M unit := λ s,
  match heap s !! p with
  | Some r => Done () (set_heap (<[p := Number.with_SMSWebhookURL u r]> (heap s)) s)
  | None => Wild
  end.

(** [*p] *)
Definition deref (s : Server) (p : loc) : option Number.t := heap s !! p.

(** ** Errors *)

(** The non-nil errors the registration calls return, one constructor per
    place of creation. *)
Inductive err :=
| InvalidPhoneNumber (num cause : string)
    (* fmt.Errorf("invalid phone number %s: %v", num, err) *)
| URLParseError (cause : string)
    (* the error of url.Parse, returned as it is *)
| MissingScheme (s : string)
    (* errors.Errorf("invalid URL (missing scheme): %s", s) *)
| NumberExists (num : string)
    (* fmt.Errorf("number %s already exists", num) *)
| InvalidSID (sid : string)
    (* fmt.Errorf("invalid MsgService SID %s", sid) *)
| SIDExists (sid : string).
    (* fmt.Errorf("MsgService SID %s already exists", sid) *)

(** The two kinds of the registration contract. *)
Inductive err_kind := ValidationError | DuplicateError.

Definition kind (e : err) : err_kind :=
  match e with
  | InvalidPhoneNumber _ _ | URLParseError _ | MissingScheme _ | InvalidSID _ =>
      ValidationError
  | NumberExists _ | SIDExists _ => DuplicateError
  end.

#[global] Instance err_eq_dec : EqDecision err.
Proof. solve_decision. Defined.
#[global] Instance err_kind_eq_dec : EqDecision err_kind.
Proof. solve_decision. Defined.

(** The part of [url.URL] that [validateURL] reads. *)
Record URL := mkURL { Scheme : string }.

(** ** The ID issuer *)

(** The character of a decimal digit: [byte('0' + d)]. *)
Definition digit (d : N) : ascii := ascii_of_N (48 + d).

(** [%d] of an unsigned integer, as [fmt] writes it: the digits from the
    last one, in front of the buffer [buf]; [nextID] calls it with a fuel
    of 20, the number of digits 64 bits can need. *)
Fixpoint fmtInteger (fuel : nat) (u : N) (buf : string) : string :=
  match fuel with
  | O => buf
  | S fuel' =>
      if (10 <=? u)%N
      then fmtInteger fuel' (u / 10)%N (String (digit (u mod 10)%N) buf)
      else String (digit u) buf
  end.

(** The [0] flag with a width: zeros in front, up to the width. *)
Fixpoint pad_zeros (k : nat) (buf : string) : string :=
  match k with
  | O => buf
  | S k' => pad_zeros k' (String "0" buf)
  end.

(** [%032d] *)
Definition fmt_032d (u : N) : string :=
  let buf := fmtInteger 20 u "" in
  pad_zeros (32 - String.length buf) buf.

(** [fmt.Sprintf("%s%032d", prefix, u)] *)
Definition Sprintf_s_032d (prefix : string) (u : N) : string :=
  prefix +:+ fmt_032d u.

(** [atomic.AddUint64(&srv.id, 1)]: the new value, modulo 2^64. *)
Definition atomic_AddUint64_id (delta : N) : M N := λ s,
  let v := ((id s + delta) mod 2 ^ 64)%N in
  Done v (set_id v s).

Definition nextID (prefix : string) : M string :=
  v ← atomic_AddUint64_id 1;
  mret (Sprintf_s_032d prefix v).

(** A sequence of calls of [nextID], one per prefix, and their results. *)
Fixpoint nextIDs (prefixes : list string) : M (list string) :=
  match prefixes with
  | [] => mret []
  | p :: rest =>
      x ← nextID p;
      xs ← nextIDs rest;
      mret (x :: xs)
  end.

(** The server after [n] calls of [nextID]. *)
Definition after_nextIDs (prefix : string) (n : N) (s : Server) : Server :=
  N.iter n (λ s0, match nextID prefix s0 with Done _ s1 => s1 | _ => s0 end) s.

(** Reading a decimal numeral. *)
Definition digit_val (c : ascii) : N := (N_of_ascii c - 48)%N.

Fixpoint read_decimal (acc : N) (s : string) : N :=
  match s with
  | EmptyString => acc
  | String c rest => read_decimal (acc * 10 + digit_val c)%N rest
  end.

(** The last [k] characters of a string. *)
Definition last_chars (k : nat) (s : string) : string :=
  String.substring (String.length s - k) k s.

(** The numeric part of an issued ID: its last 32 characters, read as a
    decimal numeral. *)
Definition numeric_part (x : string) : N := read_decimal 0 (last_chars 32 x).

(** ** The routing store *)

(** The two external collaborators, by their interface:
    [libphonenumber.Parse(s, "")] gives [None] when it accepts [s] and the
    error text otherwise; [url.Parse(s)] gives the URL or the error text. *)
Class Collaborators := {
  libphonenumber_Parse : string → option string;
  url_Parse : string → URL + string
}.

Section Store.

Context `{Collaborators}.

Definition validateURL (s : string) : option err :=
  match url_Parse s with
  | inr e => Some (URLParseError e)
  | inl u =>
      if decide (Scheme u = "") then Some (MissingScheme s) else None
  end.

(** [NewServer]: [None] is the panic on an empty [AccountSID]. *)
Definition NewServer (c : Config) : option Server :=
  if decide (AccountSID c = "") then None
  else Some {| cfg := c;
               numbersDB := Some ∅;
               msgSvcDB := Some ∅;
               heap := [];
               id := 0%N |}.

(** [number]: the pointer stored under [s], [None] for Go's nil. *)
Definition number (s : string) : M (option loc) :=
  db ← recv_numbersDB;
  let n := db !! s in
  _ ← send_numbersDB db;
  mret n.

(** [numberSvc]: the slice stored under [id], empty for a missing key. *)
Definition numberSvc (sid : string) : M (list loc) :=
  db ← recv_msgSvcDB;
  let nums := default [] (db !! sid) in
  _ ← send_msgSvcDB db;
  mret nums.

Definition AddNumber (n : Number.t) : M (option err) :=
  match libphonenumber_Parse (Number.Number n) with
  | Some e => mret (Some (InvalidPhoneNumber (Number.Number n) e))
  | None =>
    match (if decide (Number.SMSWebhookURL n ≠ "")
           then validateURL (Number.SMSWebhookURL n) else None) with
    | Some e => mret (Some e)
    | None =>
      match (if decide (Number.VoiceWebhookURL n ≠ "")
             then validateURL (Number.VoiceWebhookURL n) else None) with
      | Some e => mret (Some e)
      | None =>
        db ← recv_numbersDB;
        match db !! Number.Number n with
        | Some _ =>
            _ ← send_numbersDB db;
            mret (Some (NumberExists (Number.Number n)))
        | None =>
            p ← alloc n;
            _ ← send_numbersDB (<[Number.Number n := p]> db);
            mret None
        end
      end
    end
  end.

(** The first loop of [AddMsgService]: the error of the first member the
    phone-number parser refuses. *)
Fixpoint parse_members (nums : list string) : option err :=
  match nums with
  | [] => None
  | nStr :: rest =>
      match libphonenumber_Parse nStr with
      | Some e => Some (InvalidPhoneNumber nStr e)
      | None => parse_members rest
      end
  end.

(** The body of the second loop of [AddMsgService], for the member
    [nStr], with the two maps the function holds; [continue] is the
    branch that leaves the object as it is. *)
Definition add_member (ms : MsgService.t) (nStr : string)
    (numDB : gmap string loc) (msDB : gmap string (list loc))
    : M (gmap string loc * gmap string (list loc)) :=
  '(n, numDB) ← match numDB !! nStr with
                | Some n => mret (n, numDB)
                | None =>
                    n ← alloc (Number.mk nStr "" "");
                    mret (n, <[nStr := n]> numDB)
                end;
  let msDB :=
    <[MsgService.ID ms :=
        (default [] (msDB !! MsgService.ID ms) ++ [n])%list]> msDB in
  if decide (MsgService.SMSWebhookURL ms = "") then
    mret (numDB, msDB)
  else
    _ ← store_SMSWebhookURL n (MsgService.SMSWebhookURL ms);
    mret (numDB, msDB).

(** [for _, nStr := range ms.Numbers { ... }] *)
Fixpoint add_members (ms : MsgService.t) (nums : list string)
    (numDB : gmap string loc) (msDB : gmap string (list loc))
    : M (gmap string loc * gmap string (list loc)) :=
  match nums with
  | [] => mret (numDB, msDB)
  | nStr :: rest =>
      '(numDB, msDB) ← add_member ms nStr numDB msDB;
      add_members ms rest numDB msDB
  end.

Definition AddMsgService (ms : MsgService.t) : M (option err) :=
  if negb (String.prefix "MG" (MsgService.ID ms)) then
    mret (Some (InvalidSID (MsgService.ID ms)))
  else
    match (if decide (MsgService.SMSWebhookURL ms ≠ "")
           then validateURL (MsgService.SMSWebhookURL ms) else None) with
    | Some e => mret (Some e)
    | None =>
      match parse_members (MsgService.Numbers ms) with
      | Some e => mret (Some e)
      | None =>
        msDB ← recv_msgSvcDB;
        match msDB !! MsgService.ID ms with
        | Some _ =>
            _ ← send_msgSvcDB msDB;
            mret (Some (SIDExists (MsgService.ID ms)))
        | None =>
            numDB ← recv_numbersDB;
            '(numDB, msDB) ← add_members ms (MsgService.Numbers ms) numDB msDB;
            _ ← send_numbersDB numDB;
            _ ← send_msgSvcDB msDB;
            mret None
        end
      end
    end.

(** ** Sequences of calls *)

Inductive op :=
| OpAddNumber (n : Number.t)
| OpAddMsgService (ms : MsgService.t)
| OpNumber (s : string)
| OpNumberSvc (sid : string)
| OpNextID (prefix : string).

(** One call, its result dropped. *)
Definition exec (o : op) : M unit :=
  match o with
  | OpAddNumber n => _ ← AddNumber n; mret ()
  | OpAddMsgService ms => _ ← AddMsgService ms; mret ()
  | OpNumber s => _ ← number s; mret ()
  | OpNumberSvc sid => _ ← numberSvc sid; mret ()
  | OpNextID prefix => _ ← nextID prefix; mret ()
  end.

Fixpoint run (ops : list op) : M unit :=
  match ops with
  | [] => mret ()
  | o :: rest => _ ← exec o; run rest
  end.

(** The states a server goes through: what [NewServer] returns, and what
    any sequence of calls makes of it. *)
Definition reachable (s : Server) : Prop :=
  ∃ c s0 ops, NewServer c = Some s0 ∧ run ops s0 = Done () s.

(** An operation names the identity [k]: it registers the number [k], or
    a service that has [k] as a member. *)
Definition targets (k : string) (o : op) : Prop :=
  match o with
  | OpAddNumber n => Number.Number n = k
  | OpAddMsgService ms => k ∈ MsgService.Numbers ms
  | OpNumber _ | OpNumberSvc _ | OpNextID _ => False
  end.

(** An operation registers a service with an override that has [k] as a
    member. *)
Definition overrides (k : string) (o : op) : Prop :=
  match o with
  | OpAddMsgService ms =>
      MsgService.SMSWebhookURL ms ≠ "" ∧ k ∈ MsgService.Numbers ms
  | _ => False
  end.

(** The record behind a number, as a caller of [number] reads it. *)
Definition lookupNumber (k : string) (s : Server) : option Number.t :=
  match number k s with
  | Done (Some p) s' => deref s' p
  | _ => None
  end.

(** What a send through the service [sid] reads for each member: the
    records behind the pointers of [numberSvc]. *)
Definition lookupServiceNumbers (sid : string) (s : Server) : list (option Number.t) :=
  match numberSvc sid s with
  | Done ps s' => deref s' <$> ps
  | _ => []
  end.

(** ** Invariant of the store between two calls *)

(** Every pointer of the number table leads to an object of the heap
    that carries the key it is stored under. *)
Definition tables_ok (numDB : gmap string loc) (h : list Number.t) : Prop :=
  ∀ k p, numDB !! k = Some p →
    ∃ r, h !! p = Some r ∧ Number.Number r = k.

(** Both channels hold their map, the number table is sound, and every
    member of a service is a pointer of the number table. *)
Definition store_ok (s : Server) : Prop :=
  ∃ numDB msDB,
    numbersDB s = Some numDB ∧ msgSvcDB s = Some msDB ∧
    tables_ok numDB (heap s) ∧
    ∀ sid ps p, msDB !! sid = Some ps → p ∈ ps →
      ∃ k, numDB !! k = Some p.

(** [Number{Number: nStr}] *)
Definition bare (nStr : string) : Number.t := Number.mk nStr "" "".

(** What the loop of [AddMsgService] makes of a member's record. *)
Definition override (u : string) (r : Number.t) : Number.t :=
  if decide (u = "") then r else Number.with_SMSWebhookURL u r.

(** The checks of [AddNumber] before it touches the store. *)
Definition valid_Number (n : Number.t) : Prop :=
  libphonenumber_Parse (Number.Number n) = None ∧
  (Number.SMSWebhookURL n ≠ "" → validateURL (Number.SMSWebhookURL n) = None) ∧
  (Number.VoiceWebhookURL n ≠ "" → validateURL (Number.VoiceWebhookURL n) = None).

(** The checks of [AddMsgService] before it touches the store. *)
Definition valid_MsgService (ms : MsgService.t) : Prop :=
  String.prefix "MG" (MsgService.ID ms) = true ∧
  (MsgService.SMSWebhookURL ms ≠ "" →
     validateURL (MsgService.SMSWebhookURL ms) = None) ∧
  Forall (λ nStr, libphonenumber_Parse nStr = None) (MsgService.Numbers ms).

(** A URL that parses and has no scheme. *)
Definition lacks_scheme (s : string) : Prop :=
  ∃ u, url_Parse s = inl u ∧ Scheme u = "".

(** A phone number the parser refuses. *)
Definition malformed (nStr : string) : Prop :=
  is_Some (libphonenumber_Parse nStr).

(** A webhook URL that is set and has no scheme. *)
Definition schemeless (u : string) : Prop := u ≠ "" ∧ lacks_scheme u.

(** The state after a call, seen from the state before it: the invariant
    holds again, no number changes its pointer,
    no registered service changes its members, and the record of a
    number is the same unless the call was a service registration with an
    override that lists the number. *)
Definition follows (o : op) (s s' : Server) : Prop :=
  store_ok s' ∧
  (∀ numDB numDB' k p,
     numbersDB s = Some numDB → numbersDB s' = Some numDB' →
     numDB !! k = Some p → numDB' !! k = Some p) ∧
  (∀ msDB msDB' sid ps,
     msgSvcDB s = Some msDB → msgSvcDB s' = Some msDB' →
     msDB !! sid = Some ps → msDB' !! sid = Some ps) ∧
  (∀ k r, ¬ overrides k o →
     lookupNumber k s = Some r → lookupNumber k s' = Some r).

End Store.

(** ** The coordinator: [Close], [loop], [WaitInFlight]

    The goroutines of the coordinator, one program point per statement,
    and the events that move them.  An event is one atomic action of one
    goroutine (or a rendezvous of two on an unbuffered channel); a run of
    the server is a sequence of events, in any interleaving. *)

(** [srv.once] *)
Inductive once_state := OnceFresh | OnceRunning | OnceDone.

(** A caller of [Close]: at [srv.once.Do], inside the function before
    [close(srv.shutdown)], after it, at [<-srv.shutdownDone], returned. *)
Inductive closer_pc :=
| CloseDo | CloseInF | CloseLeaveF | CloseRecv | CloseReturned.

(** A message handed to the loop: received from [outboundMsgCh], counted
    by [wg.Add(1)], goroutine started and in [sms.lifecycle(ctx)],
    [lifecycle] returned, [wg.Done()] executed. *)
Inductive task_pc :=
| TaskReceived | TaskAdded | TaskRunning | TaskLifecycleDone | TaskFinished.

(** The goroutine of [loop]: at the [select]; in the case of a message,
    before [wg.Add(1)] and before the [go] statement; in the case of a
    wait request, before the [go] statement; then the deferred calls, in
    the order they run: [cancel()], [wg.Wait()], [close(srv.msgCh)],
    [close(srv.shutdownDone)]. *)
Inductive loop_pc :=
| LoopSelect
| LoopAdd (t : nat)
| LoopGo (t : nat)
| LoopGoWatcher (w : nat)
| LoopCancel
| LoopWait
| LoopCloseMsgCh
| LoopCloseShutdownDone
| LoopExited.

(** The goroutine [func() { wg.Wait(); close(ch) }()] of a wait request:
    not started, at [wg.Wait()], at [close(ch)], finished. *)
Inductive watcher_pc := WatcherNone | WatcherWait | WatcherClose | WatcherDone.

(** What [WaitInFlight] returns: [nil] or [ctx.Err()]. *)
Inductive wait_result := WaitNil | WaitCtxErr.

(** A caller of [WaitInFlight]: at the first [select], at the second, returned. *)
Inductive waiter_pc := WaitSend | WaitRecv | WaitReturned (r : wait_result).

(** A call of [WaitInFlight]: its program point, whether [ctx.Done()] is
    closed, whether its channel [ch] is closed, its watcher, and how many
    messages the loop had received when the call began. *)
Record waiter := mkWaiter {
  w_pc : waiter_pc;
  w_ctx_done : bool;
  w_ch_closed : bool;
  w_watcher : watcher_pc;
  w_before : nat
}.

Record Coord := mkCoord {
  once : once_state;
  shutdown : bool;             (* srv.shutdown is closed *)
  shutdownDone : bool;         (* srv.shutdownDone is closed *)
  msgCh_closed : bool;         (* srv.msgCh is closed *)
  loop : loop_pc;
  wg : nat;                    (* the counter of the loop's WaitGroup *)
  cancelled : bool;            (* cancel() of the loop's context ran *)
  closers : list closer_pc;    (* the calls of Close, in order of arrival *)
  tasks : list task_pc;        (* the messages, in order of reception *)
  waiters : list waiter;       (* the calls of WaitInFlight, in order *)
  panicked : bool;
  shutdown_closes : nat        (* how often close(srv.shutdown) ran *)
}.

(** The coordinator of a new server: [go srv.loop()] has started. *)
Definition coord_init : Coord :=
  {| once := OnceFresh; shutdown := false; shutdownDone := false;
     msgCh_closed := false; loop := LoopSelect; wg := 0; cancelled := false;
     closers := []; tasks := []; waiters := [];
     panicked := false; shutdown_closes := 0 |}.

Definition set_closer (c : nat) (pc : closer_pc) (σ : Coord) : Coord :=
  {| once := once σ; shutdown := shutdown σ; shutdownDone := shutdownDone σ;
     msgCh_closed := msgCh_closed σ; loop := loop σ; wg := wg σ;
     cancelled := cancelled σ; closers := <[c := pc]> (closers σ);
     tasks := tasks σ; waiters := waiters σ;
     panicked := panicked σ; shutdown_closes := shutdown_closes σ |}.

Definition add_closer (σ : Coord) : Coord :=
  {| once := once σ; shutdown := shutdown σ; shutdownDone := shutdownDone σ;
     msgCh_closed := msgCh_closed σ; loop := loop σ; wg := wg σ;
     cancelled := cancelled σ; closers := (closers σ ++ [CloseDo])%list;
     tasks := tasks σ; waiters := waiters σ;
     panicked := panicked σ; shutdown_closes := shutdown_closes σ |}.

Definition set_once (o : once_state) (σ : Coord) : Coord :=
  {| once := o; shutdown := shutdown σ; shutdownDone := shutdownDone σ;
     msgCh_closed := msgCh_closed σ; loop := loop σ; wg := wg σ;
     cancelled := cancelled σ; closers := closers σ;
     tasks := tasks σ; waiters := waiters σ;
     panicked := panicked σ; shutdown_closes := shutdown_closes σ |}.

(** [close(srv.shutdown)] on an open channel. *)
Definition close_shutdown (σ : Coord) : Coord :=
  {| once := once σ; shutdown := true; shutdownDone := shutdownDone σ;
     msgCh_closed := msgCh_closed σ; loop := loop σ; wg := wg σ;
     cancelled := cancelled σ; closers := closers σ;
     tasks := tasks σ; waiters := waiters σ;
     panicked := panicked σ; shutdown_closes := S (shutdown_closes σ) |}.

(** A panic: closing a closed channel, a negative WaitGroup counter. *)
Definition panic (σ : Coord) : Coord :=
  {| once := once σ; shutdown := shutdown σ; shutdownDone := shutdownDone σ;
     msgCh_closed := msgCh_closed σ; loop := loop σ; wg := wg σ;
     cancelled := cancelled σ; closers := closers σ;
     tasks := tasks σ; waiters := waiters σ;
     panicked := true; shutdown_closes := shutdown_closes σ |}.

Definition close_shutdownDone (σ : Coord) : Coord :=
  {| once := once σ; shutdown := shutdown σ; shutdownDone := true;
     msgCh_closed := msgCh_closed σ; loop := loop σ; wg := wg σ;
     cancelled := cancelled σ; closers := closers σ;
     tasks := tasks σ; waiters := waiters σ;
     panicked := panicked σ; shutdown_closes := shutdown_closes σ |}.

Definition close_msgCh (σ : Coord) : Coord :=
  {| once := once σ; shutdown := shutdown σ; shutdownDone := shutdownDone σ;
     msgCh_closed := true; loop := loop σ; wg := wg σ;
     cancelled := cancelled σ; closers := closers σ;
     tasks := tasks σ; waiters := waiters σ;
     panicked := panicked σ; shutdown_closes := shutdown_closes σ |}.

Definition set_loop (pc : loop_pc) (σ : Coord) : Coord :=
  {| once := once σ; shutdown := shutdown σ; shutdownDone := shutdownDone σ;
     msgCh_closed := msgCh_closed σ; loop := pc; wg := wg σ;
     cancelled := cancelled σ; closers := closers σ;
     tasks := tasks σ; waiters := waiters σ;
     panicked := panicked σ; shutdown_closes := shutdown_closes σ |}.

Definition set_wg (n : nat) (σ : Coord) : Coord :=
  {| once := once σ; shutdown := shutdown σ; shutdownDone := shutdownDone σ;
     msgCh_closed := msgCh_closed σ; loop := loop σ; wg := n;
     cancelled := cancelled σ; closers := closers σ;
     tasks := tasks σ; waiters := waiters σ;
     panicked := panicked σ; shutdown_closes := shutdown_closes σ |}.

Definition set_cancelled (σ : Coord) : Coord :=
  {| once := once σ; shutdown := shutdown σ; shutdownDone := shutdownDone σ;
     msgCh_closed := msgCh_closed σ; loop := loop σ; wg := wg σ;
     cancelled := true; closers := closers σ;
     tasks := tasks σ; waiters := waiters σ;
     panicked := panicked σ; shutdown_closes := shutdown_closes σ |}.

Definition set_tasks (ts : list task_pc) (σ : Coord) : Coord :=
  {| once := once σ; shutdown := shutdown σ; shutdownDone := shutdownDone σ;
     msgCh_closed := msgCh_closed σ; loop := loop σ; wg := wg σ;
     cancelled := cancelled σ; closers := closers σ;
     tasks := ts; waiters := waiters σ;
     panicked := panicked σ; shutdown_closes := shutdown_closes σ |}.

Definition set_waiters (ws : list waiter) (σ : Coord) : Coord :=
  {| once := once σ; shutdown := shutdown σ; shutdownDone := shutdownDone σ;
     msgCh_closed := msgCh_closed σ; loop := loop σ; wg := wg σ;
     cancelled := cancelled σ; closers := closers σ;
     tasks := tasks σ; waiters := ws;
     panicked := panicked σ; shutdown_closes := shutdown_closes σ |}.

Definition set_task (t : nat) (pc : task_pc) (σ : Coord) : Coord :=
  set_tasks (<[t := pc]> (tasks σ)) σ.

Definition set_waiter (w : nat) (wt : waiter) (σ : Coord) : Coord :=
  set_waiters (<[w := wt]> (waiters σ)) σ.

Definition with_pc (pc : waiter_pc) (wt : waiter) : waiter :=
  mkWaiter pc (w_ctx_done wt) (w_ch_closed wt) (w_watcher wt) (w_before wt).

Definition with_ctx_done (wt : waiter) : waiter :=
  mkWaiter (w_pc wt) true (w_ch_closed wt) (w_watcher wt) (w_before wt).

Definition with_ch_closed (wt : waiter) : waiter :=
  mkWaiter (w_pc wt) (w_ctx_done wt) true (w_watcher wt) (w_before wt).

Definition with_watcher (pc : watcher_pc) (wt : waiter) : waiter :=
  mkWaiter (w_pc wt) (w_ctx_done wt) (w_ch_closed wt) pc (w_before wt).

Inductive event :=
(* Close *)
| CallClose                      (* a goroutine calls Close *)
| OnceEnter (c : nat)            (* once.Do finds the Once fresh and calls f *)
| OnceSkip (c : nat)             (* once.Do finds the Once done *)
| CloseShutdown (c : nat)        (* close(srv.shutdown) *)
| OnceLeave (c : nat)            (* f returns, the Once is done *)
| RecvShutdownDone (c : nat)     (* <-srv.shutdownDone, then return nil *)
(* loop *)
| LoopShutdown                   (* case <-srv.shutdown: return *)
| LoopDeferCancel                (* deferred cancel() *)
| LoopDeferWait                  (* deferred wg.Wait() *)
| LoopDeferCloseMsgCh            (* deferred close(srv.msgCh) *)
| LoopDeferCloseShutdownDone     (* deferred close(srv.shutdownDone) *)
| Submit                         (* case sms := <-srv.outboundMsgCh *)
| LoopWgAdd                      (* wg.Add(1) *)
| LoopGoLifecycle                (* go func() { sms.lifecycle(ctx); wg.Done() }() *)
| LoopGoWatcherEv                (* go func() { wg.Wait(); close(ch) }() *)
(* the goroutine of a message *)
| LifecycleReturns (t : nat)     (* sms.lifecycle(ctx) returns *)
| TaskWgDone (t : nat)           (* wg.Done() *)
(* WaitInFlight and its watcher *)
| CallWaitInFlight               (* a goroutine calls WaitInFlight; ch := make(...) *)
| Deadline (w : nat)             (* ctx.Done() of the caller is closed *)
| WaitHandOver (w : nat)         (* case srv.waitInFlight <- ch, with the loop's
                                    case ch := <-srv.waitInFlight *)
| WatcherWgWait (w : nat)        (* wg.Wait() returns *)
| WatcherCloseCh (w : nat)       (* close(ch) *)
| WaitCtxDone (w : nat)          (* case <-ctx.Done(): return ctx.Err() *)
| WaitChClosed (w : nat).        (* case <-ch, then return nil *)

(** One event; [None] when the event cannot happen in the state: the
    goroutine is not at that statement, or the statement blocks.  A receive
    from a channel nobody sends on goes through once the channel is closed;
    [once.Do] blocks while another call is inside the function; [wg.Wait()]
    goes through when the counter is zero; after a panic nothing runs. *)
Definition coord_step (ev : event) (σ : Coord) : option Coord :=
  if panicked σ then None else
  match ev with
  | CallClose => Some (add_closer σ)
  | OnceEnter c =>
      match closers σ !! c, once σ with
      | Some CloseDo, OnceFresh =>
          Some (set_closer c CloseInF (set_once OnceRunning σ))
      | _, _ => None
      end
  | OnceSkip c =>
      match closers σ !! c, once σ with
      | Some CloseDo, OnceDone => Some (set_closer c CloseRecv σ)
      | _, _ => None
      end
  | CloseShutdown c =>
      match closers σ !! c with
      | Some CloseInF =>
          if shutdown σ then Some (panic σ)
          else Some (set_closer c CloseLeaveF (close_shutdown σ))
      | _ => None
      end
  | OnceLeave c =>
      match closers σ !! c with
      | Some CloseLeaveF => Some (set_closer c CloseRecv (set_once OnceDone σ))
      | _ => None
      end
  | RecvShutdownDone c =>
      match closers σ !! c with
      | Some CloseRecv =>
          if shutdownDone σ then Some (set_closer c CloseReturned σ) else None
      | _ => None
      end
  | LoopShutdown =>
      match loop σ with
      | LoopSelect => if shutdown σ then Some (set_loop LoopCancel σ) else None
      | _ => None
      end
  | LoopDeferCancel =>
      match loop σ with
      | LoopCancel => Some (set_loop LoopWait (set_cancelled σ))
      | _ => None
      end
  | LoopDeferWait =>
      match loop σ, wg σ with
      | LoopWait, 0 => Some (set_loop LoopCloseMsgCh σ)
      | _, _ => None
      end
  | LoopDeferCloseMsgCh =>
      match loop σ with
      | LoopCloseMsgCh =>
          if msgCh_closed σ then Some (panic σ)
          else Some (set_loop LoopCloseShutdownDone (close_msgCh σ))
      | _ => None
      end
  | LoopDeferCloseShutdownDone =>
      match loop σ with
      | LoopCloseShutdownDone =>
          if shutdownDone σ then Some (panic σ)
          else Some (set_loop LoopExited (close_shutdownDone σ))
      | _ => None
      end
  | Submit =>
      match loop σ with
      | LoopSelect =>
          Some (set_loop (LoopAdd (length (tasks σ)))
                  (set_tasks (tasks σ ++ [TaskReceived])%list σ))
      | _ => None
      end
  | LoopWgAdd =>
      match loop σ with
      | LoopAdd t =>
          Some (set_loop (LoopGo t) (set_task t TaskAdded (set_wg (S (wg σ)) σ)))
      | _ => None
      end
  | LoopGoLifecycle =>
      match loop σ with
      | LoopGo t => Some (set_loop LoopSelect (set_task t TaskRunning σ))
      | _ => None
      end
  | LoopGoWatcherEv =>
      match loop σ with
      | LoopGoWatcher w =>
          match waiters σ !! w with
          | Some wt =>
              Some (set_loop LoopSelect
                      (set_waiter w (with_watcher WatcherWait wt) σ))
          | None => None
          end
      | _ => None
      end
  | LifecycleReturns t =>
      match tasks σ !! t with
      | Some TaskRunning => Some (set_task t TaskLifecycleDone σ)
      | _ => None
      end
  | TaskWgDone t =>
      match tasks σ !! t with
      | Some TaskLifecycleDone =>
          match wg σ with
          | 0 => Some (panic σ)
          | S n => Some (set_task t TaskFinished (set_wg n σ))
          end
      | _ => None
      end
  | CallWaitInFlight =>
      Some (set_waiters
              (waiters σ ++
               [mkWaiter WaitSend false false WatcherNone (length (tasks σ))])%list
              σ)
  | Deadline w =>
      match waiters σ !! w with
      | Some wt => Some (set_waiter w (with_ctx_done wt) σ)
      | None => None
      end
  | WaitHandOver w =>
      match waiters σ !! w, loop σ with
      | Some wt, LoopSelect =>
          match w_pc wt with
          | WaitSend =>
              Some (set_loop (LoopGoWatcher w)
                      (set_waiter w (with_pc WaitRecv wt) σ))
          | _ => None
          end
      | _, _ => None
      end
  | WatcherWgWait w =>
      match waiters σ !! w, wg σ with
      | Some wt, 0 =>
          match w_watcher wt with
          | WatcherWait => Some (set_waiter w (with_watcher WatcherClose wt) σ)
          | _ => None
          end
      | _, _ => None
      end
  | WatcherCloseCh w =>
      match waiters σ !! w with
      | Some wt =>
          match w_watcher wt with
          | WatcherClose =>
              if w_ch_closed wt then Some (panic σ)
              else Some (set_waiter w
                           (with_watcher WatcherDone (with_ch_closed wt)) σ)
          | _ => None
          end
      | None => None
      end
  | WaitCtxDone w =>
      match waiters σ !! w with
      | Some wt =>
          match w_pc wt with
          | WaitReturned _ => None
          | _ =>
              if w_ctx_done wt
              then Some (set_waiter w (with_pc (WaitReturned WaitCtxErr) wt) σ)
              else None
          end
      | None => None
      end
  | WaitChClosed w =>
      match waiters σ !! w with
      | Some wt =>
          match w_pc wt with
          | WaitRecv =>
              if w_ch_closed wt
              then Some (set_waiter w (with_pc (WaitReturned WaitNil) wt) σ)
              else None
          | _ => None
          end
      | None => None
      end
  end.

(** A run: the events one after the other, from the first. *)
Fixpoint coord_run (evs : list event) (σ : Coord) : option Coord :=
  match evs with
  | [] => Some σ
  | ev :: rest =>
      match coord_step ev σ with
      | Some σ' => coord_run rest σ'
      | None => None
      end
  end.

(** The states of the coordinator of a running server. *)
Definition coord_reachable (σ : Coord) : Prop :=
  ∃ evs, coord_run evs coord_init = Some σ.

(** A message is in flight: counted by [wg.Add(1)], [wg.Done()] still to come. *)
Definition in_flight (pc : task_pc) : bool :=
  match pc with
  | TaskAdded | TaskRunning | TaskLifecycleDone => true
  | TaskReceived | TaskFinished => false
  end.

Definition count_in_flight (ts : list task_pc) : nat :=
  length (filter (λ pc, in_flight pc = true) ts).

(** A message the loop has counted: [wg.Add(1)] is behind it. *)
Definition counted (pc : task_pc) : Prop :=
  pc ≠ TaskReceived ∧ pc ≠ TaskAdded.

(** A caller of [Close] is inside the function given to [once.Do]. *)
Definition inside_once (pc : closer_pc) : Prop :=
  pc = CloseInF ∨ pc = CloseLeaveF.

(** How far the loop is on its way out: 0 while it serves its [select],
    then one more for each deferred call that is behind it. *)
Definition loop_phase (pc : loop_pc) : nat :=
  match pc with
  | LoopSelect | LoopAdd _ | LoopGo _ | LoopGoWatcher _ => 0
  | LoopCancel => 1
  | LoopWait => 2
  | LoopCloseMsgCh => 3
  | LoopCloseShutdownDone => 4
  | LoopExited => 5
  end.

(** The message the loop holds between its [select] and its [go]
    statement, with the program point that message is at. *)
Definition loop_task (pc : loop_pc) : option (nat * task_pc) :=
  match pc with
  | LoopAdd t => Some (t, TaskReceived)
  | LoopGo t => Some (t, TaskAdded)
  | _ => None
  end.

(** The wait request the loop holds between its [select] and its [go]
    statement. *)
Definition loop_watcher (pc : loop_pc) : option nat :=
  match pc with
  | LoopGoWatcher w => Some w
  | _ => None
  end.

(** What holds of [Close] and of the way out of the loop in every state of
    a run: [close(srv.shutdown)] ran once if the channel is closed and never
    if not; a fresh Once means an open channel; a caller inside the function
    means a running Once, and there is one such caller at most; a caller
    before [close(srv.shutdown)] means an open channel; a caller that has
    returned means [shutdownDone] is closed; and the channels the loop
    closes are closed from the matching deferred call on. *)
Record close_inv (σ : Coord) : Prop := {
  ci_closes : shutdown_closes σ = if shutdown σ then 1 else 0;
  ci_fresh : once σ = OnceFresh → shutdown σ = false;
  ci_inside : ∀ c pc, closers σ !! c = Some pc → inside_once pc →
                once σ = OnceRunning;
  ci_inF : ∀ c, closers σ !! c = Some CloseInF → shutdown σ = false;
  ci_one_inside : ∀ c1 c2 pc1 pc2,
      closers σ !! c1 = Some pc1 → closers σ !! c2 = Some pc2 →
      inside_once pc1 → inside_once pc2 → c1 = c2;
  ci_returned : ∀ c, closers σ !! c = Some CloseReturned →
                  shutdownDone σ = true;
  ci_leaving : 1 ≤ loop_phase (loop σ) → shutdown σ = true;
  ci_msgCh : msgCh_closed σ = true ↔ 4 ≤ loop_phase (loop σ);
  ci_shutdownDone : shutdownDone σ = true ↔ loop_phase (loop σ) = 5
}.

(** What holds of the messages: the counter of the WaitGroup is the number
    of messages in flight, and a message that is not yet counted or not yet
    started is the one the loop holds. *)
Record task_inv (σ : Coord) : Prop := {
  ti_wg : wg σ = count_in_flight (tasks σ);
  ti_loop : ∀ t pc, ¬ counted pc →
      tasks σ !! t = Some pc ↔ loop_task (loop σ) = Some (t, pc)
}.

(** What holds of a call of [WaitInFlight]: the messages received before
    the call are among the messages; before the hand-over there is no
    watcher; a closed [ch] means the watcher has finished; the call returns
    nil only with [ch] closed; from the hand-over on, the messages received
    before the call are counted; and once the watcher is past [wg.Wait()],
    they are all finished. *)
Definition waiter_inv (σ : Coord) (w : nat) (wt : waiter) : Prop :=
  w_before wt ≤ length (tasks σ) ∧
  (w_pc wt = WaitSend →
     w_watcher wt = WatcherNone ∧ loop_watcher (loop σ) ≠ Some w) ∧
  (w_ch_closed wt = true → w_watcher wt = WatcherDone) ∧
  (w_pc wt = WaitReturned WaitNil → w_ch_closed wt = true) ∧
  (w_watcher wt = WatcherWait ∨ loop_watcher (loop σ) = Some w →
     ∀ t, t < w_before wt → ∃ pc, tasks σ !! t = Some pc ∧ counted pc) ∧
  (w_watcher wt = WatcherClose ∨ w_watcher wt = WatcherDone →
     ∀ t, t < w_before wt → tasks σ !! t = Some TaskFinished).

Record wait_inv (σ : Coord) : Prop := {
  wi_handover : ∀ w, loop_watcher (loop σ) = Some w →
      ∃ wt, waiters σ !! w = Some wt ∧ w_watcher wt = WatcherNone;
  wi_waiter : ∀ w wt, waiters σ !! w = Some wt → waiter_inv σ w wt
}.

Definition coord_inv (σ : Coord) : Prop :=
  panicked σ = false ∧ close_inv σ ∧ task_inv σ ∧ wait_inv σ.

(** The messages only move forward: none disappears, a counted one stays
    counted, a finished one stays finished. *)
Definition tasks_progress (ts ts' : list task_pc) : Prop :=
  length ts ≤ length ts' ∧
  ∀ t pc, ts !! t = Some pc →
    (counted pc → ∃ pc', ts' !! t = Some pc' ∧ counted pc') ∧
    (pc = TaskFinished → ts' !! t = Some TaskFinished).

(** ** Further notions about the store and the coordinator *)

(** An operation registers a service under the ID [sid]. *)
Definition registers (sid : string) (o : op) : Prop :=
  match o with
  | OpAddMsgService ms => MsgService.ID ms = sid
  | _ => False
  end.

(** The outcome of a computation, with the counter set to [v] in the
    state it leaves. *)
Definition with_id {A : Type} (v : N) (r : res A) : res A :=
  match r with
  | Done a s => Done a (set_id v s)
  | Block => Block
  | Wild => Wild
  end.

(** A computation that neither reads nor writes the counter. *)
Definition counter_free {A : Type} (m : M A) : Prop :=
  ∀ v s, m (set_id v s) = with_id v (m s).

(** What holds of the way out of the loop: its context is cancelled from
    the deferred [cancel()] on and not before, and from the deferred
    [wg.Wait()] on the counter of the WaitGroup is zero. *)
Definition drain_inv (σ : Coord) : Prop :=
  (cancelled σ = true ↔ 2 ≤ loop_phase (loop σ)) ∧
  (3 ≤ loop_phase (loop σ) → wg σ = 0).

(** A call of [WaitInFlight] has not handed its channel to the loop: it
    is at its first [select] or has returned [ctx.Err()] from it, it has
    no watcher, and its channel is open. *)
Definition unserved (wt : waiter) : Prop :=
  (w_pc wt = WaitSend ∨ w_pc wt = WaitReturned WaitCtxErr) ∧
  w_watcher wt = WatcherNone ∧ w_ch_closed wt = false.

(** An unserved call, while the loop is on its way out. *)
Definition unserved_leaving (σ : Coord) (w : nat) : Prop :=
  1 ≤ loop_phase (loop σ) ∧
  ∃ wt, waiters σ !! w = Some wt ∧ unserved wt.

(** An unserved call that has returned, and that the loop does not hold. *)
Definition unserved_returned (σ : Coord) (w : nat) : Prop :=
  loop_watcher (loop σ) ≠ Some w ∧
  ∃ wt, waiters σ !! w = Some wt ∧ unserved wt ∧
    w_pc wt = WaitReturned WaitCtxErr.

(** What holds of the Once of [Close]: while it runs, a caller is inside
    the function; once it is done, [srv.shutdown] is closed; a caller past
    [once.Do] means a Once that is done; and a caller past
    [close(srv.shutdown)] means a closed channel. *)
Definition once_inv (σ : Coord) : Prop :=
  (once σ = OnceRunning →
     ∃ c pc, closers σ !! c = Some pc ∧ inside_once pc) ∧
  (once σ = OnceDone → shutdown σ = true) ∧
  (∀ c pc, closers σ !! c = Some pc →
     pc = CloseRecv ∨ pc = CloseReturned → once σ = OnceDone) ∧
  (∀ c, closers σ !! c = Some CloseLeaveF → shutdown σ = true).

(** What a run never undoes: a call of [Close] stays, one that has
    returned stays returned, a Once that is done stays done, and a loop
    that has exited stays so. *)
Definition settled (σ σ' : Coord) : Prop :=
  length (closers σ) ≤ length (closers σ') ∧
  (∀ c, closers σ !! c = Some CloseReturned →
     closers σ' !! c = Some CloseReturned) ∧
  (once σ = OnceDone → once σ' = OnceDone) ∧
  (loop σ = LoopExited → loop σ' = LoopExited).

(** Some continuation of the run reaches a state in which [Q] holds. *)
Definition leads (σ : Coord) (Q : Coord → Prop) : Prop :=
  ∃ evs σ', coord_run evs σ = Some σ' ∧ Q σ'.

(** ** Stand-ins for the collaborators, for the examples *)

Definition is_digit (c : ascii) : bool :=
  (48 <=? nat_of_ascii c) && (nat_of_ascii c <=? 57).

(** Accepts a plus sign followed by at least one digit and only digits. *)
Definition demo_Parse (s : string) : option string :=
  match s with
  | String "+" (String c rest) =>
      if forallb is_digit (c :: String.list_ascii_of_string rest) then None
      else Some "the phone number supplied is not a number"
  | _ => Some "the phone number supplied is not a number"
  end.

(** What comes before the first colon, or nothing without a colon. *)
Fixpoint demo_scheme (s acc : string) : string :=
  match s with
  | EmptyString => ""
  | String ":" _ => acc
  | String c rest => demo_scheme rest (acc +:+ String c "")
  end.

Definition demo : Collaborators := {|
  libphonenumber_Parse := demo_Parse;
  url_Parse := λ s, inl (mkURL (demo_scheme s ""))
|}.

Definition demo_Config : Config := mkConfig "AC0001" "token" false.

(** The server [NewServer] returns for [demo_Config]. *)
Definition demo_Server : Server :=
  {| cfg := demo_Config; numbersDB := Some ∅; msgSvcDB := Some ∅;
     heap := []; id := 0%N |}.

(** ** Concrete numbers, services and server states, for the examples *)

Definition num1 : Number.t := Number.mk "+15550001234" "" "http://test/hook".
Definition num2 : Number.t := Number.mk "+15550005678" "http://test/voice" "".
Definition svc1 : MsgService.t :=
  MsgService.mk "MG0001" ["+15550001234"; "+15550009999"] "http://svc1/hook".
Definition svc2 : MsgService.t :=
  MsgService.mk "MG0002" ["+15550001234"] "http://svc2/hook".
Definition svc3 : MsgService.t :=
  MsgService.mk "MG0003" ["+15550005678"; "+15550007777"] "".

Definition demo_state (numDB : list (string * loc)) (msDB : list (string * list loc))
    (h : list Number.t) : Server :=
  {| cfg := demo_Config;
     numbersDB := Some (list_to_map numDB);
     msgSvcDB := Some (list_to_map msDB);
     heap := h;
     id := 0%N |}.

(** [demo_Server] after [AddNumber num1]. *)
Definition after_num1 : Server :=
  demo_state [("+15550001234", 0)] [] [num1].

(** [demo_Server] after [AddMsgService svc1], with or without [num1]
    registered before. *)
Definition after_svc1 : Server :=
  demo_state [("+15550001234", 0); ("+15550009999", 1)] [("MG0001", [0; 1])]
    [Number.mk "+15550001234" "" "http://svc1/hook";
     Number.mk "+15550009999" "" "http://svc1/hook"].

(** [after_svc1] after [AddMsgService svc2]. *)
Definition after_svc1_svc2 : Server :=
  demo_state [("+15550001234", 0); ("+15550009999", 1)]
    [("MG0001", [0; 1]); ("MG0002", [0])]
    [Number.mk "+15550001234" "" "http://svc2/hook";
     Number.mk "+15550009999" "" "http://svc1/hook"].

(** [demo_Server] after [AddMsgService svc3]. *)
Definition after_svc3 : Server :=
  demo_state [("+15550005678", 0); ("+15550007777", 1)] [("MG0003", [0; 1])]
    [bare "+15550005678"; bare "+15550007777"].

(** [after_num1] after [AddNumber num2] and [AddMsgService svc3]. *)
Definition after_num1_num2_svc3 : Server :=
  demo_state [("+15550001234", 0); ("+15550005678", 1); ("+15550007777", 2)]
    [("MG0003", [1; 2])]
    [num1; num2; bare "+15550007777"].

(** [after_svc1] after [AddNumber num2] and [AddMsgService svc3]. *)
Definition after_svc1_num2_svc3 : Server :=
  demo_state
    [("+15550001234", 0); ("+15550009999", 1); ("+15550005678", 2);
     ("+15550007777", 3)]
    [("MG0001", [0; 1]); ("MG0003", [2; 3])]
    [Number.mk "+15550001234" "" "http://svc1/hook";
     Number.mk "+15550009999" "" "http://svc1/hook";
     num2; bare "+15550007777"].

(** ** Concrete runs of the coordinator, for the examples *)


Definition after_close_twice : Coord :=
  {| once := OnceDone; shutdown := true; shutdownDone := true;
     msgCh_closed := true; loop := LoopExited; wg := 0; cancelled := true;
     closers := [CloseReturned; CloseReturned]; tasks := []; waiters := [];
     panicked := false; shutdown_closes := 1 |}.

(** One message is handed to the loop and its goroutine started. *)
Definition run_one_message : list event :=
  [Submit; LoopWgAdd; LoopGoLifecycle].

Definition after_one_message : Coord :=
  {| once := OnceFresh; shutdown := false; shutdownDone := false;
     msgCh_closed := false; loop := LoopSelect; wg := 1; cancelled := false;
     closers := []; tasks := [TaskRunning]; waiters := [];
     panicked := false; shutdown_closes := 0 |}.

(** After [run_one_message], a call of [WaitInFlight] begins. *)
Definition after_call_wait : Coord :=
  {| once := OnceFresh; shutdown := false; shutdownDone := false;
     msgCh_closed := false; loop := LoopSelect; wg := 1; cancelled := false;
     closers := []; tasks := [TaskRunning];
     waiters := [mkWaiter WaitSend false false WatcherNone 1];
     panicked := false; shutdown_closes := 0 |}.

(** The call hands its channel over, the message finishes, the watcher
    closes the channel, the call returns nil. *)
Definition run_wait_success : list event :=
  [WaitHandOver 0; LoopGoWatcherEv; LifecycleReturns 0; TaskWgDone 0;
   WatcherWgWait 0; WatcherCloseCh 0; WaitChClosed 0].

Definition after_wait_success : Coord :=
  {| once := OnceFresh; shutdown := false; shutdownDone := false;
     msgCh_closed := false; loop := LoopSelect; wg := 0; cancelled := false;
     closers := []; tasks := [TaskFinished];
     waiters := [mkWaiter (WaitReturned WaitNil) false true WatcherDone 1];
     panicked := false; shutdown_closes := 0 |}.

(** The call hands its channel over, and its deadline passes while the
    message is still in its lifecycle. *)
Definition run_wait_deadline : list event :=
  [Submit; LoopWgAdd; LoopGoLifecycle; CallWaitInFlight; WaitHandOver 0;
   LoopGoWatcherEv; Deadline 0].

Definition after_wait_deadline : Coord :=
  {| once := OnceFresh; shutdown := false; shutdownDone := false;
     msgCh_closed := false; loop := LoopSelect; wg := 1; cancelled := false;
     closers := []; tasks := [TaskRunning];
     waiters := [mkWaiter WaitRecv true false WatcherWait 1];
     panicked := false; shutdown_closes := 0 |}.

(** What the watcher of the abandoned call still does. *)
Definition run_watcher_completes : list event :=
  [LifecycleReturns 0; TaskWgDone 0; WatcherWgWait 0; WatcherCloseCh 0].

(** After [run_wait_deadline]: the message finishes, the watcher closes
    the channel, and only then the caller's second [select] runs; both of
    its cases are ready, and it takes [<-ch]. *)
Definition run_deadline_then_nil : list event :=
  [LifecycleReturns 0; TaskWgDone 0; WatcherWgWait 0; WatcherCloseCh 0;
   WaitChClosed 0].

Definition after_deadline_then_nil : Coord :=
  {| once := OnceFresh; shutdown := false; shutdownDone := false;
     msgCh_closed := false; loop := LoopSelect; wg := 0; cancelled := false;
     closers := []; tasks := [TaskFinished];
     waiters := [mkWaiter (WaitReturned WaitNil) true true WatcherDone 1];
     panicked := false; shutdown_closes := 0 |}.

(** A call of [WaitInFlight] whose watcher passes [wg.Wait()] before a
    message arrives: the call returns nil while that message is in its
    lifecycle. *)
Definition run_wait_then_message : list event :=
  [CallWaitInFlight; WaitHandOver 0; LoopGoWatcherEv; WatcherWgWait 0;
   Submit; LoopWgAdd; LoopGoLifecycle; WatcherCloseCh 0; WaitChClosed 0].

Definition after_wait_then_message : Coord :=
  {| once := OnceFresh; shutdown := false; shutdownDone := false;
     msgCh_closed := false; loop := LoopSelect; wg := 1; cancelled := false;
     closers := []; tasks := [TaskRunning];
     waiters := [mkWaiter (WaitReturned WaitNil) false true WatcherDone 0];
     panicked := false; shutdown_closes := 0 |}.

(** Every character of a string is a decimal digit. *)
Definition all_digits (s : string) : bool :=
  forallb is_digit (String.list_ascii_of_string s).

(** ** Further concrete states and runs, for the examples *)

(** [after_svc1] after [AddNumber num2]. *)
Definition after_svc1_num2 : Server :=
  demo_state
    [("+15550001234", 0); ("+15550009999", 1); ("+15550005678", 2)]
    [("MG0001", [0; 1])]
    [Number.mk "+15550001234" "" "http://svc1/hook";
     Number.mk "+15550009999" "" "http://svc1/hook";
     num2].

(** A service whose second and third members are malformed. *)
Definition svc_malformed : MsgService.t :=
  MsgService.mk "MG0007" ["+15550001234"; "bad"; "worse"] "".

(** After [run_close_twice], a call of [WaitInFlight] begins, its
    deadline passes, and it returns. *)
Definition run_wait_after_close : list event :=
  [Deadline 0; WaitCtxDone 0].

Definition after_wait_after_close : Coord :=
  {| once := OnceDone; shutdown := true; shutdownDone := true;
     msgCh_closed := true; loop := LoopExited; wg := 0; cancelled := true;
     closers := [CloseReturned; CloseReturned]; tasks := [];
     waiters := [mkWaiter (WaitReturned WaitCtxErr) true false WatcherNone 0];
     panicked := false; shutdown_closes := 1 |}.

(** One message is in its lifecycle, a call of [WaitInFlight] begins, and
    its deadline passes before the loop receives its channel. *)
Definition run_call_deadline : list event :=
  [Submit; LoopWgAdd; LoopGoLifecycle; CallWaitInFlight; Deadline 0].

Definition after_call_deadline : Coord :=
  {| once := OnceFresh; shutdown := false; shutdownDone := false;
     msgCh_closed := false; loop := LoopSelect; wg := 1; cancelled := false;
     closers := []; tasks := [TaskRunning];
     waiters := [mkWaiter WaitSend true false WatcherNone 1];
     panicked := false; shutdown_closes := 0 |}.

(** The call has returned [ctx.Err()]; the message finishes, and the loop
    receives another message. *)
Definition run_after_early_deadline : list event :=
  [LifecycleReturns 0; TaskWgDone 0; Submit; LoopWgAdd; LoopGoLifecycle].

Definition after_early_deadline : Coord :=
  {| once := OnceFresh; shutdown := false; shutdownDone := false;
     msgCh_closed := false; loop := LoopSelect; wg := 1; cancelled := false;
     closers := []; tasks := [TaskFinished; TaskRunning];
     waiters := [mkWaiter (WaitReturned WaitCtxErr) true false WatcherNone 1];
     panicked := false; shutdown_closes := 0 |}.

(** [Close] is called while a message is in its lifecycle: the loop takes
    the shutdown case and cancels its context, the message finishes, and
    only then the deferred [wg.Wait()] goes through, the loop closes its
    channels and [Close] returns. *)
Definition run_close_cancel : list event :=
  [Submit; LoopWgAdd; LoopGoLifecycle; CallClose; OnceEnter 0;
   CloseShutdown 0; OnceLeave 0; LoopShutdown; LoopDeferCancel].

Definition run_close_drain : list event :=
  (run_close_cancel ++
   [LifecycleReturns 0; TaskWgDone 0; LoopDeferWait; LoopDeferCloseMsgCh;
    LoopDeferCloseShutdownDone; RecvShutdownDone 0])%list.

Definition after_close_drain : Coord :=
  {| once := OnceDone; shutdown := true; shutdownDone := true;
     msgCh_closed := true; loop := LoopExited; wg := 0; cancelled := true;
     closers := [CloseReturned]; tasks := [TaskFinished]; waiters := [];
     panicked := false; shutdown_closes := 1 |}.

(** One message is in its lifecycle and the loop holds a second one when
    [Close] is called twice. *)
Definition run_close_pending : list event :=
  [Submit; LoopWgAdd; LoopGoLifecycle; Submit; CallClose; CallClose;
   OnceEnter 1].

Definition after_close_pending : Coord :=
  {| once := OnceRunning; shutdown := false; shutdownDone := false;
     msgCh_closed := false; loop := LoopAdd 1; wg := 1; cancelled := false;
     closers := [CloseDo; CloseInF]; tasks := [TaskRunning; TaskReceived];
     waiters := [];
     panicked := false; shutdown_closes := 0 |}.

(** * Facts about the routing store *)

Section StoreFacts.

Context `{Collaborators}.

Ltac unfold_M :=
  unfold mbind, M_bind, mret, M_ret, recv_numbersDB, send_numbersDB,
    recv_msgSvcDB, send_msgSvcDB, alloc, store_SMSWebhookURL in *;
  simpl in *.

Lemma set_numbersDB_id (s : Server) db :
  numbersDB s = Some db → set_numbersDB (Some db) (set_numbersDB None s) = s.
Proof. destruct s; simpl; intros ->; reflexivity. Qed.

Lemma set_msgSvcDB_id (s : Server) db :
  msgSvcDB s = Some db → set_msgSvcDB (Some db) (set_msgSvcDB None s) = s.
Proof. destruct s; simpl; intros ->; reflexivity. Qed.

Lemma number_idle (k : string) (s : Server) db :
  numbersDB s = Some db → number k s = Done (db !! k) s.
Proof.
  intros Hdb. unfold number. unfold_M. rewrite Hdb. simpl.
  by rewrite set_numbersDB_id.
Qed.

Lemma numberSvc_idle (sid : string) (s : Server) db :
  msgSvcDB s = Some db → numberSvc sid s = Done (default [] (db !! sid)) s.
Proof.
  intros Hdb. unfold numberSvc. unfold_M. rewrite Hdb. simpl.
  by rewrite set_msgSvcDB_id.
Qed.

Lemma AddNumber_invalid (n : Number.t) (s : Server) :
  ¬ valid_Number n →
  ∃ e, AddNumber n s = Done (Some e) s ∧ kind e = ValidationError.
Proof.
  intros Hn. unfold AddNumber, valid_Number in *.
  destruct (libphonenumber_Parse (Number.Number n)) as [e|] eqn:Hp.
  { eexists; split; [reflexivity|done]. }
  destruct (decide (Number.SMSWebhookURL n ≠ "")) as [Hs|Hs].
  - destruct (validateURL (Number.SMSWebhookURL n)) as [e|] eqn:Hv.
    { exists e; split; [reflexivity|].
      unfold validateURL in Hv. destruct (url_Parse _); [case_decide|]; by simplify_eq. }
    destruct (decide (Number.VoiceWebhookURL n ≠ "")) as [Hw|Hw].
    + destruct (validateURL (Number.VoiceWebhookURL n)) as [e|] eqn:Hv'.
      { exists e; split; [reflexivity|].
        unfold validateURL in Hv'. destruct (url_Parse _); [case_decide|]; by simplify_eq. }
      exfalso. apply Hn. done.
    + exfalso. apply Hn. split; [done|]. split; [done|]. intros Hw'. by destruct Hw.
  - destruct (decide (Number.VoiceWebhookURL n ≠ "")) as [Hw|Hw].
    + destruct (validateURL (Number.VoiceWebhookURL n)) as [e|] eqn:Hv'.
      { exists e; split; [reflexivity|].
        unfold validateURL in Hv'. destruct (url_Parse _); [case_decide|]; by simplify_eq. }
      exfalso. apply Hn. split; [done|]. split; [|done]. intros Hs'. by destruct Hs.
    + exfalso. apply Hn. split; [done|].
      split; [intros Hs'; by destruct Hs|intros Hw'; by destruct Hw].
Qed.

Lemma AddNumber_valid (n : Number.t) (s : Server) :
  valid_Number n →
  AddNumber n s =
    (db ← recv_numbersDB;
     match db !! Number.Number n with
     | Some _ =>
         _ ← send_numbersDB db;
         mret (Some (NumberExists (Number.Number n)))
     | None =>
         p ← alloc n;
         _ ← send_numbersDB (<[Number.Number n := p]> db);
         mret None
     end) s.
Proof.
  intros (Hp & Hs & Hv). unfold AddNumber. rewrite Hp.
  destruct (decide (Number.SMSWebhookURL n ≠ "")) as [Hs'|Hs'];
    [rewrite (Hs Hs')|];
    (destruct (decide (Number.VoiceWebhookURL n ≠ "")) as [Hv'|Hv'];
      [rewrite (Hv Hv')|]); reflexivity.
Qed.

Lemma AddNumber_duplicate (n : Number.t) (s : Server) db :
  valid_Number n → numbersDB s = Some db → is_Some (db !! Number.Number n) →
  AddNumber n s = Done (Some (NumberExists (Number.Number n))) s.
Proof.
  intros Hn Hdb [p Hp]. rewrite AddNumber_valid by done.
  unfold_M. rewrite Hdb. simpl. rewrite Hp. simpl.
  by rewrite set_numbersDB_id.
Qed.

Lemma AddNumber_fresh (n : Number.t) (s : Server) db :
  valid_Number n → numbersDB s = Some db → db !! Number.Number n = None →
  AddNumber n s =
    Done None
      (set_numbersDB (Some (<[Number.Number n := length (heap s)]> db))
         (set_heap (heap s ++ [n])%list s)).
Proof.
  intros Hn Hdb Hp. rewrite AddNumber_valid by done.
  unfold_M. rewrite Hdb. simpl. rewrite Hp. simpl.
  destruct s; simpl in *. reflexivity.
Qed.

(** *** The loop of [AddMsgService] *)

Lemma override_Number (u : string) (r : Number.t) :
  Number.Number (override u r) = Number.Number r.
Proof. unfold override. by case_decide. Qed.

Lemma override_VoiceWebhookURL (u : string) (r : Number.t) :
  Number.VoiceWebhookURL (override u r) = Number.VoiceWebhookURL r.
Proof. unfold override. by case_decide. Qed.

Lemma override_SMSWebhookURL (u : string) (r : Number.t) :
  u ≠ "" → Number.SMSWebhookURL (override u r) = u.
Proof. intros Hu. unfold override. by case_decide. Qed.

Lemma override_empty (r : Number.t) : override "" r = r.
Proof. reflexivity. Qed.

Lemma override_idem (u : string) (r : Number.t) :
  override u (override u r) = override u r.
Proof. unfold override. by case_decide. Qed.

Lemma tables_ok_inj (numDB : gmap string loc) (h : list Number.t) k1 k2 p :
  tables_ok numDB h → numDB !! k1 = Some p → numDB !! k2 = Some p → k1 = k2.
Proof.
  intros Hok H1 H2.
  destruct (Hok _ _ H1) as (r1 & Hr1 & <-).
  destruct (Hok _ _ H2) as (r2 & Hr2 & <-).
  congruence.
Qed.

Lemma heap_set_heap (h : list Number.t) (s : Server) :
  heap (set_heap h s) = h.
Proof. reflexivity. Qed.

Lemma set_heap_set_heap (h1 h2 : list Number.t) (s : Server) :
  set_heap h2 (set_heap h1 s) = set_heap h2 s.
Proof. reflexivity. Qed.

Lemma add_member_spec (ms : MsgService.t) (k : string)
    (numDB : gmap string loc) (msDB : gmap string (list loc)) (s : Server) :
  tables_ok numDB (heap s) →
  ∃ p r0 h1 numDB1,
    add_member ms k numDB msDB s =
      Done (numDB1,
            <[MsgService.ID ms :=
                (default [] (msDB !! MsgService.ID ms) ++ [p])%list]> msDB)
           (set_heap h1 s) ∧
    tables_ok numDB1 h1 ∧
    length (heap s) ≤ length h1 ∧
    numDB1 !! k = Some p ∧
    h1 !! p = Some (override (MsgService.SMSWebhookURL ms) r0) ∧
    match numDB !! k with
    | Some p0 => p = p0 ∧ heap s !! p0 = Some r0
    | None => r0 = bare k
    end ∧
    (∀ k', k' ≠ k → numDB1 !! k' = numDB !! k') ∧
    (∀ k' p', numDB !! k' = Some p' → numDB1 !! k' = Some p') ∧
    (∀ k' p', k' ≠ k → numDB !! k' = Some p' → h1 !! p' = heap s !! p').
Proof.
  intros Hok. unfold add_member.
  set (u := MsgService.SMSWebhookURL ms).
  destruct (numDB !! k) as [p0|] eqn:Hk.
  - destruct (Hok _ _ Hk) as (r0 & Hr0 & Hnum).
    exists p0, r0, (<[p0 := override u r0]> (heap s)), numDB.
    assert (Hlt : p0 < length (heap s)) by (by eapply lookup_lt_Some).
    split.
    { unfold_M. unfold override. destruct (decide (u = "")) as [Hu|Hu].
      - rewrite list_insert_id by done. by destruct s.
      - rewrite Hr0. reflexivity. }
    split.
    { intros k' p' Hk'. destruct (decide (p' = p0)) as [->|Hne].
      - exists (override u r0). rewrite list_lookup_insert_eq by done.
        split; [done|]. rewrite override_Number, Hnum.
        symmetry. by eapply tables_ok_inj.
      - rewrite list_lookup_insert_ne by done. by apply Hok. }
    split; [by rewrite length_insert|].
    split; [done|].
    split; [by rewrite list_lookup_insert_eq|].
    split; [done|].
    split; [done|].
    split; [done|].
    intros k' p' Hne Hk'. rewrite list_lookup_insert_ne; [done|].
    intros ->. apply Hne. by eapply tables_ok_inj.
  - exists (length (heap s)), (bare k),
      (heap s ++ [override u (bare k)])%list,
      (<[k := length (heap s)]> numDB).
    split.
    { unfold_M. unfold override. destruct (decide (u = "")) as [Hu|Hu].
      - reflexivity.
      - rewrite !heap_set_heap.
        rewrite lookup_app_r by done. rewrite Nat.sub_diag. simpl.
        unfold set_heap; simpl. do 2 f_equal.
        rewrite insert_app_r_alt by done. by rewrite Nat.sub_diag. }
    split.
    { intros k' p'. rewrite lookup_insert. case_decide as Hkk'.
      - intros [= <-]. subst k'. exists (override u (bare k)).
        rewrite lookup_app_r by done. rewrite Nat.sub_diag.
        split; [done|]. by rewrite override_Number.
      - intros Hk'. destruct (Hok _ _ Hk') as (r & Hr & Hn).
        exists r. split; [|done]. rewrite lookup_app_l; [done|].
        by eapply lookup_lt_Some. }
    split; [rewrite length_app; lia|].
    split; [by rewrite lookup_insert_eq|].
    split; [rewrite lookup_app_r by done; by rewrite Nat.sub_diag|].
    split; [done|].
    split; [intros k' Hne; by rewrite lookup_insert_ne|].
    split.
    { intros k' p' Hk'. rewrite lookup_insert_ne; [done|]. congruence. }
    intros k' p' Hne Hk'. destruct (Hok _ _ Hk') as (r & Hr & Hn).
    rewrite lookup_app_l; [done|]. by eapply lookup_lt_Some.
Qed.

Lemma add_members_spec (ms : MsgService.t) (nums : list string) :
  ∀ (numDB : gmap string loc) (msDB : gmap string (list loc)) (s : Server),
  tables_ok numDB (heap s) →
  ∃ numDB' msDB' h' ps,
    add_members ms nums numDB msDB s = Done (numDB', msDB') (set_heap h' s) ∧
    tables_ok numDB' h' ∧
    length (heap s) ≤ length h' ∧
    (∀ k, k ∉ nums → numDB' !! k = numDB !! k) ∧
    (∀ k p, numDB !! k = Some p → numDB' !! k = Some p) ∧
    (∀ k p, k ∉ nums → numDB !! k = Some p → h' !! p = heap s !! p) ∧
    (∀ k, k ∈ nums →
       ∃ p r0, numDB' !! k = Some p ∧
         h' !! p = Some (override (MsgService.SMSWebhookURL ms) r0) ∧
         match numDB !! k with
         | Some p0 => p = p0 ∧ heap s !! p0 = Some r0
         | None => r0 = bare k
         end) ∧
    Forall2 (λ k p, numDB' !! k = Some p) nums ps ∧
    msDB' =
      if decide (nums = []) then msDB
      else <[MsgService.ID ms :=
               (default [] (msDB !! MsgService.ID ms) ++ ps)%list]> msDB.
Proof.
  set (u := MsgService.SMSWebhookURL ms).
  induction nums as [|k0 rest IH]; intros numDB msDB s Hok.
  - exists numDB, msDB, (heap s), []. simpl.
    split; [by destruct s|].
    repeat split; try done.
    intros k Hk. by apply not_elem_of_nil in Hk.
  - destruct (add_member_spec ms k0 numDB msDB s Hok)
      as (p0 & r0 & h1 & numDB1 & Hrun & Hok1 & Hlen1 & Hk0 & Hp0 & Hold
          & Hne1 & Hmono1 & Hfr1).
    fold u in Hp0.
    destruct (IH numDB1
                (<[MsgService.ID ms :=
                     (default [] (msDB !! MsgService.ID ms) ++ [p0])%list]> msDB)
                (set_heap h1 s) Hok1)
      as (numDB' & msDB' & h' & ps & Hrun' & Hok' & Hlen' & Hne' & Hmono'
          & Hfr' & Hin' & Hps & HmsDB).
    fold u in Hin'. rewrite heap_set_heap in *.
    exists numDB', msDB', h', (p0 :: ps).
    split.
    { simpl. unfold mbind, M_bind at 1. rewrite Hrun. simpl.
      rewrite Hrun'. by rewrite set_heap_set_heap. }
    split; [done|].
    split; [lia|].
    split.
    { intros k Hk. apply not_elem_of_cons in Hk as [Hk1 Hk2].
      rewrite Hne' by done. by apply Hne1. }
    split; [eauto|].
    split.
    { intros k p Hk Hkp. apply not_elem_of_cons in Hk as [Hk1 Hk2].
      rewrite (Hfr' k p) by eauto. by eapply Hfr1. }
    split.
    { intros k Hk. destruct (decide (k ∈ rest)) as [Hr|Hr].
      - destruct (Hin' k Hr) as (p & r1 & Hkp & Hhp & Hm).
        destruct (decide (k = k0)) as [->|Hkk0].
        + rewrite Hk0 in Hm. destruct Hm as [-> Hr1].
          rewrite Hp0 in Hr1. injection Hr1 as <-.
          exists p0, r0. rewrite override_idem in Hhp. done.
        + exists p, r1. split; [done|]. split; [done|].
          rewrite (Hne1 k Hkk0) in Hm.
          destruct (numDB !! k) as [p1|] eqn:Hk1; [|done].
          destruct Hm as [-> Hr1]. split; [done|].
          by rewrite <- (Hfr1 k p1).
      - apply elem_of_cons in Hk as [->|Hk]; [|done].
        exists p0, r0. rewrite (Hne' k0 Hr).
        split; [done|]. split; [|done].
        by rewrite (Hfr' k0 p0 Hr Hk0). }
    split.
    { constructor; [by apply Hmono'|done]. }
    rewrite decide_False by done.
    rewrite HmsDB. case_decide as Hrest.
    + subst rest. by apply Forall2_nil_inv_l in Hps as ->.
    + rewrite lookup_insert_eq. simpl. rewrite insert_insert_eq.
      by rewrite <- app_assoc.
Qed.

(** *** [AddMsgService] *)

Lemma validateURL_kind (u : string) (e : err) :
  validateURL u = Some e → kind e = ValidationError.
Proof.
  unfold validateURL. destruct (url_Parse u); [case_decide|]; by intros [= <-].
Qed.

Lemma parse_members_None (nums : list string) :
  parse_members nums = None ↔ Forall (λ nStr, libphonenumber_Parse nStr = None) nums.
Proof.
  induction nums as [|k rest IH]; simpl; [done|].
  rewrite Forall_cons. destruct (libphonenumber_Parse k) as [e|].
  - split; [done|]. by intros [? _].
  - rewrite IH. split; [by split|]. by intros [_ ?].
Qed.

Lemma parse_members_kind (nums : list string) (e : err) :
  parse_members nums = Some e → kind e = ValidationError.
Proof.
  induction nums as [|k rest IH]; simpl; [done|].
  destruct (libphonenumber_Parse k); [by intros [= <-]|done].
Qed.

Lemma AddMsgService_invalid (ms : MsgService.t) (s : Server) :
  ¬ valid_MsgService ms →
  ∃ e, AddMsgService ms s = Done (Some e) s ∧ kind e = ValidationError.
Proof.
  intros Hn. unfold AddMsgService, valid_MsgService in *.
  destruct (String.prefix "MG" (MsgService.ID ms)) eqn:Hp; simpl.
  2:{ eexists; split; [reflexivity|done]. }
  destruct (decide (MsgService.SMSWebhookURL ms ≠ "")) as [Hs|Hs].
  - destruct (validateURL (MsgService.SMSWebhookURL ms)) as [e|] eqn:Hv.
    { exists e; split; [reflexivity|]. by eapply validateURL_kind. }
    destruct (parse_members (MsgService.Numbers ms)) as [e|] eqn:Hm.
    { exists e; split; [reflexivity|]. by eapply parse_members_kind. }
    exfalso. apply Hn. rewrite <- parse_members_None. done.
  - destruct (parse_members (MsgService.Numbers ms)) as [e|] eqn:Hm.
    { exists e; split; [reflexivity|]. by eapply parse_members_kind. }
    exfalso. apply Hn. rewrite <- parse_members_None. done.
Qed.

Lemma AddMsgService_valid (ms : MsgService.t) (s : Server) :
  valid_MsgService ms →
  AddMsgService ms s =
    (msDB ← recv_msgSvcDB;
     match msDB !! MsgService.ID ms with
     | Some _ =>
         _ ← send_msgSvcDB msDB;
         mret (Some (SIDExists (MsgService.ID ms)))
     | None =>
         numDB ← recv_numbersDB;
         '(numDB, msDB) ← add_members ms (MsgService.Numbers ms) numDB msDB;
         _ ← send_numbersDB numDB;
         _ ← send_msgSvcDB msDB;
         mret None
     end) s.
Proof.
  intros (Hp & Hs & Hm). unfold AddMsgService. rewrite Hp. simpl.
  apply parse_members_None in Hm. rewrite Hm.
  destruct (decide (MsgService.SMSWebhookURL ms ≠ "")) as [Hs'|Hs'];
    [rewrite (Hs Hs')|]; reflexivity.
Qed.

Lemma AddMsgService_duplicate (ms : MsgService.t) (s : Server) msDB :
  valid_MsgService ms → msgSvcDB s = Some msDB →
  is_Some (msDB !! MsgService.ID ms) →
  AddMsgService ms s = Done (Some (SIDExists (MsgService.ID ms))) s.
Proof.
  intros Hv Hdb [ps Hps]. rewrite AddMsgService_valid by done.
  unfold_M. rewrite Hdb. simpl. rewrite Hps. simpl.
  by rewrite set_msgSvcDB_id.
Qed.

Lemma AddMsgService_fresh (ms : MsgService.t) (s : Server) numDB msDB :
  valid_MsgService ms →
  numbersDB s = Some numDB → msgSvcDB s = Some msDB →
  tables_ok numDB (heap s) →
  msDB !! MsgService.ID ms = None →
  ∃ numDB' h' ps,
    AddMsgService ms s =
      Done None
        {| cfg := cfg s;
           numbersDB := Some numDB';
           msgSvcDB :=
             Some (if decide (MsgService.Numbers ms = []) then msDB
                   else <[MsgService.ID ms := ps]> msDB);
           heap := h';
           id := id s |} ∧
    tables_ok numDB' h' ∧
    length (heap s) ≤ length h' ∧
    (∀ k, k ∉ MsgService.Numbers ms → numDB' !! k = numDB !! k) ∧
    (∀ k p, numDB !! k = Some p → numDB' !! k = Some p) ∧
    (∀ k p, k ∉ MsgService.Numbers ms → numDB !! k = Some p →
       h' !! p = heap s !! p) ∧
    (∀ k, k ∈ MsgService.Numbers ms →
       ∃ p r0, numDB' !! k = Some p ∧
         h' !! p = Some (override (MsgService.SMSWebhookURL ms) r0) ∧
         match numDB !! k with
         | Some p0 => p = p0 ∧ heap s !! p0 = Some r0
         | None => r0 = bare k
         end) ∧
    Forall2 (λ k p, numDB' !! k = Some p) (MsgService.Numbers ms) ps.
Proof.
  intros Hv Hn Hm Hok Hfresh. rewrite AddMsgService_valid by done.
  destruct (add_members_spec ms (MsgService.Numbers ms) numDB msDB
              (set_numbersDB None (set_msgSvcDB None s)) Hok)
    as (numDB' & msDB' & h' & ps & Hrun & Hok' & Hlen & Hne & Hmono & Hfr
        & Hin & Hps & HmsDB).
  exists numDB', h', ps.
  split.
  { unfold mbind, M_bind at 1. unfold recv_msgSvcDB at 1. rewrite Hm.
    rewrite Hfresh.
    unfold mbind, M_bind at 1. unfold recv_numbersDB at 1. simpl. rewrite Hn.
    unfold mbind, M_bind at 1. rewrite Hrun. unfold_M.
    rewrite HmsDB, Hfresh. simpl. reflexivity. }
  done.
Qed.

(** *** The invariant, and what a call leaves alone *)

Lemma lookupNumber_idle (k : string) (s : Server) numDB :
  numbersDB s = Some numDB →
  lookupNumber k s = numDB !! k ≫= λ p, heap s !! p.
Proof.
  intros Hn. unfold lookupNumber. rewrite (number_idle k s numDB Hn).
  by destruct (numDB !! k).
Qed.

Lemma lookupServiceNumbers_idle (sid : string) (s : Server) msDB :
  msgSvcDB s = Some msDB →
  lookupServiceNumbers sid s = deref s <$> default [] (msDB !! sid).
Proof.
  intros Hm. unfold lookupServiceNumbers.
  by rewrite (numberSvc_idle sid s msDB Hm).
Qed.

Lemma follows_refl (o : op) (s : Server) : store_ok s → follows o s s.
Proof.
  intros Hok. split; [done|].
  split; [intros; congruence|]. split; [intros; congruence|]. done.
Qed.

Lemma AddNumber_follows (n : Number.t) (s : Server) :
  store_ok s →
  ∃ e s', AddNumber n s = Done e s' ∧ follows (OpAddNumber n) s s'.
Proof.
  intros Hok.
  destruct (decide (valid_Number n)) as [Hv|Hv].
  2:{ destruct (AddNumber_invalid n s Hv) as (e & He & _).
      exists (Some e), s. split; [done|]. by apply follows_refl. }
  pose proof Hok as (numDB & msDB & Hn & Hm & Htab & Hsvc).
  destruct (numDB !! Number.Number n) as [p|] eqn:Hk.
  { exists (Some (NumberExists (Number.Number n))), s.
    split; [|by apply follows_refl].
    eapply AddNumber_duplicate; [done..|]. by rewrite Hk. }
  eexists None, _. split; [by apply AddNumber_fresh|].
  assert (Htab' : tables_ok (<[Number.Number n := length (heap s)]> numDB)
                    (heap s ++ [n])%list).
  { intros k p. rewrite lookup_insert. case_decide as Hkk.
    - intros [= <-]. exists n. split; [|done].
      rewrite lookup_app_r by done. by rewrite Nat.sub_diag.
    - intros Hkp. destruct (Htab _ _ Hkp) as (r & Hr & Hnum).
      exists r. split; [|done]. rewrite lookup_app_l; [done|].
      by eapply lookup_lt_Some. }
  split.
  { exists (<[Number.Number n := length (heap s)]> numDB), msDB.
    split; [done|]. split; [done|]. split; [done|].
    intros sid ps p Hps Hp. destruct (Hsvc _ _ _ Hps Hp) as (k & Hkp).
    exists k. rewrite lookup_insert_ne; [done|]. congruence. }
  split.
  { intros numDB0 numDB' k p Hn0 [= <-] Hkp.
    rewrite Hn in Hn0. injection Hn0 as <-.
    rewrite lookup_insert_ne; [done|]. congruence. }
  split.
  { intros msDB0 msDB' sid ps Hm0 Hm' Hps. simpl in Hm'. congruence. }
  intros k r _. rewrite (lookupNumber_idle k s numDB Hn).
  destruct (numDB !! k) as [p|] eqn:Hkp; [|done]. simpl. intros Hr.
  assert (Hne : Number.Number n ≠ k) by congruence.
  erewrite lookupNumber_idle by reflexivity.
  rewrite lookup_insert_ne by done. rewrite Hkp. simpl.
  rewrite lookup_app_l; [done|]. by eapply lookup_lt_Some.
Qed.

Lemma AddMsgService_follows (ms : MsgService.t) (s : Server) :
  store_ok s →
  ∃ e s', AddMsgService ms s = Done e s' ∧ follows (OpAddMsgService ms) s s'.
Proof.
  intros Hok.
  destruct (decide (valid_MsgService ms)) as [Hv|Hv].
  2:{ destruct (AddMsgService_invalid ms s Hv) as (e & He & _).
      exists (Some e), s. split; [done|]. by apply follows_refl. }
  pose proof Hok as (numDB & msDB & Hn & Hm & Htab & Hsvc).
  destruct (msDB !! MsgService.ID ms) as [ps0|] eqn:Hk.
  { exists (Some (SIDExists (MsgService.ID ms))), s.
    split; [|by apply follows_refl].
    eapply AddMsgService_duplicate; [done..|]. by rewrite Hk. }
  destruct (AddMsgService_fresh ms s numDB msDB Hv Hn Hm Htab Hk)
    as (numDB' & h' & ps & Hrun & Htab' & Hlen & Hne & Hmono & Hfr & Hin & Hps).
  eexists None, _. split; [exact Hrun|].
  split.
  { eexists numDB', _. split; [done|]. split; [done|]. split; [done|].
    intros sid qs p Hqs Hp. case_decide as Hnil.
    - destruct (Hsvc _ _ _ Hqs Hp) as (k & Hkp). eauto.
    - apply lookup_insert_Some in Hqs as [[<- <-]|[Hsid Hqs]].
      + apply list_elem_of_lookup in Hp as [i Hi].
        destruct (Forall2_lookup_r _ _ _ _ _ Hps Hi) as (k & _ & Hkp). eauto.
      + destruct (Hsvc _ _ _ Hqs Hp) as (k & Hkp). eauto. }
  split.
  { intros numDB0 numDB1 k p Hn0 [= <-] Hkp.
    rewrite Hn in Hn0. injection Hn0 as <-. eauto. }
  split.
  { intros msDB0 msDB1 sid qs Hm0 [= <-] Hqs.
    rewrite Hm in Hm0. injection Hm0 as <-. case_decide; [done|].
    rewrite lookup_insert_ne; [done|]. congruence. }
  intros k r Hnov. rewrite (lookupNumber_idle k s numDB Hn).
  erewrite lookupNumber_idle by reflexivity. simpl.
  destruct (numDB !! k) as [p|] eqn:Hkp; [|done]. simpl. intros Hr.
  destruct (decide (k ∈ MsgService.Numbers ms)) as [Hmem|Hmem].
  - destruct (Hin k Hmem) as (p' & r0 & Hkp' & Hr' & Hold).
    rewrite Hkp in Hold. destruct Hold as [-> Hr0].
    rewrite Hkp'. simpl. rewrite Hr'.
    assert (Hu : MsgService.SMSWebhookURL ms = "").
    { destruct (decide (MsgService.SMSWebhookURL ms = "")); [done|].
      exfalso. apply Hnov. done. }
    rewrite Hu, override_empty. congruence.
  - rewrite (Hne k Hmem), Hkp. simpl. by rewrite (Hfr k p Hmem Hkp).
Qed.

Lemma exec_follows (o : op) (s : Server) :
  store_ok s → ∃ s', exec o s = Done () s' ∧ follows o s s'.
Proof.
  intros Hok. destruct o as [n|ms|k|sid|prefix]; simpl.
  - destruct (AddNumber_follows n s Hok) as (e & s' & Hrun & Hf).
    exists s'. split; [|done]. unfold mbind, M_bind. by rewrite Hrun.
  - destruct (AddMsgService_follows ms s Hok) as (e & s' & Hrun & Hf).
    exists s'. split; [|done]. unfold mbind, M_bind. by rewrite Hrun.
  - destruct Hok as (numDB & msDB & Hn & Hm & Hrest).
    exists s. split.
    + unfold mbind, M_bind. by rewrite (number_idle k s numDB Hn).
    + apply follows_refl. by exists numDB, msDB.
  - destruct Hok as (numDB & msDB & Hn & Hm & Hrest).
    exists s. split.
    + unfold mbind, M_bind. by rewrite (numberSvc_idle sid s msDB Hm).
    + apply follows_refl. by exists numDB, msDB.
  - destruct Hok as (numDB & msDB & Hn & Hm & Hrest).
    eexists. split; [reflexivity|].
    split; [by exists numDB, msDB|].
    split; [simpl; intros; congruence|]. split; [simpl; intros; congruence|].
    intros k r _. rewrite (lookupNumber_idle k s numDB Hn).
    by erewrite lookupNumber_idle by exact Hn.
Qed.

(** A sequence of calls never blocks and never follows a wild pointer;
    it keeps the invariant, the pointers of the numbers and the members
    of the services, and the record of [k] when no call overrides [k]. *)
Lemma run_follows (ops : list op) :
  ∀ s, store_ok s →
  ∃ s', run ops s = Done () s' ∧ store_ok s' ∧
    (∀ numDB numDB' k p,
       numbersDB s = Some numDB → numbersDB s' = Some numDB' →
       numDB !! k = Some p → numDB' !! k = Some p) ∧
    (∀ msDB msDB' sid ps,
       msgSvcDB s = Some msDB → msgSvcDB s' = Some msDB' →
       msDB !! sid = Some ps → msDB' !! sid = Some ps) ∧
    (∀ k r, Forall (λ o, ¬ overrides k o) ops →
       lookupNumber k s = Some r → lookupNumber k s' = Some r).
Proof.
  induction ops as [|o rest IH]; intros s Hok.
  - exists s. split; [done|]. split; [done|].
    split; [intros; congruence|]. split; [intros; congruence|]. done.
  - destruct (exec_follows o s Hok) as (s1 & Hrun1 & Hok1 & Hn1 & Hm1 & Hfr1).
    destruct (IH s1 Hok1) as (s' & Hrun' & Hok' & Hn' & Hm' & Hfr').
    exists s'. split.
    { simpl. unfold mbind, M_bind. by rewrite Hrun1. }
    split; [done|].
    pose proof Hok1 as (numDB1 & msDB1 & HnDB1 & HmDB1 & _).
    split; [intros; eauto|]. split; [intros; eauto|].
    intros k r Hall Hr. apply Forall_cons in Hall as [Ho Hall]. eauto.
Qed.

Lemma NewServer_ok (c : Config) (s : Server) :
  NewServer c = Some s → store_ok s.
Proof.
  unfold NewServer. case_decide; [done|]. intros [= <-].
  exists ∅, ∅. split; [done|]. split; [done|]. split.
  - intros k p Hk. by rewrite lookup_empty in Hk.
  - intros sid ps p Hps. by rewrite lookup_empty in Hps.
Qed.

Lemma reachable_ok (s : Server) : reachable s → store_ok s.
Proof.
  intros (c & s0 & ops & Hnew & Hrun).
  destruct (run_follows ops s0 (NewServer_ok c s0 Hnew)) as (s' & Hrun' & Hok & _).
  congruence.
Qed.

Lemma reachable_run (ops : list op) (s s' : Server) :
  reachable s → run ops s = Done () s' → reachable s'.
Proof.
  intros (c & s0 & ops0 & Hnew & Hrun0) Hrun.
  exists c, s0, (ops0 ++ ops)%list. split; [done|].
  clear Hnew. revert s0 Hrun0.
  induction ops0 as [|o rest IH]; intros s0; simpl.
  - by intros [= ->].
  - unfold mbind, M_bind. destruct (exec o s0) as [[] s1| |]; [|done..].
    apply IH.
Qed.

(** *** What a successful registration has done *)

Lemma AddNumber_ok_inv (n : Number.t) (s s' : Server) numDB :
  numbersDB s = Some numDB →
  AddNumber n s = Done None s' →
  valid_Number n ∧ numDB !! Number.Number n = None ∧
  s' = set_numbersDB (Some (<[Number.Number n := length (heap s)]> numDB))
         (set_heap (heap s ++ [n])%list s).
Proof.
  intros Hn Hrun.
  destruct (decide (valid_Number n)) as [Hv|Hv].
  2:{ destruct (AddNumber_invalid n s Hv) as (e & He & _). congruence. }
  destruct (numDB !! Number.Number n) as [p|] eqn:Hk.
  { rewrite (AddNumber_duplicate n s numDB) in Hrun; [done..|]. by rewrite Hk. }
  rewrite (AddNumber_fresh n s numDB) in Hrun by done.
  injection Hrun as <-. done.
Qed.

Lemma AddMsgService_ok_inv (ms : MsgService.t) (s s' : Server) numDB msDB :
  numbersDB s = Some numDB → msgSvcDB s = Some msDB →
  tables_ok numDB (heap s) →
  AddMsgService ms s = Done None s' →
  valid_MsgService ms ∧ msDB !! MsgService.ID ms = None ∧
  ∃ numDB' ps,
    numbersDB s' = Some numDB' ∧
    msgSvcDB s' =
      Some (if decide (MsgService.Numbers ms = []) then msDB
            else <[MsgService.ID ms := ps]> msDB) ∧
    tables_ok numDB' (heap s') ∧
    (∀ k, k ∉ MsgService.Numbers ms → numDB' !! k = numDB !! k) ∧
    (∀ k p, numDB !! k = Some p → numDB' !! k = Some p) ∧
    (∀ k p, k ∉ MsgService.Numbers ms → numDB !! k = Some p →
       heap s' !! p = heap s !! p) ∧
    (∀ k, k ∈ MsgService.Numbers ms →
       ∃ p r0, numDB' !! k = Some p ∧
         heap s' !! p = Some (override (MsgService.SMSWebhookURL ms) r0) ∧
         match numDB !! k with
         | Some p0 => p = p0 ∧ heap s !! p0 = Some r0
         | None => r0 = bare k
         end) ∧
    Forall2 (λ k p, numDB' !! k = Some p) (MsgService.Numbers ms) ps.
Proof.
  intros Hn Hm Htab Hrun.
  destruct (decide (valid_MsgService ms)) as [Hv|Hv].
  2:{ destruct (AddMsgService_invalid ms s Hv) as (e & He & _). congruence. }
  destruct (msDB !! MsgService.ID ms) as [ps0|] eqn:Hk.
  { rewrite (AddMsgService_duplicate ms s msDB) in Hrun; [done..|].
    by rewrite Hk. }
  destruct (AddMsgService_fresh ms s numDB msDB Hv Hn Hm Htab Hk)
    as (numDB' & h' & ps & Hrun' & Htab' & Hlen & Hne & Hmono & Hfr & Hin & Hps).
  rewrite Hrun' in Hrun. injection Hrun as <-.
  split; [done|]. split; [done|]. by exists numDB', ps.
Qed.

Lemma lookupNumber_Some (k : string) (s : Server) (r : Number.t) :
  store_ok s →
  lookupNumber k s = Some r ↔
  ∃ p, number k s = Done (Some p) s ∧ deref s p = Some r.
Proof.
  intros (numDB & msDB & Hn & _). unfold lookupNumber.
  rewrite (number_idle k s numDB Hn). split.
  - destruct (numDB !! k) as [p|]; [|done]. eauto.
  - intros (p & [= ->] & Hr). done.
Qed.

Lemma lookupNumber_None (k : string) (s : Server) numDB :
  numbersDB s = Some numDB → tables_ok numDB (heap s) →
  lookupNumber k s = None ↔ numDB !! k = None.
Proof.
  intros Hn Htab. rewrite (lookupNumber_idle k s numDB Hn). split.
  - destruct (numDB !! k) as [p|] eqn:Hk; [|done]. simpl.
    destruct (Htab _ _ Hk) as (r & -> & _). done.
  - by intros ->.
Qed.

Lemma not_targets_not_overrides (k : string) (o : op) :
  ¬ targets k o → ¬ overrides k o.
Proof. destruct o; simpl; tauto. Qed.

(** *** The registration contract *)

(** C1: a number that [AddNumber] accepted is found again by [number],
    and the record behind the pointer is the registered input, after any
    sequence of calls none of which names that identity. *)
Theorem number_after_AddNumber (n : Number.t) (s s1 s2 : Server) (ops : list op) :
  reachable s →
  AddNumber n s = Done None s1 →
  Forall (λ o, ¬ targets (Number.Number n) o) ops →
  run ops s1 = Done () s2 →
  ∃ p, number (Number.Number n) s2 = Done (Some p) s2 ∧ deref s2 p = Some n.
Proof.
  intros Hreach Hadd Hops Hrun.
  pose proof (reachable_ok s Hreach) as Hok.
  pose proof Hok as (numDB & msDB & Hn & Hm & Htab & Hsvc).
  destruct (AddNumber_follows n s Hok) as (e & s1' & Hadd' & Hok1 & _).
  rewrite Hadd in Hadd'. injection Hadd' as <- <-.
  destruct (AddNumber_ok_inv n s s1 numDB Hn Hadd) as (Hv & Hfresh & ->).
  destruct (run_follows ops _ Hok1) as (s2' & Hrun' & Hok2 & _ & _ & Hfr).
  rewrite Hrun in Hrun'. injection Hrun' as <-.
  apply lookupNumber_Some; [done|]. apply Hfr.
  - eapply Forall_impl; [exact Hops|]. intros o. apply not_targets_not_overrides.
  - erewrite lookupNumber_idle by reflexivity. simpl.
    rewrite lookup_insert_eq. simpl.
    rewrite lookup_app_r by done. by rewrite Nat.sub_diag.
Qed.

(** C2, as the code has it: registering again an identity that is in the
    number table, or a service ID that is in the service table, returns an
    error and leaves the whole server state as it was; the error is the
    duplicate error when the input passes the checks made before the
    store is read, and a validation error when it does not. *)
Theorem reregistration_rejected (n : Number.t) (ms : MsgService.t) (s : Server)
    (numDB : gmap string loc) (msDB : gmap string (list loc)) :
  numbersDB s = Some numDB → msgSvcDB s = Some msDB →
  (is_Some (numDB !! Number.Number n) →
     ∃ e, AddNumber n s = Done (Some e) s ∧
       (valid_Number n → e = NumberExists (Number.Number n)) ∧
       (¬ valid_Number n → kind e = ValidationError)) ∧
  (is_Some (msDB !! MsgService.ID ms) →
     ∃ e, AddMsgService ms s = Done (Some e) s ∧
       (valid_MsgService ms → e = SIDExists (MsgService.ID ms)) ∧
       (¬ valid_MsgService ms → kind e = ValidationError)).
Proof.
  intros Hn Hm. split.
  - intros Hk. destruct (decide (valid_Number n)) as [Hv|Hv].
    + exists (NumberExists (Number.Number n)).
      split; [by eapply AddNumber_duplicate|]. done.
    + destruct (AddNumber_invalid n s Hv) as (e & He & Hkind).
      exists e. done.
  - intros Hk. destruct (decide (valid_MsgService ms)) as [Hv|Hv].
    + exists (SIDExists (MsgService.ID ms)).
      split; [by eapply AddMsgService_duplicate|]. done.
    + destruct (AddMsgService_invalid ms s Hv) as (e & He & Hkind).
      exists e. done.
Qed.

Lemma schemeless_validateURL (u : string) :
  lacks_scheme u → ∃ e, validateURL u = Some e.
Proof.
  intros (x & Hx & Hs). unfold validateURL. rewrite Hx, Hs.
  rewrite decide_True by done. eauto.
Qed.

(** C3: a malformed phone number, a non-empty webhook URL without a
    scheme, or a service ID without the prefix MG makes [AddNumber] and
    [AddMsgService] return a validation error, and the server state is
    the one before the call: in any state at all, the channels included. *)
Theorem validation_rejects (n : Number.t) (ms : MsgService.t) (s : Server) :
  (malformed (Number.Number n) ∨
   schemeless (Number.SMSWebhookURL n) ∨
   schemeless (Number.VoiceWebhookURL n) →
     ∃ e, AddNumber n s = Done (Some e) s ∧ kind e = ValidationError) ∧
  (String.prefix "MG" (MsgService.ID ms) = false ∨
   schemeless (MsgService.SMSWebhookURL ms) ∨
   Exists malformed (MsgService.Numbers ms) →
     ∃ e, AddMsgService ms s = Done (Some e) s ∧ kind e = ValidationError).
Proof.
  split.
  - intros Hbad. apply AddNumber_invalid. intros (Hp & Hs & Hw).
    destruct Hbad as [[e He]|[[Hne Hl]|[Hne Hl]]].
    + congruence.
    + destruct (schemeless_validateURL _ Hl) as (e & He).
      rewrite (Hs Hne) in He. done.
    + destruct (schemeless_validateURL _ Hl) as (e & He).
      rewrite (Hw Hne) in He. done.
  - intros Hbad. apply AddMsgService_invalid. intros (Hp & Hs & Hmem).
    destruct Hbad as [Hpre|[[Hne Hl]|Hex]].
    + congruence.
    + destruct (schemeless_validateURL _ Hl) as (e & He).
      rewrite (Hs Hne) in He. done.
    + apply Exists_exists in Hex as (k & Hk & [e He]).
      rewrite Forall_forall in Hmem. specialize (Hmem k Hk). congruence.
Qed.

(** *** Services and their members *)

Lemma override_bare (u k : string) : override u (bare k) = Number.mk k "" u.
Proof. unfold override, bare. case_decide; [by subst|done]. Qed.

(** C5, as the code has it: after a successful [AddMsgService], the
    service's member list is the list of the pointers the number table
    holds for the members, in order; every member is in the number table;
    and a member that was not there before has a record with its number, no
    voice webhook, and the service's SMS webhook URL as its SMS webhook:
    a bare record exactly when the service has no override. *)
Theorem members_after_AddMsgService (ms : MsgService.t) (s s' : Server) :
  reachable s →
  AddMsgService ms s = Done None s' →
  (∃ ps, numberSvc (MsgService.ID ms) s' = Done ps s' ∧
     Forall2 (λ k p, number k s' = Done (Some p) s') (MsgService.Numbers ms) ps) ∧
  ∀ k, k ∈ MsgService.Numbers ms →
    is_Some (lookupNumber k s') ∧
    (lookupNumber k s = None →
     lookupNumber k s' = Some (Number.mk k "" (MsgService.SMSWebhookURL ms)) ∧
     (MsgService.SMSWebhookURL ms = "" → lookupNumber k s' = Some (bare k))).
Proof.
  intros Hreach Hadd.
  pose proof (reachable_ok s Hreach) as (numDB & msDB & Hn & Hm & Htab & Hsvc).
  destruct (AddMsgService_ok_inv ms s s' numDB msDB Hn Hm Htab Hadd)
    as (Hv & Hfresh & numDB' & ps & Hn' & Hm' & Htab' & Hne & Hmono & Hfr
        & Hin & Hps).
  split.
  - exists ps. rewrite (numberSvc_idle _ s' _ Hm'). split.
    + f_equal. case_decide as Hnil.
      * rewrite Hfresh. rewrite Hnil in Hps.
        by apply Forall2_nil_inv_l in Hps as ->.
      * by rewrite lookup_insert_eq.
    + eapply Forall2_impl; [exact Hps|]. intros k p Hkp. simpl in Hkp.
      rewrite (number_idle k s' numDB' Hn'). by rewrite Hkp.
  - intros k Hk. destruct (Hin k Hk) as (p & r0 & Hkp & Hr & Hold).
    rewrite (lookupNumber_idle k s' numDB' Hn'), Hkp. simpl. rewrite Hr.
    split; [eauto|]. intros Hnone.
    apply (lookupNumber_None k s numDB Hn Htab) in Hnone.
    rewrite Hnone in Hold. subst r0. rewrite override_bare.
    split; [done|]. by intros ->.
Qed.

(** C10: a successful [AddMsgService] with a non-empty [SMSWebhookURL]
    writes that URL into the record of every member in the number store:
    [number] then leads to a record whose SMS webhook is the service's,
    which for a member registered before is its old record with only
    that field replaced, hence another record whenever the old URL was a
    different one. *)
Theorem AddMsgService_overwrites (ms : MsgService.t) (s s' : Server) (k : string) :
  reachable s →
  AddMsgService ms s = Done None s' →
  MsgService.SMSWebhookURL ms ≠ "" →
  k ∈ MsgService.Numbers ms →
  ∃ p r',
    number k s' = Done (Some p) s' ∧ deref s' p = Some r' ∧
    Number.SMSWebhookURL r' = MsgService.SMSWebhookURL ms ∧
    ∀ r, lookupNumber k s = Some r →
      number k s = Done (Some p) s ∧
      r' = Number.with_SMSWebhookURL (MsgService.SMSWebhookURL ms) r ∧
      (Number.SMSWebhookURL r ≠ MsgService.SMSWebhookURL ms → r' ≠ r).
Proof.
  intros Hreach Hadd Hu Hk.
  pose proof (reachable_ok s Hreach) as (numDB & msDB & Hn & Hm & Htab & Hsvc).
  destruct (AddMsgService_ok_inv ms s s' numDB msDB Hn Hm Htab Hadd)
    as (Hv & Hfresh & numDB' & ps & Hn' & Hm' & Htab' & Hne & Hmono & Hfr
        & Hin & Hps).
  destruct (Hin k Hk) as (p & r0 & Hkp & Hr & Hold).
  exists p, (override (MsgService.SMSWebhookURL ms) r0).
  split; [by rewrite (number_idle k s' numDB' Hn'), Hkp|].
  split; [done|].
  split; [by apply override_SMSWebhookURL|].
  intros r. rewrite (lookupNumber_idle k s numDB Hn).
  rewrite (number_idle k s numDB Hn).
  destruct (numDB !! k) as [p0|] eqn:Hk0; [|done]. simpl. intros Hr0.
  destruct Hold as [-> Hr0']. rewrite Hr0 in Hr0'. injection Hr0' as <-.
  split; [done|]. unfold override. rewrite decide_False by done.
  split; [done|]. intros Hdiff Heq. apply Hdiff. rewrite <- Heq at 1. done.
Qed.

(** C4, as the code has it: after a successful [AddMsgService], and
    after any later calls none of which registers a service with an
    override that lists a member of this one, the pointer [numberSvc]
    returns for each member is the pointer [number] returns for it, so the
    URL a send through the service reads is the one in the member's own
    record; that URL is the service's [SMSWebhookURL] when it is not
    empty, and with an empty one the record is the one the member had
    before the registration, or the bare record of a new member. *)
Theorem service_webhook_resolution (ms : MsgService.t) (s s1 s2 : Server)
    (ops : list op) (i : nat) (k : string) :
  reachable s →
  AddMsgService ms s = Done None s1 →
  Forall (λ o, ∀ k', k' ∈ MsgService.Numbers ms → ¬ overrides k' o) ops →
  run ops s1 = Done () s2 →
  MsgService.Numbers ms !! i = Some k →
  ∃ ps p r,
    numberSvc (MsgService.ID ms) s2 = Done ps s2 ∧ ps !! i = Some p ∧
    number k s2 = Done (Some p) s2 ∧ deref s2 p = Some r ∧
    (MsgService.SMSWebhookURL ms ≠ "" →
       Number.SMSWebhookURL r = MsgService.SMSWebhookURL ms) ∧
    (MsgService.SMSWebhookURL ms = "" →
       match lookupNumber k s with
       | Some r0 => r = r0
       | None => r = bare k
       end).
Proof.
  intros Hreach Hadd Hops Hrun Hi.
  pose proof (reachable_ok s Hreach) as Hok.
  pose proof Hok as (numDB & msDB & Hn & Hm & Htab & Hsvc).
  destruct (AddMsgService_follows ms s Hok) as (e & s1' & Hadd' & Hok1 & _).
  rewrite Hadd in Hadd'. injection Hadd' as <- <-.
  destruct (AddMsgService_ok_inv ms s s1 numDB msDB Hn Hm Htab Hadd)
    as (Hv & Hfresh & numDB1 & ps & Hn1 & Hm1 & Htab1 & Hne & Hmono & Hfr
        & Hin & Hps).
  destruct (run_follows ops s1 Hok1) as (s2' & Hrun' & Hok2 & Hnum & Hsv & Hfr2).
  rewrite Hrun in Hrun'. injection Hrun' as <-.
  pose proof Hok2 as (numDB2 & msDB2 & Hn2 & Hm2 & Htab2 & Hsvc2).
  assert (Hk : k ∈ MsgService.Numbers ms) by (by eapply list_elem_of_lookup_2).
  destruct (Forall2_lookup_l _ _ _ _ _ Hps Hi) as (p & Hpi & Hkp). simpl in Hkp.
  destruct (Hin k Hk) as (p' & r0 & Hkp' & Hr & Hold).
  rewrite Hkp in Hkp'. injection Hkp' as <-.
  assert (Hlk1 : lookupNumber k s1 =
                 Some (override (MsgService.SMSWebhookURL ms) r0)).
  { rewrite (lookupNumber_idle k s1 numDB1 Hn1), Hkp. done. }
  assert (Hlk2 : lookupNumber k s2 =
                 Some (override (MsgService.SMSWebhookURL ms) r0)).
  { apply Hfr2; [|done]. eapply Forall_impl; [exact Hops|].
    intros o Ho. by apply Ho. }
  rewrite (lookupNumber_idle k s2 numDB2 Hn2) in Hlk2.
  rewrite (Hnum numDB1 numDB2 k p Hn1 Hn2 Hkp) in Hlk2. simpl in Hlk2.
  exists ps, p, (override (MsgService.SMSWebhookURL ms) r0).
  split.
  { rewrite (numberSvc_idle _ s2 msDB2 Hm2). f_equal.
    assert (Hnn : MsgService.Numbers ms ≠ []) by (intros Heq; by rewrite Heq in Hi).
    rewrite decide_False in Hm1 by done.
    erewrite (Hsv _ msDB2 (MsgService.ID ms) ps Hm1 Hm2); [done|].
    by rewrite lookup_insert_eq. }
  split; [done|].
  split.
  { rewrite (number_idle k s2 numDB2 Hn2).
    by rewrite (Hnum numDB1 numDB2 k p Hn1 Hn2 Hkp). }
  split; [done|].
  split; [by apply override_SMSWebhookURL|].
  intros Hu. rewrite Hu, override_empty.
  rewrite (lookupNumber_idle k s numDB Hn).
  destruct (numDB !! k) as [p0|] eqn:Hk0; simpl.
  - destruct Hold as [-> ->]. done.
  - done.
Qed.

End StoreFacts.

(** ** The contract on a concrete server *)

Example NewServer_demo : NewServer demo_Config = Some demo_Server.
Proof. reflexivity. Qed.

Lemma demo_Server_reachable : reachable (H := demo) demo_Server.
Proof. exists demo_Config, demo_Server, []. split; reflexivity. Qed.

Lemma after_num1_reachable : reachable (H := demo) after_num1.
Proof.
  apply (reachable_run (H := demo) [OpAddNumber num1] demo_Server).
  - exact demo_Server_reachable.
  - vm_compute; reflexivity.
Qed.

Lemma valid_num1 : valid_Number (H := demo) num1.
Proof.
  split; [reflexivity|]. split; [intros _; reflexivity|].
  intros Hne. by destruct Hne.
Qed.

Lemma valid_svc1 : valid_MsgService (H := demo) svc1.
Proof.
  split; [reflexivity|]. split; [intros _; reflexivity|].
  repeat constructor.
Qed.

Lemma number_after_AddNumber_witness :
  AddNumber (H := demo) num1 demo_Server = Done None after_num1 ∧
  run (H := demo) [OpAddNumber num2; OpAddMsgService svc3; OpNumber "+15550001234"]
    after_num1 = Done () after_num1_num2_svc3 ∧
  ∃ p, number "+15550001234" after_num1_num2_svc3
         = Done (Some p) after_num1_num2_svc3 ∧
       deref after_num1_num2_svc3 p = Some num1.
Proof.
  split; [vm_compute; reflexivity|].
  split; [vm_compute; reflexivity|].
  apply (number_after_AddNumber (H := demo) num1 demo_Server after_num1 _
           [OpAddNumber num2; OpAddMsgService svc3; OpNumber "+15550001234"]).
  - exact demo_Server_reachable.
  - vm_compute; reflexivity.
  - rewrite !Forall_cons, Forall_nil. simpl.
    rewrite !elem_of_cons, elem_of_nil.
    repeat split; [discriminate| |tauto]. intros [|[|]]; done.
  - vm_compute; reflexivity.
Defined.

(** C2 fails as stated: [num1] is registered, and registering its identity
    again with a webhook URL that has no scheme returns the error of
    [validateURL], not the duplicate error. *)
Lemma reregistration_counterexample :
  AddNumber (H := demo) num1 demo_Server = Done None after_num1 ∧
  lookupNumber "+15550001234" after_num1 = Some num1 ∧
  AddNumber (H := demo) (Number.mk "+15550001234" "" "nohook") after_num1
    = Done (Some (MissingScheme "nohook")) after_num1 ∧
  kind (MissingScheme "nohook") ≠ DuplicateError.
Proof.
  split; [vm_compute; reflexivity|].
  split; [vm_compute; reflexivity|].
  split; [vm_compute; reflexivity|]. discriminate.
Qed.

(** A service registered without members leaves no entry in the service
    table, so registering its ID again is accepted. *)
Example AddMsgService_no_members_twice :
  AddMsgService (H := demo) (MsgService.mk "MG0009" [] "") demo_Server
    = Done None demo_Server ∧
  AddMsgService (H := demo) (MsgService.mk "MG0009" ["+15550001234"] "") demo_Server
    = Done None
        (demo_state [("+15550001234", 0)] [("MG0009", [0])] [bare "+15550001234"]).
Proof.
  split; vm_compute; reflexivity.
Qed.

Lemma reregistration_rejected_witness :
  run (H := demo) [OpAddNumber num1; OpAddMsgService svc1] demo_Server
    = Done () after_svc1 ∧
  AddNumber (H := demo) num1 after_svc1
    = Done (Some (NumberExists "+15550001234")) after_svc1 ∧
  AddMsgService (H := demo) svc1 after_svc1
    = Done (Some (SIDExists "MG0001")) after_svc1.
Proof.
  split; [vm_compute; reflexivity|].
  destruct (reregistration_rejected (H := demo) num1 svc1 after_svc1 _ _
              eq_refl eq_refl) as [HA HB].
  split.
  - destruct HA as (e & He & Hv & _); [eexists; vm_compute; reflexivity|].
    rewrite (Hv valid_num1) in He. exact He.
  - destruct HB as (e & He & Hv & _); [eexists; vm_compute; reflexivity|].
    rewrite (Hv valid_svc1) in He. exact He.
Defined.

Lemma validation_rejects_witness :
  (∃ e, AddNumber (H := demo) (Number.mk "+15550001234" "nohook" "") demo_Server
          = Done (Some e) demo_Server ∧ kind e = ValidationError) ∧
  (∃ e, AddMsgService (H := demo) (MsgService.mk "XX0001" ["+15550001234"] "") demo_Server
          = Done (Some e) demo_Server ∧ kind e = ValidationError).
Proof.
  destruct (validation_rejects (H := demo)
              (Number.mk "+15550001234" "nohook" "")
              (MsgService.mk "XX0001" ["+15550001234"] "") demo_Server)
    as [HA HB].
  split.
  - apply HA. right. right. split; [done|]. eexists. split; reflexivity.
  - apply HB. left. reflexivity.
Defined.

(** C5 fails as stated: a member created by a service that has an override
    is not a bare record after the call. *)
Lemma members_counterexample :
  AddMsgService (H := demo) svc1 demo_Server = Done None after_svc1 ∧
  lookupNumber "+15550009999" demo_Server = None ∧
  lookupNumber "+15550009999" after_svc1
    = Some (Number.mk "+15550009999" "" "http://svc1/hook") ∧
  lookupNumber "+15550009999" after_svc1 ≠ Some (bare "+15550009999").
Proof.
  split; [vm_compute; reflexivity|].
  split; [vm_compute; reflexivity|].
  assert (Hl : lookupNumber "+15550009999" after_svc1
               = Some (Number.mk "+15550009999" "" "http://svc1/hook"))
    by (vm_compute; reflexivity).
  split; [exact Hl|]. rewrite Hl. discriminate.
Qed.

Lemma members_after_AddMsgService_witness :
  AddMsgService (H := demo) svc3 demo_Server = Done None after_svc3 ∧
  (∃ ps, numberSvc "MG0003" after_svc3 = Done ps after_svc3 ∧
     Forall2 (λ k p, number k after_svc3 = Done (Some p) after_svc3)
       ["+15550005678"; "+15550007777"] ps) ∧
  lookupNumber "+15550007777" after_svc3 = Some (bare "+15550007777").
Proof.
  split; [vm_compute; reflexivity|].
  destruct (members_after_AddMsgService (H := demo) svc3 demo_Server after_svc3)
    as [Hps Hmem].
  - exact demo_Server_reachable.
  - vm_compute; reflexivity.
  - split; [exact Hps|].
    destruct (Hmem "+15550007777") as [_ Hnew].
    { simpl. rewrite !elem_of_cons. tauto. }
    destruct Hnew as [_ Hbare]; [vm_compute; reflexivity|].
    apply Hbare. reflexivity.
Defined.

Lemma AddMsgService_overwrites_witness :
  AddNumber (H := demo) num1 demo_Server = Done None after_num1 ∧
  AddMsgService (H := demo) svc1 after_num1 = Done None after_svc1 ∧
  ∃ p r',
    number "+15550001234" after_svc1 = Done (Some p) after_svc1 ∧
    deref after_svc1 p = Some r' ∧
    Number.SMSWebhookURL r' = "http://svc1/hook" ∧ r' ≠ num1.
Proof.
  split; [vm_compute; reflexivity|].
  split; [vm_compute; reflexivity|].
  destruct (AddMsgService_overwrites (H := demo) svc1 after_num1 after_svc1
              "+15550001234")
    as (p & r' & Hnum & Hder & Hsms & Hold).
  - exact after_num1_reachable.
  - vm_compute; reflexivity.
  - done.
  - simpl. rewrite !elem_of_cons. tauto.
  - exists p, r'. split; [exact Hnum|]. split; [exact Hder|].
    split; [exact Hsms|].
    destruct (Hold num1) as (_ & _ & Hne); [vm_compute; reflexivity|].
    apply Hne. done.
Defined.

(** C4 fails as stated: a second service with an override that shares a
    member replaces the URL, and a send through the first service reads
    the second service's URL. *)
Lemma service_webhook_counterexample :
  AddMsgService (H := demo) svc1 demo_Server = Done None after_svc1 ∧
  AddMsgService (H := demo) svc2 after_svc1 = Done None after_svc1_svc2 ∧
  lookupServiceNumbers "MG0001" after_svc1_svc2 !! 0
    = Some (Some (Number.mk "+15550001234" "" "http://svc2/hook")) ∧
  MsgService.SMSWebhookURL svc1 ≠ "" ∧
  "http://svc2/hook" ≠ MsgService.SMSWebhookURL svc1.
Proof.
  split; [vm_compute; reflexivity|].
  split; [vm_compute; reflexivity|].
  split; [vm_compute; reflexivity|].
  split; done.
Qed.

Lemma service_webhook_resolution_witness :
  AddMsgService (H := demo) svc1 demo_Server = Done None after_svc1 ∧
  run (H := demo) [OpAddNumber num2; OpAddMsgService svc3] after_svc1
    = Done () after_svc1_num2_svc3 ∧
  ∃ ps p r,
    numberSvc "MG0001" after_svc1_num2_svc3 = Done ps after_svc1_num2_svc3 ∧
    ps !! 1 = Some p ∧
    number "+15550009999" after_svc1_num2_svc3
      = Done (Some p) after_svc1_num2_svc3 ∧
    deref after_svc1_num2_svc3 p = Some r ∧
    Number.SMSWebhookURL r = "http://svc1/hook".
Proof.
  split; [vm_compute; reflexivity|].
  split; [vm_compute; reflexivity|].
  destruct (service_webhook_resolution (H := demo) svc1 demo_Server
              after_svc1 after_svc1_num2_svc3
              [OpAddNumber num2; OpAddMsgService svc3] 1 "+15550009999")
    as (ps & p & r & Hsvc & Hp & Hnum & Hder & Hurl & _).
  - exact demo_Server_reachable.
  - vm_compute; reflexivity.
  - rewrite !Forall_cons, Forall_nil. simpl.
    repeat split; intros k' _; tauto.
  - vm_compute; reflexivity.
  - reflexivity.
  - exists ps, p, r. repeat split; try assumption. by apply Hurl.
Defined.

(** * Facts about the ID issuer *)

Section IDFacts.

Local Open Scope N_scope.

Lemma append_nil_l (b : string) : "" +:+ b = b.
Proof. reflexivity. Qed.

Lemma append_cons (x : ascii) (a b : string) :
  String x a +:+ b = String x (a +:+ b).
Proof. reflexivity. Qed.

Lemma append_nil_r (a : string) : a +:+ "" = a.
Proof.
  induction a as [|x a IH]; [done|]. by rewrite append_cons, IH.
Qed.

Lemma append_assoc (a b c : string) : (a +:+ b) +:+ c = a +:+ (b +:+ c).
Proof.
  induction a as [|x a IH]; [done|]. by rewrite !append_cons, IH.
Qed.

Lemma append_length (a b : string) :
  String.length (a +:+ b) = (String.length a + String.length b)%nat.
Proof.
  induction a as [|x a IH]; [done|]. rewrite append_cons. simpl. by rewrite IH.
Qed.

Lemma read_decimal_append (a b : string) :
  ∀ acc, read_decimal acc (a +:+ b) = read_decimal (read_decimal acc a) b.
Proof.
  induction a as [|x a IH]; intros acc; [done|].
  rewrite append_cons. simpl. apply IH.
Qed.

Lemma digit_val_digit (d : N) : d < 10 → digit_val (digit d) = d.
Proof.
  intros Hd. unfold digit_val, digit.
  rewrite N_ascii_embedding by lia. lia.
Qed.

(** The loop of [fmtInteger] writes at least one digit and at most [fuel]
    digits in front of the buffer, and they read back as [u]. *)
Lemma fmtInteger_spec (fuel : nat) :
  ∀ (u : N) (buf : string),
  (0 < fuel)%nat → u < 10 ^ N.of_nat fuel →
  ∃ ds, fmtInteger fuel u buf = ds +:+ buf ∧
    (1 ≤ String.length ds ≤ fuel)%nat ∧
    ∀ acc, read_decimal acc ds = acc * 10 ^ N.of_nat (String.length ds) + u.
Proof.
  induction fuel as [|fuel IH]; intros u buf Hfuel Hu; [lia|].
  simpl. destruct (N.leb_spec 10 u) as [Hge|Hlt].
  - assert (Hf : (0 < fuel)%nat).
    { destruct fuel; [|lia]. simpl in Hu. lia. }
    assert (Hdiv : u / 10 < 10 ^ N.of_nat fuel).
    { apply N.Div0.div_lt_upper_bound.
      rewrite Nat2N.inj_succ, N.pow_succ_r' in Hu. lia. }
    destruct (IH (u / 10) (String (digit (u mod 10)) buf) Hf Hdiv)
      as (ds & Hds & Hlen & Hread).
    exists (ds +:+ String (digit (u mod 10)) "").
    split; [by rewrite Hds, append_assoc, append_cons, append_nil_l|].
    rewrite append_length. simpl. split; [lia|].
    intros acc. rewrite read_decimal_append, Hread. simpl.
    rewrite digit_val_digit by (apply N.mod_lt; lia).
    replace (N.of_nat (String.length ds + 1)) with (N.succ (N.of_nat (String.length ds))) by lia.
    rewrite N.pow_succ_r'.
    pose proof (N.div_mod u 10 ltac:(lia)) as Hdm. lia.
  - exists (String (digit u) ""). split; [done|]. simpl. split; [lia|].
    intros acc. rewrite digit_val_digit by done. lia.
Qed.

Lemma pad_zeros_spec (k : nat) :
  ∀ buf, String.length (pad_zeros k buf) = (k + String.length buf)%nat ∧
    ∀ acc, read_decimal acc (pad_zeros k buf)
           = read_decimal (acc * 10 ^ N.of_nat k) buf.
Proof.
  induction k as [|k IH]; intros buf; simpl.
  - split; [done|]. intros acc. f_equal. lia.
  - destruct (IH (String "0" buf)) as [Hlen Hread]. split.
    + rewrite Hlen. simpl. lia.
    + intros acc. rewrite Hread. simpl. f_equal.
      rewrite Nat2N.inj_succ, N.pow_succ_r'.
      change (digit_val "0") with 0. lia.
Qed.

(** [%032d] of a 64-bit value: 32 characters that read back as the value. *)
Lemma fmt_032d_spec (u : N) :
  u < 2 ^ 64 →
  String.length (fmt_032d u) = 32%nat ∧ read_decimal 0 (fmt_032d u) = u.
Proof.
  intros Hu. unfold fmt_032d.
  destruct (fmtInteger_spec 20 u "" ltac:(lia)) as (ds & Hds & Hlen & Hread).
  { eapply N.lt_trans; [exact Hu|]. reflexivity. }
  rewrite Hds, append_nil_r. simpl.
  destruct (pad_zeros_spec (32 - String.length ds) ds) as [Hl Hr].
  split; [rewrite Hl; lia|].
  rewrite Hr, Hread. simpl. lia.
Qed.

Lemma substring_all (b : string) :
  String.substring 0 (String.length b) b = b.
Proof. induction b as [|x b IH]; simpl; [done|]. by rewrite IH. Qed.

Lemma substring_append (a b : string) :
  String.substring (String.length a) (String.length b) (a +:+ b) = b.
Proof.
  induction a as [|x a IH].
  - rewrite append_nil_l. apply substring_all.
  - rewrite append_cons. simpl. exact IH.
Qed.

Lemma last_chars_append (a b : string) :
  last_chars (String.length b) (a +:+ b) = b.
Proof.
  unfold last_chars. rewrite append_length.
  replace (String.length a + String.length b - String.length b)%nat
    with (String.length a) by lia.
  apply substring_append.
Qed.

(** The last 32 characters of an ID are the counter, and read back as it. *)
Lemma numeric_part_Sprintf (prefix : string) (u : N) :
  u < 2 ^ 64 → numeric_part (Sprintf_s_032d prefix u) = u.
Proof.
  intros Hu. destruct (fmt_032d_spec u Hu) as [Hlen Hread].
  unfold numeric_part, Sprintf_s_032d. rewrite <- Hlen at 1.
  by rewrite last_chars_append.
Qed.

Lemma nextID_eq (prefix : string) (s : Server) :
  nextID prefix s =
    Done (Sprintf_s_032d prefix ((id s + 1) mod 2 ^ 64))
         (set_id ((id s + 1) mod 2 ^ 64) s).
Proof. reflexivity. Qed.

Lemma nextIDs_lookup (prefixes : list string) :
  ∀ s, id s + N.of_nat (length prefixes) < 2 ^ 64 →
  ∃ xs, nextIDs prefixes s
          = Done xs (set_id (id s + N.of_nat (length prefixes)) s) ∧
    length xs = length prefixes ∧
    ∀ i p, prefixes !! i = Some p →
      xs !! i = Some (Sprintf_s_032d p (id s + N.of_nat i + 1)).
Proof.
  induction prefixes as [|p rest IH]; intros s Hlt.
  - exists []. split.
    + simpl. unfold mret, M_ret. f_equal. destruct s; simpl.
      unfold set_id; simpl. f_equal. lia.
    + split; [done|]. intros i q Hq. by rewrite lookup_nil in Hq.
  - simpl length in Hlt. rewrite Nat2N.inj_succ in Hlt.
    assert (Hmod : (id s + 1) mod 2 ^ 64 = id s + 1)
      by (apply N.mod_small; lia).
    destruct (IH (set_id (id s + 1) s)) as (xs & Hrun & Hlen & Hlk).
    { simpl. lia. }
    exists (Sprintf_s_032d p (id s + 1) :: xs). split.
    { cbn [nextIDs]. unfold mbind, M_bind at 1. rewrite nextID_eq, Hmod.
      unfold mbind, M_bind. rewrite Hrun. unfold mret, M_ret.
      f_equal. unfold set_id; simpl. f_equal. lia. }
    split; [simpl; by rewrite Hlen|].
    intros [|i] q Hq; simpl in *.
    + injection Hq as <-. do 2 f_equal. lia.
    + rewrite (Hlk i q Hq). do 2 f_equal. simpl. lia.
Qed.

(** C6, as the code has it: as long as the 64-bit counter does not wrap,
    the calls of [nextID] return, each result is its prefix followed by
    the 32 characters of the zero-padded counter, which is the counter
    before the calls plus the number of the call, the numeric parts of
    successive results increase strictly, and no ID is issued twice. *)
Theorem nextIDs_increasing_distinct (prefixes : list string) (s : Server) :
  id s + N.of_nat (length prefixes) < 2 ^ 64 →
  ∃ xs s',
    nextIDs prefixes s = Done xs s' ∧
    length xs = length prefixes ∧
    (∀ i p, prefixes !! i = Some p →
       ∃ x, xs !! i = Some x ∧
         x = p +:+ fmt_032d (id s + N.of_nat i + 1) ∧
         String.length (fmt_032d (id s + N.of_nat i + 1)) = 32%nat ∧
         numeric_part x = id s + N.of_nat i + 1) ∧
    (∀ i j x y, (i < j)%nat → xs !! i = Some x → xs !! j = Some y →
       numeric_part x < numeric_part y) ∧
    NoDup xs.
Proof.
  intros Hlt.
  destruct (nextIDs_lookup prefixes s Hlt) as (xs & Hrun & Hlen & Hlk).
  assert (Hpt : ∀ i x, xs !! i = Some x →
            ∃ p, prefixes !! i = Some p ∧
              x = Sprintf_s_032d p (id s + N.of_nat i + 1) ∧
              id s + N.of_nat i + 1 < 2 ^ 64).
  { intros i x Hx. pose proof (lookup_lt_Some _ _ _ Hx) as Hi.
    rewrite Hlen in Hi.
    destruct (lookup_lt_is_Some_2 prefixes i Hi) as [p Hp].
    exists p. split; [done|]. rewrite (Hlk i p Hp) in Hx.
    injection Hx as <-. split; [done|]. lia. }
  assert (Hnum : ∀ i x, xs !! i = Some x →
            numeric_part x = id s + N.of_nat i + 1).
  { intros i x Hx. destruct (Hpt i x Hx) as (p & _ & -> & Hb).
    by apply numeric_part_Sprintf. }
  exists xs, (set_id (id s + N.of_nat (length prefixes)) s).
  split; [done|]. split; [done|]. split.
  { intros i p Hp. exists (Sprintf_s_032d p (id s + N.of_nat i + 1)).
    pose proof (Hlk i p Hp) as Hx. split; [done|]. split; [done|].
    destruct (Hpt i _ Hx) as (_ & _ & _ & Hb).
    split; [by apply fmt_032d_spec|]. by apply numeric_part_Sprintf. }
  split.
  { intros i j x y Hij Hx Hy. rewrite (Hnum i x Hx), (Hnum j y Hy). lia. }
  apply NoDup_alt. intros i j x Hx Hy.
  pose proof (Hnum i x Hx) as Hi. rewrite (Hnum j x Hy) in Hi. lia.
Qed.

Lemma after_nextIDs_eq (prefix : string) (n : N) (s : Server) :
  after_nextIDs prefix n s = set_id ((id s + n) mod 2 ^ 64) s ∨
  (n = 0 ∧ after_nextIDs prefix n s = s).
Proof.
  unfold after_nextIDs. induction n as [|n IH] using N.peano_ind.
  - right. done.
  - left. rewrite N.iter_succ. destruct IH as [->|[-> ->]].
    + rewrite nextID_eq. unfold set_id; simpl. f_equal.
      rewrite N.Div0.add_mod_idemp_l. f_equal. lia.
    + rewrite nextID_eq. unfold set_id; simpl. f_equal.
Qed.

End IDFacts.

(** C6 fails as stated: the counter has 64 bits, and the call that follows
    2^64 calls returns the ID of the first call again. *)
Lemma nextID_reuse_counterexample :
  nextID "SM" demo_Server
    = Done "SM00000000000000000000000000000001" (set_id 1 demo_Server) ∧
  nextID "SM" (after_nextIDs "SM" (2 ^ 64) demo_Server)
    = Done "SM00000000000000000000000000000001" (set_id 1 demo_Server).
Proof.
  split; [reflexivity|].
  destruct (after_nextIDs_eq "SM" (2 ^ 64) demo_Server) as [->|[Hz _]].
  - reflexivity.
  - discriminate Hz.
Qed.

Lemma nextIDs_increasing_distinct_witness :
  ∃ xs s',
    nextIDs ["SM"; "CA"; "SM"] demo_Server = Done xs s' ∧
    length xs = 3%nat ∧
    (∀ i j x y, (i < j)%nat → xs !! i = Some x → xs !! j = Some y →
       (numeric_part x < numeric_part y)%N) ∧
    NoDup xs.
Proof.
  destruct (nextIDs_increasing_distinct ["SM"; "CA"; "SM"] demo_Server)
    as (xs & s' & Hrun & Hlen & _ & Hinc & Hnd).
  - reflexivity.
  - exists xs, s'. done.
Defined.

Example nextIDs_demo :
  nextIDs ["SM"; "CA"] demo_Server
    = Done ["SM00000000000000000000000000000001";
            "CA00000000000000000000000000000002"] (set_id 2 demo_Server).
Proof. reflexivity. Qed.

(** * Facts about the coordinator *)

Section CoordFacts.

(** *** Frames: what an invariant reads of the state *)

Lemma close_inv_frame (σ σ' : Coord) :
  close_inv σ →
  once σ' = once σ → shutdown σ' = shutdown σ → closers σ' = closers σ →
  shutdown_closes σ' = shutdown_closes σ →
  shutdownDone σ' = shutdownDone σ → msgCh_closed σ' = msgCh_closed σ →
  loop_phase (loop σ') = loop_phase (loop σ) →
  close_inv σ'.
Proof.
  intros [] H1 H2 H3 H4 H5 H6 H7.
  split; rewrite ?H1, ?H2, ?H3, ?H4, ?H5, ?H6, ?H7; assumption.
Qed.

Lemma task_inv_frame (σ σ' : Coord) :
  task_inv σ →
  wg σ' = wg σ → tasks σ' = tasks σ →
  loop_task (loop σ') = loop_task (loop σ) →
  task_inv σ'.
Proof.
  intros [] H1 H2 H3. split; rewrite ?H1, ?H2, ?H3; assumption.
Qed.

Lemma tasks_progress_refl (ts : list task_pc) : tasks_progress ts ts.
Proof. split; [done|]. intros t pc Ht. split; eauto. by intros ->. Qed.

(** A waiter's invariant reads the messages only through what
    [tasks_progress] keeps. *)
Lemma waiter_inv_frame (σ σ' : Coord) (w : nat) (wt : waiter) :
  waiter_inv σ w wt →
  tasks_progress (tasks σ) (tasks σ') →
  loop_watcher (loop σ') = loop_watcher (loop σ) →
  waiter_inv σ' w wt.
Proof.
  intros (Hb & Hs & Hc & Hr & Hw & Hf) [Hlen Hprog] Hl.
  split; [lia|]. rewrite Hl.
  split; [done|]. split; [done|]. split; [done|]. split.
  - intros Hor t Ht. destruct (Hw Hor t Ht) as (pc & Hpc & Hcnt).
    by apply (Hprog t pc Hpc).
  - intros Hor t Ht. by apply (Hprog t TaskFinished (Hf Hor t Ht)).
Qed.

Lemma wait_inv_frame (σ σ' : Coord) :
  wait_inv σ →
  waiters σ' = waiters σ →
  tasks_progress (tasks σ) (tasks σ') →
  loop_watcher (loop σ') = loop_watcher (loop σ) →
  wait_inv σ'.
Proof.
  intros [Hh Hw] H1 H2 H3. split; rewrite ?H1, ?H3.
  - exact Hh.
  - intros w wt Hwt. eapply waiter_inv_frame; eauto.
Qed.

Ltac step_cases Hstep :=
  unfold coord_step in Hstep;
  match type of Hstep with
  | context [panicked ?σ] => destruct (panicked σ) eqn:?; [discriminate|]
  end;
  match type of Hstep with
  | match ?ev with _ => _ end = _ => destruct ev
  end;
  repeat case_match; simplify_eq.

Ltac loop_known :=
  match goal with
  | H : loop _ = _ |- _ => rewrite H
  end.

Ltac lookup_cases :=
  repeat match goal with
  | H : <[_ := _]> _ !! _ = Some _ |- _ =>
      apply list_lookup_insert_Some in H as [(? & ? & ?)|[? H]]
  | H : (_ ++ [_])%list !! _ = Some _ |- _ =>
      apply lookup_snoc_Some in H as [[? H]|[? ?]]
  end;
  simplify_eq.

Lemma not_inside_CloseDo : ¬ inside_once CloseDo.
Proof. intros [|]; discriminate. Qed.
Lemma not_inside_CloseRecv : ¬ inside_once CloseRecv.
Proof. intros [|]; discriminate. Qed.
Lemma not_inside_CloseReturned : ¬ inside_once CloseReturned.
Proof. intros [|]; discriminate. Qed.
Lemma inside_CloseInF : inside_once CloseInF.
Proof. by left. Qed.
Lemma inside_CloseLeaveF : inside_once CloseLeaveF.
Proof. by right. Qed.

#[local] Hint Resolve inside_CloseInF inside_CloseLeaveF : core.

Lemma step_close_inv (ev : event) (σ σ' : Coord) :
  close_inv σ → coord_step ev σ = Some σ' → panicked σ' = false →
  close_inv σ'.
Proof.
  intros Hinv Hstep Hnp. step_cases Hstep; try discriminate Hnp.
  all: try (apply (close_inv_frame σ); [exact Hinv|simpl..];
            try reflexivity; by loop_known).
  all: destruct Hinv as [Hcl Hfr Hins HinF Hone Hret Hlv Hmsg Hsd].
  all: try solve
    [ match goal with
      | Hl : loop _ = _ |- _ =>
          rewrite Hl in Hlv, Hmsg, Hsd; simpl in Hlv, Hmsg, Hsd
      end;
      assert (shutdown σ = true) by (first [assumption | apply Hlv; lia]);
      destruct Hmsg as [Hm1 Hm2]; destruct Hsd as [Hs1 Hs2];
      split; simpl; try assumption; try (intros _; assumption);
      split; intros Hx;
      first [ lia | reflexivity | discriminate
            | apply Hm2; lia | apply Hs2; lia
            | apply Hm1 in Hx; lia | apply Hs1 in Hx; lia ] ].
  - (* CallClose *)
    split; simpl; try assumption.
    + intros c pc Hc Hin. lookup_cases; [eauto|].
      by apply not_inside_CloseDo in Hin.
    + intros c Hc. lookup_cases. eauto.
    + intros c1 c2 pc1 pc2 Ha Hb Hin1 Hin2. lookup_cases; [eauto|..].
      all: exfalso; eauto using not_inside_CloseDo.
    + intros c Hc. lookup_cases. eauto.
  - (* OnceEnter *)
    assert (Hno : ∀ c' pc', closers σ !! c' = Some pc' → ¬ inside_once pc').
    { intros c' pc' Hc' Hin'. pose proof (Hins _ _ Hc' Hin'). congruence. }
    split; simpl; try assumption.
    + done.
    + done.
    + intros c0 Hc. auto.
    + intros c1 c2 pc1 pc2 Ha Hb Hin1 Hin2.
      lookup_cases; [done|exfalso; eapply Hno; eauto..].
    + intros c0 Hc. lookup_cases. eauto.
  - (* OnceSkip *)
    split; simpl; try assumption.
    + intros c0 pc Hc Hin. lookup_cases; [|eauto].
      by apply not_inside_CloseRecv in Hin.
    + intros c0 Hc. lookup_cases. eauto.
    + intros c1 c2 pc1 pc2 Ha Hb Hin1 Hin2. lookup_cases; [..|eauto].
      all: exfalso; eauto using not_inside_CloseRecv.
    + intros c0 Hc. lookup_cases. eauto.
  - (* CloseShutdown *)
    match goal with
    | Hx : closers σ !! c = Some CloseInF, Hy : shutdown σ = false |- _ =>
        rename Hx into Hc0; rename Hy into Hopen
    end.
    split; simpl.
    + rewrite Hcl. by rewrite Hopen.
    + intros Hf. pose proof (Hins c CloseInF Hc0 inside_CloseInF). congruence.
    + intros c0 pc Hc Hin. lookup_cases; eauto.
    + intros c0 Hc. lookup_cases. exfalso.
      pose proof (Hone _ _ _ _ Hc0 Hc inside_CloseInF inside_CloseInF). done.
    + intros c1 c2 pc1 pc2 Ha Hb Hin1 Hin2. lookup_cases; [done|..|eauto].
      * symmetry. eapply Hone; eauto.
      * eapply Hone; eauto.
    + intros c0 Hc. lookup_cases. eauto.
    + done.
    + done.
    + done.
  - (* OnceLeave *)
    match goal with
    | Hx : closers σ !! c = Some CloseLeaveF |- _ => rename Hx into Hc0
    end.
    split; simpl; try assumption.
    + done.
    + intros c0 pc Hc Hin. lookup_cases.
      * by apply not_inside_CloseRecv in Hin.
      * exfalso.
        pose proof (Hone _ _ _ _ Hc0 Hc inside_CloseLeaveF Hin). done.
    + intros c0 Hc. lookup_cases. eauto.
    + intros c1 c2 pc1 pc2 Ha Hb Hin1 Hin2. lookup_cases; [..|eauto].
      all: exfalso; eauto using not_inside_CloseRecv.
    + intros c0 Hc. lookup_cases; eauto.
  - (* RecvShutdownDone *)
    split; simpl; try assumption.
    + intros c0 pc Hc Hin. lookup_cases; [|eauto].
      by apply not_inside_CloseReturned in Hin.
    + intros c0 Hc. lookup_cases. eauto.
    + intros c1 c2 pc1 pc2 Ha Hb Hin1 Hin2. lookup_cases; [..|eauto].
      all: exfalso; eauto using not_inside_CloseReturned.
    + intros c0 Hc. lookup_cases; eauto.
Qed.

(** *** The messages and the WaitGroup *)

Lemma count_in_flight_snoc (ts : list task_pc) (pc : task_pc) :
  count_in_flight (ts ++ [pc]) =
  count_in_flight ts + (if in_flight pc then 1 else 0).
Proof.
  unfold count_in_flight. rewrite filter_app, length_app. f_equal.
  rewrite filter_cons, filter_nil. destruct (in_flight pc); reflexivity.
Qed.

Lemma count_in_flight_insert (ts : list task_pc) :
  ∀ (t : nat) (a b : task_pc), ts !! t = Some a →
  count_in_flight (<[t := b]> ts) + (if in_flight a then 1 else 0) =
  count_in_flight ts + (if in_flight b then 1 else 0).
Proof.
  unfold count_in_flight.
  induction ts as [|x ts IH]; intros t a b Ht; [done|].
  destruct t as [|t]; simpl in *.
  - injection Ht as ->. rewrite !filter_cons.
    destruct (in_flight a), (in_flight b); simpl; lia.
  - rewrite !filter_cons. specialize (IH t a b Ht).
    destruct (decide (in_flight x = true)); simpl; lia.
Qed.

Lemma count_in_flight_zero (ts : list task_pc) (t : nat) (pc : task_pc) :
  count_in_flight ts = 0 → ts !! t = Some pc → in_flight pc = false.
Proof.
  intros Hz Ht. destruct (in_flight pc) eqn:Hpc; [|done].
  pose proof (count_in_flight_insert ts t pc TaskFinished Ht) as Hc.
  rewrite Hpc, Hz in Hc. simpl in Hc. lia.
Qed.

Lemma counted_idle_Finished (pc : task_pc) :
  counted pc → in_flight pc = false → pc = TaskFinished.
Proof. unfold counted. destruct pc; simpl; intros [] ?; congruence. Qed.

(** While the loop holds no message, every message is counted. *)
Lemma all_counted (σ : Coord) (t : nat) (pc : task_pc) :
  task_inv σ → loop_task (loop σ) = None → tasks σ !! t = Some pc →
  counted pc.
Proof.
  intros [_ Hl] Hnone Ht.
  destruct pc; try (split; discriminate).
  all: apply Hl in Ht; [congruence|intros []; done].
Qed.

Lemma held_task (σ : Coord) (t : nat) (pc : task_pc) :
  task_inv σ → loop_task (loop σ) = Some (t, pc) → tasks σ !! t = Some pc.
Proof.
  intros [_ Hl] Hheld. apply Hl; [|done].
  destruct (loop σ); simpl in Hheld; simplify_eq; intros []; done.
Qed.

Lemma step_task_inv (ev : event) (σ σ' : Coord) :
  task_inv σ → coord_step ev σ = Some σ' → panicked σ' = false →
  task_inv σ'.
Proof.
  intros Hinv Hstep Hnp. step_cases Hstep; try discriminate Hnp.
  all: try (apply (task_inv_frame σ); [exact Hinv|simpl..];
            try reflexivity; by loop_known).
  - (* Submit *)
    pose proof (all_counted σ) as Hall. destruct Hinv as [Hwg Hl].
    split; simpl.
    + rewrite count_in_flight_snoc. simpl. lia.
    + intros t pc Hpc. split.
      * intros Ht. lookup_cases; [|done].
        exfalso. apply Hpc. eapply Hall; [by split|by loop_known|done].
      * intros [= <- <-]. apply lookup_snoc_Some. right. done.
  - (* LoopWgAdd *)
    pose proof (held_task σ t TaskReceived Hinv ltac:(by loop_known)) as Ht0.
    destruct Hinv as [Hwg Hl]. split; simpl.
    + pose proof (count_in_flight_insert _ _ _ TaskAdded Ht0) as Hc.
      simpl in Hc. lia.
    + intros t1 pc Hpc. split.
      * intros Ht. lookup_cases; [done|].
        apply Hl in Ht; [|done]. revert Ht. loop_known. simpl. congruence.
      * intros [= <- <-]. apply list_lookup_insert_Some. left.
        split; [done|]. split; [done|]. by eapply lookup_lt_Some.
  - (* LoopGoLifecycle *)
    pose proof (held_task σ t TaskAdded Hinv ltac:(by loop_known)) as Ht0.
    destruct Hinv as [Hwg Hl]. split; simpl.
    + pose proof (count_in_flight_insert _ _ _ TaskRunning Ht0) as Hc.
      simpl in Hc. lia.
    + intros t1 pc Hpc. split; [|done].
      intros Ht. lookup_cases.
      * exfalso. apply Hpc. split; done.
      * apply Hl in Ht; [|done]. revert Ht. loop_known. simpl. congruence.
  - (* LifecycleReturns *)
    match goal with
    | Hx : tasks σ !! t = Some TaskRunning |- _ => rename Hx into Ht0
    end.
    destruct Hinv as [Hwg Hl]. split; simpl.
    + pose proof (count_in_flight_insert _ _ _ TaskLifecycleDone Ht0) as Hc.
      simpl in Hc. lia.
    + intros t1 pc Hpc. split.
      * intros Ht. lookup_cases; [exfalso; apply Hpc; split; done|].
        by apply Hl.
      * intros Hheld. apply Hl in Hheld; [|done].
        apply list_lookup_insert_Some. right. split; [|done].
        intros <-. rewrite Ht0 in Hheld. injection Hheld as <-.
        apply Hpc. split; done.
  - (* TaskWgDone *)
    match goal with
    | Hx : tasks σ !! t = Some TaskLifecycleDone |- _ => rename Hx into Ht0
    end.
    destruct Hinv as [Hwg Hl]. split; simpl.
    + pose proof (count_in_flight_insert _ _ _ TaskFinished Ht0) as Hc.
      simpl in Hc. lia.
    + intros t1 pc Hpc. split.
      * intros Ht. lookup_cases; [exfalso; apply Hpc; split; done|].
        by apply Hl.
      * intros Hheld. apply Hl in Hheld; [|done].
        apply list_lookup_insert_Some. right. split; [|done].
        intros <-. rewrite Ht0 in Hheld. injection Hheld as <-.
        apply Hpc. split; done.
Qed.


(** *** The calls of [WaitInFlight] *)

Lemma tasks_progress_snoc (ts : list task_pc) (pc : task_pc) :
  tasks_progress ts (ts ++ [pc]).
Proof.
  split; [rewrite length_app; lia|]. intros t a Ht.
  assert (Hl : (ts ++ [pc])%list !! t = Some a).
  { rewrite lookup_app_l; [done|]. by eapply lookup_lt_Some. }
  split; [eauto|]. by intros ->.
Qed.

Lemma tasks_progress_insert (ts : list task_pc) (t : nat) (a b : task_pc) :
  ts !! t = Some a → (counted a → counted b) → a ≠ TaskFinished →
  tasks_progress ts (<[t := b]> ts).
Proof.
  intros Ht Hab Ha. split; [by rewrite length_insert|].
  intros t1 pc Hpc. destruct (decide (t1 = t)) as [->|Hne].
  - rewrite Ht in Hpc. injection Hpc as <-.
    rewrite list_lookup_insert_eq by (by eapply lookup_lt_Some).
    split; [eauto|done].
  - rewrite list_lookup_insert_ne by done. split; [eauto|]. by intros ->.
Qed.

(** The other calls keep their invariant when one call moves and the
    loop does not take up a wait request of theirs. *)
Lemma waiter_inv_other (σ σ' : Coord) (w w0 : nat) (wt0 : waiter) :
  waiter_inv σ w0 wt0 → w0 ≠ w →
  tasks σ' = tasks σ →
  (loop_watcher (loop σ') = loop_watcher (loop σ) ∨
   loop_watcher (loop σ') = Some w ∨ loop_watcher (loop σ') = None) →
  waiter_inv σ' w0 wt0.
Proof.
  intros (Hb & Hs & Hc & Hr & Hw & Hf) Hne Ht Hl. unfold waiter_inv.
  rewrite Ht. split; [done|]. split.
  { intros Hpc. split; [by apply Hs|].
    destruct Hl as [->|[->| ->]]; [by apply Hs|congruence|done]. }
  split; [done|]. split; [done|]. split; [|done].
  intros [Hwait|Hheld]; [by apply Hw; left|].
  destruct Hl as [Hl|[Hl|Hl]]; rewrite Hl in Hheld;
    [by apply Hw; right|congruence|done].
Qed.

Ltac waiter_known :=
  match goal with
  | Hx : waiters _ !! ?w = Some ?wt |- _ => rename Hx into Hwt0
  end.

Lemma step_wait_inv (ev : event) (σ σ' : Coord) :
  task_inv σ → wait_inv σ → coord_step ev σ = Some σ' →
  panicked σ' = false → wait_inv σ'.
Proof.
  intros Htask Hinv Hstep Hnp. step_cases Hstep; try discriminate Hnp.
  (* the calls of Close and the way out of the loop *)
  all: try (apply (wait_inv_frame σ); [exact Hinv|simpl..];
            try reflexivity; try apply tasks_progress_refl; by loop_known).
  - (* Submit *)
    apply (wait_inv_frame σ); [exact Hinv|done| |simpl; by loop_known].
    apply tasks_progress_snoc.
  - (* LoopWgAdd *)
    apply (wait_inv_frame σ); [exact Hinv|done| |simpl; by loop_known].
    simpl. apply (tasks_progress_insert _ t TaskReceived TaskAdded);
      [|intros []; done|done].
    apply (held_task σ); [done|by loop_known].
  - (* LoopGoLifecycle *)
    apply (wait_inv_frame σ); [exact Hinv|done| |simpl; by loop_known].
    simpl. apply (tasks_progress_insert _ t TaskAdded TaskRunning);
      [|intros []; done|done].
    apply (held_task σ); [done|by loop_known].
  - (* LoopGoWatcherEv *)
    waiter_known. destruct Hinv as [Hh Hw].
    match goal with Hl : loop σ = LoopGoWatcher _ |- _ => rename Hl into Hloop end.
    destruct (Hh w) as (wt' & Hwt' & Hnone); [by rewrite Hloop|].
    rewrite Hwt0 in Hwt'. injection Hwt' as <-.
    destruct (Hw w _ Hwt0) as (Hb & Hs & Hc & Hr & Hcnt & Hf).
    split; simpl; [done|].
    intros w1 wt1 Hwt1. lookup_cases.
    + unfold waiter_inv; simpl. split; [done|].
      split; [intros Hpc; destruct (Hs Hpc) as [_ Hx]; by rewrite Hloop in Hx|].
      split; [intros Hcl; specialize (Hc Hcl); congruence|].
      split; [done|].
      split; [intros _; apply Hcnt; right; by rewrite Hloop|].
      intros [|]; discriminate.
    + eapply (waiter_inv_other σ _ w); eauto.
  - (* LifecycleReturns *)
    apply (wait_inv_frame σ); [exact Hinv|done| |done].
    simpl. apply (tasks_progress_insert _ t TaskRunning TaskLifecycleDone);
      [assumption|intros _; split; done|done].
  - (* TaskWgDone *)
    apply (wait_inv_frame σ); [exact Hinv|done| |done].
    simpl. apply (tasks_progress_insert _ t TaskLifecycleDone TaskFinished);
      [assumption|intros _; split; done|done].
  - (* CallWaitInFlight *)
    destruct Hinv as [Hh Hw]. split; simpl.
    + intros w Hl. destruct (Hh w Hl) as (wt & Hwt & Hnone).
      exists wt. split; [|done]. rewrite lookup_app_l; [done|].
      by eapply lookup_lt_Some.
    + intros w wt Hwt. lookup_cases.
      * eapply waiter_inv_frame; [by apply Hw|apply tasks_progress_refl|done].
      * assert (Hfree : loop_watcher (loop σ) ≠ Some (length (waiters σ))).
        { intros Hl. destruct (Hh _ Hl) as (wt & Hwt & _).
          apply lookup_lt_Some in Hwt. lia. }
        unfold waiter_inv; simpl. split; [done|]. split; [done|].
        split; [done|]. split; [done|]. split.
        -- intros [|]; [discriminate|done].
        -- intros [|]; discriminate.
  - (* Deadline *)
    waiter_known. destruct Hinv as [Hh Hw]. split; simpl.
    + intros w1 Hl. destruct (Hh w1 Hl) as (wt & Hwt & Hnone).
      destruct (decide (w1 = w)) as [->|Hne].
      * rewrite Hwt0 in Hwt. injection Hwt as <-.
        eexists. split; [apply list_lookup_insert_eq; by eapply lookup_lt_Some|].
        exact Hnone.
      * exists wt. split; [|done]. by rewrite list_lookup_insert_ne.
    + intros w1 wt1 Hwt1. lookup_cases.
      * exact (Hw _ _ Hwt0).
      * eapply (waiter_inv_other σ _ w); eauto.
  - (* WaitHandOver *)
    waiter_known. destruct Hinv as [Hh Hw].
    match goal with Hl : loop σ = LoopSelect |- _ => rename Hl into Hloop end.
    match goal with Hp : w_pc _ = WaitSend |- _ => rename Hp into Hpc0 end.
    destruct (Hw w _ Hwt0) as (Hb & Hs & Hc & Hr & Hcnt & Hf).
    destruct (Hs Hpc0) as [Hnone _].
    split; simpl.
    + intros w1 [= <-]. eexists.
      split; [apply list_lookup_insert_eq; by eapply lookup_lt_Some|].
      exact Hnone.
    + intros w1 wt1 Hwt1. lookup_cases.
      * unfold waiter_inv; simpl. split; [done|].
        split; [discriminate|]. split; [done|]. split; [discriminate|].
        split; [|done].
        intros _ t Ht.
        destruct (lookup_lt_is_Some_2 (tasks σ) t ltac:(lia)) as [pc Hpc].
        exists pc. split; [done|].
        eapply (all_counted σ); [done|by rewrite Hloop|done].
      * eapply (waiter_inv_other σ _ w); eauto.
  - (* WatcherWgWait *)
    waiter_known. destruct Hinv as [Hh Hw].
    match goal with Hp : w_watcher _ = WatcherWait |- _ => rename Hp into Hwa end.
    match goal with Hz : wg σ = 0 |- _ => rename Hz into Hzero end.
    destruct (Hw w _ Hwt0) as (Hb & Hs & Hc & Hr & Hcnt & Hf).
    split; simpl.
    + intros w1 Hl. destruct (Hh w1 Hl) as (wt & Hwt & Hnone).
      exists wt. split; [|done]. rewrite list_lookup_insert_ne; [done|].
      intros <-. congruence.
    + intros w1 wt1 Hwt1. lookup_cases.
      * unfold waiter_inv; simpl. split; [done|].
        split; [intros Hpc; destruct (Hs Hpc); congruence|].
        split; [intros Hcl; specialize (Hc Hcl); congruence|].
        split; [done|].
        split.
        -- intros [|Hl]; [discriminate|].
           destruct (Hh _ Hl) as (wt & Hwt & Hnone). congruence.
        -- intros _ t Ht. destruct (Hcnt (or_introl Hwa) t Ht) as (pc & Hpc & Hcd).
           rewrite Hpc. f_equal. apply counted_idle_Finished; [done|].
           eapply count_in_flight_zero; [|exact Hpc].
           destruct Htask as [Hwg _]. congruence.
      * eapply (waiter_inv_other σ _ w); eauto.
  - (* WatcherCloseCh *)
    waiter_known. destruct Hinv as [Hh Hw].
    match goal with Hp : w_watcher _ = WatcherClose |- _ => rename Hp into Hwa end.
    destruct (Hw w _ Hwt0) as (Hb & Hs & Hc & Hr & Hcnt & Hf).
    split; simpl.
    + intros w1 Hl. destruct (Hh w1 Hl) as (wt & Hwt & Hnone).
      exists wt. split; [|done]. rewrite list_lookup_insert_ne; [done|].
      intros <-. congruence.
    + intros w1 wt1 Hwt1. lookup_cases.
      * unfold waiter_inv; simpl. split; [done|].
        split; [intros Hpc; destruct (Hs Hpc); congruence|].
        split; [done|]. split; [done|].
        split.
        -- intros [|Hl]; [discriminate|].
           destruct (Hh _ Hl) as (wt & Hwt & Hnone). congruence.
        -- intros _. apply Hf. by left.
      * eapply (waiter_inv_other σ _ w); eauto.
  - (* WaitCtxDone, from the first select *)
    waiter_known. destruct Hinv as [Hh Hw].
    destruct (Hw w _ Hwt0) as (Hb & Hs & Hc & Hr & Hcnt & Hf).
    split; simpl.
    + intros w1 Hl. destruct (Hh w1 Hl) as (wt & Hwt & Hnone).
      destruct (decide (w1 = w)) as [->|Hne].
      * rewrite Hwt0 in Hwt. injection Hwt as <-.
        eexists. split; [apply list_lookup_insert_eq; by eapply lookup_lt_Some|].
        exact Hnone.
      * exists wt. split; [|done]. by rewrite list_lookup_insert_ne.
    + intros w1 wt1 Hwt1. lookup_cases.
      * unfold waiter_inv; simpl. split; [done|].
        split; [discriminate|]. split; [done|]. split; [discriminate|].
        split; done.
      * eapply (waiter_inv_other σ _ w); eauto.
  - (* WaitCtxDone, from the second select *)
    waiter_known. destruct Hinv as [Hh Hw].
    destruct (Hw w _ Hwt0) as (Hb & Hs & Hc & Hr & Hcnt & Hf).
    split; simpl.
    + intros w1 Hl. destruct (Hh w1 Hl) as (wt & Hwt & Hnone).
      destruct (decide (w1 = w)) as [->|Hne].
      * rewrite Hwt0 in Hwt. injection Hwt as <-.
        eexists. split; [apply list_lookup_insert_eq; by eapply lookup_lt_Some|].
        exact Hnone.
      * exists wt. split; [|done]. by rewrite list_lookup_insert_ne.
    + intros w1 wt1 Hwt1. lookup_cases.
      * unfold waiter_inv; simpl. split; [done|].
        split; [discriminate|]. split; [done|]. split; [discriminate|].
        split; done.
      * eapply (waiter_inv_other σ _ w); eauto.
  - (* WaitChClosed *)
    waiter_known. destruct Hinv as [Hh Hw].
    destruct (Hw w _ Hwt0) as (Hb & Hs & Hc & Hr & Hcnt & Hf).
    split; simpl.
    + intros w1 Hl. destruct (Hh w1 Hl) as (wt & Hwt & Hnone).
      destruct (decide (w1 = w)) as [->|Hne].
      * rewrite Hwt0 in Hwt. injection Hwt as <-.
        eexists. split; [apply list_lookup_insert_eq; by eapply lookup_lt_Some|].
        exact Hnone.
      * exists wt. split; [|done]. by rewrite list_lookup_insert_ne.
    + intros w1 wt1 Hwt1. lookup_cases.
      * unfold waiter_inv; simpl. split; [done|].
        split; [discriminate|]. split; [done|]. split; [done|].
        split; done.
      * eapply (waiter_inv_other σ _ w); eauto.
Qed.


(** *** No panic, and the invariant along a run *)

Lemma step_no_panic (ev : event) (σ σ' : Coord) :
  coord_inv σ → coord_step ev σ = Some σ' → panicked σ' = false.
Proof.
  intros (Hnp & Hclose & Htask & Hwait) Hstep.
  step_cases Hstep; try (simpl; assumption); exfalso.
  - (* close(srv.shutdown) on a closed channel *)
    pose proof (ci_inF σ Hclose c ltac:(done)). congruence.
  - (* close(srv.msgCh) on a closed channel *)
    match goal with Hm : msgCh_closed σ = true |- _ =>
      apply (ci_msgCh σ Hclose) in Hm; revert Hm end.
    loop_known. simpl. lia.
  - (* close(srv.shutdownDone) on a closed channel *)
    match goal with Hm : shutdownDone σ = true |- _ =>
      apply (ci_shutdownDone σ Hclose) in Hm; revert Hm end.
    loop_known. simpl. lia.
  - (* wg.Done() on a counter that is zero *)
    match goal with Ht : tasks σ !! t = Some TaskLifecycleDone |- _ =>
      pose proof (count_in_flight_zero (tasks σ) t _
                    ltac:(by rewrite <- (ti_wg σ Htask)) Ht) as Hx end.
    discriminate Hx.
  - (* close(ch) on a closed channel *)
    match goal with Hw : waiters σ !! w = Some _ |- _ =>
      destruct (wi_waiter σ Hwait _ _ Hw) as (_ & _ & Hc & _) end.
    match goal with Hcl : w_ch_closed _ = true |- _ => specialize (Hc Hcl) end.
    congruence.
Qed.

Lemma coord_step_inv (ev : event) (σ σ' : Coord) :
  coord_inv σ → coord_step ev σ = Some σ' → coord_inv σ'.
Proof.
  intros Hinv Hstep. pose proof (step_no_panic ev σ σ' Hinv Hstep) as Hnp.
  destruct Hinv as (_ & Hclose & Htask & Hwait).
  split; [done|]. split; [by eapply step_close_inv|].
  split; [by eapply step_task_inv|]. by eapply step_wait_inv.
Qed.

Lemma coord_run_inv (evs : list event) :
  ∀ σ σ', coord_inv σ → coord_run evs σ = Some σ' → coord_inv σ'.
Proof.
  induction evs as [|ev rest IH]; intros σ σ' Hinv Hrun; simpl in Hrun.
  - by injection Hrun as <-.
  - destruct (coord_step ev σ) as [σ1|] eqn:Hstep; [|done].
    eapply IH; [|exact Hrun]. by eapply coord_step_inv.
Qed.

Lemma coord_init_inv : coord_inv coord_init.
Proof.
  split; [done|]. split; [|split].
  - split; simpl; try done; try (intros; by rewrite lookup_nil in *).
    all: try lia; split; (done || lia).
  - split; [done|]. intros t pc _. simpl. by rewrite lookup_nil.
  - split; simpl; [done|]. intros w wt Hw. by rewrite lookup_nil in Hw.
Qed.

Lemma coord_reachable_inv (σ : Coord) : coord_reachable σ → coord_inv σ.
Proof. intros [evs Hrun]. eapply coord_run_inv; [apply coord_init_inv|done]. Qed.

(** *** What a call of [WaitInFlight] keeps *)

(** No event takes a call of [WaitInFlight] away, changes how many
    messages it was called after, or changes what it has returned. *)
Lemma step_waiter_stable (ev : event) (σ σ' : Coord) (w : nat) (wt : waiter) :
  coord_step ev σ = Some σ' → waiters σ !! w = Some wt →
  ∃ wt', waiters σ' !! w = Some wt' ∧ w_before wt' = w_before wt ∧
    ∀ r, w_pc wt = WaitReturned r → w_pc wt' = WaitReturned r.
Proof.
  intros Hstep Hw. step_cases Hstep; simpl; try (by exists wt).
  all: try (exists wt; split; [|done]; rewrite lookup_app_l; [done|];
            by eapply lookup_lt_Some).
  all: match goal with
       | |- context [<[?w0 := ?x]> _] =>
           destruct (decide (w = w0)) as [->|Hne];
           [ exists x; rewrite list_lookup_insert_eq by (by eapply lookup_lt_Some)
           | exists wt; rewrite list_lookup_insert_ne by done; done ]
       end.
  all: match goal with
       | Ha : waiters _ !! ?w0 = Some ?a, Hb : waiters _ !! ?w0 = Some ?b |- _ =>
           rewrite Ha in Hb; injection Hb as <-
       end.
  all: split; [done|]; split; [done|]; simpl; try done.
  all: intros r Hr; congruence.
Qed.

Lemma run_waiter_stable (evs : list event) :
  ∀ (σ σ' : Coord) (w : nat) (wt : waiter),
  coord_run evs σ = Some σ' → waiters σ !! w = Some wt →
  ∃ wt', waiters σ' !! w = Some wt' ∧ w_before wt' = w_before wt ∧
    ∀ r, w_pc wt = WaitReturned r → w_pc wt' = WaitReturned r.
Proof.
  induction evs as [|ev rest IH]; intros σ σ' w wt Hrun Hw; simpl in Hrun.
  - injection Hrun as <-. by exists wt.
  - destruct (coord_step ev σ) as [σ1|] eqn:Hstep; [|done].
    destruct (step_waiter_stable ev σ σ1 w wt Hstep Hw) as (wt1 & Hw1 & Hb1 & Hr1).
    destruct (IH σ1 σ' w wt1 Hrun Hw1) as (wt' & Hw' & Hb' & Hr').
    exists wt'. split; [done|]. split; [congruence|]. eauto.
Qed.


(** *** The claims *)


(** A step on a call of [WaitInFlight] that has not returned: a closed
    [ctx.Done()] stays closed, and the call has returned nil after the step
    only if the step is the [<-ch] case of its second [select], taken with
    [ch] closed. *)
Lemma step_waiter_returns (ev : event) (σ σ' : Coord) (w : nat) (wt : waiter) :
  coord_step ev σ = Some σ' → waiters σ !! w = Some wt →
  (∀ r, w_pc wt ≠ WaitReturned r) →
  ∃ wt', waiters σ' !! w = Some wt' ∧
    (w_ctx_done wt = true → w_ctx_done wt' = true) ∧
    (w_pc wt' = WaitReturned WaitNil →
       ev = WaitChClosed w ∧ w_pc wt = WaitRecv ∧ w_ch_closed wt = true).
Proof.
  intros Hstep Hw Hpc. step_cases Hstep; simpl.
  all: try (exists wt; split; [done|]; split; [done|];
            intros Hnil; by destruct (Hpc WaitNil)).
  all: try (exists wt; split;
            [rewrite lookup_app_l; [done|by eapply lookup_lt_Some]|];
            split; [done|]; intros Hnil; by destruct (Hpc WaitNil)).
  all: match goal with
       | |- context [<[?w0 := ?x]> _] =>
           destruct (decide (w = w0)) as [->|Hne];
           [ exists x; rewrite list_lookup_insert_eq by (by eapply lookup_lt_Some)
           | exists wt; rewrite list_lookup_insert_ne by done ]
       end.
  all: try (split; [done|]; split; [done|];
            intros Hnil; by destruct (Hpc WaitNil)).
  all: match goal with
       | Ha : waiters _ !! ?w0 = Some ?a, Hb : waiters _ !! ?w0 = Some ?b |- _ =>
           rewrite Ha in Hb; injection Hb as <-
       end.
  all: split; [done|]; split; [done|]; simpl; try done.
  all: intros Hnil; by destruct (Hpc WaitNil).
Qed.

(** A call of [WaitInFlight] returns nil only through the [<-ch] case of
    its second [select], at an instant at which [ch] is closed. *)
Lemma run_nil_return (evs : list event) :
  ∀ (σ σ' : Coord) (w : nat) (wt wt' : waiter),
  coord_run evs σ = Some σ' → waiters σ !! w = Some wt →
  (∀ r, w_pc wt ≠ WaitReturned r) → w_ctx_done wt = true →
  waiters σ' !! w = Some wt' → w_pc wt' = WaitReturned WaitNil →
  ∃ evs_a evs_b σm wtm, evs = (evs_a ++ WaitChClosed w :: evs_b)%list ∧
    coord_run evs_a σ = Some σm ∧ waiters σm !! w = Some wtm ∧
    w_pc wtm = WaitRecv ∧ w_ch_closed wtm = true ∧ w_ctx_done wtm = true.
Proof.
  induction evs as [|ev rest IH]; intros σ σ' w wt wt' Hrun Hw Hpc Hctx Hw' Hnil;
    simpl in Hrun.
  - simplify_eq. by destruct (Hpc WaitNil).
  - destruct (coord_step ev σ) as [σ1|] eqn:Hstep; [|done].
    destruct (step_waiter_returns ev σ σ1 w wt Hstep Hw Hpc)
      as (wt1 & Hw1 & Hctx1 & Hnil1).
    destruct (w_pc wt1) as [| |[|]] eqn:Hpc1.
    + destruct (IH σ1 σ' w wt1 wt' Hrun Hw1) as
        (evs_a & evs_b & σm & wtm & -> & Hrun_a & Hm); [congruence|by eauto|done..|].
      exists (ev :: evs_a), evs_b, σm, wtm. split; [done|].
      split; [|done]. simpl. by rewrite Hstep.
    + destruct (IH σ1 σ' w wt1 wt' Hrun Hw1) as
        (evs_a & evs_b & σm & wtm & -> & Hrun_a & Hm); [congruence|by eauto|done..|].
      exists (ev :: evs_a), evs_b, σm, wtm. split; [done|].
      split; [|done]. simpl. by rewrite Hstep.
    + destruct (Hnil1 eq_refl) as (-> & Hrecv & Hcl).
      exists [], rest, σ, wt. by repeat split.
    + destruct (run_waiter_stable rest σ1 σ' w wt1 Hrun Hw1)
        as (wt2 & Hw2 & _ & Hr2).
      specialize (Hr2 WaitCtxErr Hpc1). congruence.
Qed.

(** C8, amended: once [ctx.Done()] of a call of [WaitInFlight] is closed
    and the call has not returned, it can return through that case of its
    [select]; what it returns then is [ctx.Err()], and it stays what the
    call has returned whatever runs afterwards, the watcher's [wg.Wait()]
    and [close(ch)] included.  In every continuation, as long as [ch] is
    open the call has not returned nil; and a call that has returned nil
    took the [<-ch] case of its second [select] at an instant at which
    [ch] was closed as well as [ctx.Done()], so that both cases were
    ready. *)
Theorem WaitInFlight_deadline (σ : Coord) (w : nat) (wt : waiter) :
  coord_reachable σ →
  waiters σ !! w = Some wt →
  w_ctx_done wt = true →
  (∀ r, w_pc wt ≠ WaitReturned r) →
  (∃ σ', coord_step (WaitCtxDone w) σ = Some σ' ∧
     ∀ evs σ'', coord_run evs σ' = Some σ'' →
       ∃ wt'', waiters σ'' !! w = Some wt'' ∧
         w_pc wt'' = WaitReturned WaitCtxErr) ∧
  (∀ evs σ'' wt'', coord_run evs σ = Some σ'' →
     waiters σ'' !! w = Some wt'' →
     (w_ch_closed wt'' = false → w_pc wt'' ≠ WaitReturned WaitNil) ∧
     (w_pc wt'' = WaitReturned WaitNil →
        ∃ evs_a evs_b σm wtm,
          evs = (evs_a ++ WaitChClosed w :: evs_b)%list ∧
          coord_run evs_a σ = Some σm ∧ waiters σm !! w = Some wtm ∧
          w_pc wtm = WaitRecv ∧ w_ch_closed wtm = true ∧
          w_ctx_done wtm = true)).
Proof.
  intros Hreach Hw Hctx Hpc.
  pose proof (coord_reachable_inv σ Hreach) as Hinv.
  pose proof Hinv as (Hnp & _).
  split.
  - exists (set_waiter w (with_pc (WaitReturned WaitCtxErr) wt) σ). split.
    { unfold coord_step. rewrite Hnp, Hw, Hctx.
      destruct (w_pc wt) eqn:Hp; try done. by destruct (Hpc r). }
    intros evs σ'' Hrun.
    destruct (run_waiter_stable evs _ σ'' w
                (with_pc (WaitReturned WaitCtxErr) wt) Hrun)
      as (wt'' & Hw'' & _ & Hr'').
    { simpl. apply list_lookup_insert_eq. by eapply lookup_lt_Some. }
    exists wt''. split; [done|]. by rewrite (Hr'' WaitCtxErr eq_refl).
  - intros evs σ'' wt'' Hrun Hw''. split.
    + intros Hopen Hnil.
      pose proof (coord_run_inv evs _ _ Hinv Hrun) as (_ & _ & _ & Hwait).
      destruct (wi_waiter σ'' Hwait w wt'' Hw'') as (_ & _ & _ & Hret & _).
      rewrite (Hret Hnil) in Hopen. discriminate.
    + intros Hnil. by eapply run_nil_return.
Qed.

(** C9: when a call of [WaitInFlight] has returned nil, every message the
    loop had received before the call began has executed its
    [wg.Done()]. *)
Theorem WaitInFlight_success (evs1 evs2 : list event) (σ1 σ1' σ2 : Coord)
    (wt : waiter) (t : nat) :
  coord_run evs1 coord_init = Some σ1 →
  coord_step CallWaitInFlight σ1 = Some σ1' →
  coord_run evs2 σ1' = Some σ2 →
  waiters σ2 !! length (waiters σ1) = Some wt →
  w_pc wt = WaitReturned WaitNil →
  t < length (tasks σ1) →
  tasks σ2 !! t = Some TaskFinished.
Proof.
  intros Hrun1 Hcall Hrun2 Hwt Hnil Ht.
  assert (Hinv1 : coord_inv σ1) by (apply coord_reachable_inv; by exists evs1).
  pose proof (coord_step_inv _ _ _ Hinv1 Hcall) as Hinv1'.
  pose proof (coord_run_inv evs2 _ _ Hinv1' Hrun2) as (_ & _ & _ & Hwait).
  unfold coord_step in Hcall. destruct Hinv1 as (Hnp & _).
  rewrite Hnp in Hcall. injection Hcall as <-.
  destruct (run_waiter_stable evs2 _ σ2 (length (waiters σ1))
              (mkWaiter WaitSend false false WatcherNone (length (tasks σ1)))
              Hrun2)
    as (wt' & Hwt' & Hbefore & _).
  { simpl. apply lookup_snoc_Some. right. done. }
  rewrite Hwt in Hwt'. injection Hwt' as <-. simpl in Hbefore.
  destruct (wi_waiter σ2 Hwait _ _ Hwt) as (_ & _ & Hc & Hr & _ & Hf).
  apply Hf; [|lia]. right. apply Hc. by apply Hr.
Qed.

End CoordFacts.

(** ** The coordinator on concrete runs *)



Lemma after_wait_deadline_reachable : coord_reachable after_wait_deadline.
Proof. exists run_wait_deadline. reflexivity. Qed.

(** C8 fails as stated: the deadline of the call passes while a message
    is in its lifecycle and [ch] is open; the message finishes and the
    watcher closes [ch] before the caller's second [select] runs, and the
    call returns nil. *)
Lemma WaitInFlight_deadline_counterexample :
  coord_run run_wait_deadline coord_init = Some after_wait_deadline ∧
  waiters after_wait_deadline !! 0
    = Some (mkWaiter WaitRecv true false WatcherWait 1) ∧
  tasks after_wait_deadline !! 0 = Some TaskRunning ∧
  coord_run run_deadline_then_nil after_wait_deadline
    = Some after_deadline_then_nil ∧
  w_pc <$> waiters after_deadline_then_nil !! 0 = Some (WaitReturned WaitNil).
Proof. repeat split; reflexivity. Qed.

Lemma WaitInFlight_deadline_witness :
  coord_run run_wait_deadline coord_init = Some after_wait_deadline ∧
  (∃ σ', coord_step (WaitCtxDone 0) after_wait_deadline = Some σ' ∧
     ∃ σ'' wt'', coord_run run_watcher_completes σ' = Some σ'' ∧
       waiters σ'' !! 0 = Some wt'' ∧
       w_watcher wt'' = WatcherDone ∧
       w_pc wt'' = WaitReturned WaitCtxErr) ∧
  (∃ evs_a evs_b σm wtm,
     run_deadline_then_nil = (evs_a ++ WaitChClosed 0 :: evs_b)%list ∧
     coord_run evs_a after_wait_deadline = Some σm ∧
     waiters σm !! 0 = Some wtm ∧
     w_pc wtm = WaitRecv ∧ w_ch_closed wtm = true ∧ w_ctx_done wtm = true).
Proof.
  split; [reflexivity|].
  destruct (WaitInFlight_deadline after_wait_deadline 0
              (mkWaiter WaitRecv true false WatcherWait 1)
              after_wait_deadline_reachable eq_refl eq_refl)
    as ((σ' & Hstep & Hafter) & Hruns).
  { intros r. discriminate. }
  split.
  - exists σ'. split; [exact Hstep|].
    injection Hstep as <-.
    eexists. destruct (Hafter run_watcher_completes _ eq_refl)
      as (wt'' & Hw & Hpc).
    exists wt''. split; [reflexivity|].
    split; [exact Hw|]. split; [|exact Hpc].
    simpl in Hw. by injection Hw as <-.
  - destruct (Hruns run_deadline_then_nil after_deadline_then_nil
                (mkWaiter (WaitReturned WaitNil) true true WatcherDone 1)
                eq_refl eq_refl) as [_ Hnil].
    apply Hnil. reflexivity.
Defined.

Lemma WaitInFlight_success_witness :
  coord_run run_one_message coord_init = Some after_one_message ∧
  coord_step CallWaitInFlight after_one_message = Some after_call_wait ∧
  coord_run run_wait_success after_call_wait = Some after_wait_success ∧
  tasks after_wait_success !! 0 = Some TaskFinished.
Proof.
  split; [reflexivity|]. split; [reflexivity|]. split; [reflexivity|].
  apply (WaitInFlight_success run_one_message run_wait_success
           after_one_message after_call_wait after_wait_success
           (mkWaiter (WaitReturned WaitNil) false true WatcherDone 1) 0);
    try reflexivity.
  simpl. lia.
Defined.

(** A message received after the call began is not waited for. *)
Example WaitInFlight_later_message :
  coord_run run_wait_then_message coord_init = Some after_wait_then_message ∧
  w_pc <$> waiters after_wait_then_message !! 0 = Some (WaitReturned WaitNil) ∧
  tasks after_wait_then_message !! 0 = Some TaskRunning.
Proof. repeat split; reflexivity. Qed.

(** * More facts about the routing store *)

Section StoreMore.

Context `{Collaborators}.

Lemma run_one (o : op) (s s' : Server) :
  exec o s = Done () s' → run [o] s = Done () s'.
Proof. intros He. simpl. unfold mbind, M_bind. by rewrite He. Qed.

Lemma run_cons_inv (o : op) (ops : list op) (s s' : Server) :
  run (o :: ops) s = Done () s' →
  ∃ s1, exec o s = Done () s1 ∧ run ops s1 = Done () s'.
Proof.
  simpl. unfold mbind, M_bind. destruct (exec o s) as [[] s1| |]; [|done..].
  intros Hr. by exists s1.
Qed.

(** An induction principle over the states of a server. *)
Lemma reachable_ind (P : Server → Prop) :
  (∀ c s0, NewServer c = Some s0 → P s0) →
  (∀ o s s', reachable s → P s → exec o s = Done () s' → P s') →
  ∀ s, reachable s → P s.
Proof.
  intros Hnew Hstep s (c & s0 & ops & Hc & Hrun).
  assert (Hr0 : reachable s0) by (exists c, s0, []; done).
  pose proof (Hnew c s0 Hc) as HP0. clear Hc Hnew.
  revert s0 Hr0 HP0 Hrun. induction ops as [|o rest IH]; intros s0 Hr0 HP0 Hrun.
  - by injection Hrun as <-.
  - apply run_cons_inv in Hrun as (s1 & He & Hrest).
    apply (IH s1); [|by eapply Hstep|done].
    eapply reachable_run; [exact Hr0|]. by apply run_one.
Qed.

(** X1: on a server that is between two calls, every call of
    [AddNumber], [AddMsgService], [number], [numberSvc] and [nextID] returns:
    no channel operation blocks and no pointer leads outside the heap; and
    it leaves both tables back in their channels, so the next call can
    run. *)
Theorem calls_return (o : op) (s : Server) :
  reachable s →
  ∃ s', exec o s = Done () s' ∧ reachable s' ∧
    is_Some (numbersDB s') ∧ is_Some (msgSvcDB s').
Proof.
  intros Hr. destruct (exec_follows o s (reachable_ok s Hr)) as (s' & He & Hok & _).
  exists s'. split; [done|].
  split; [eapply reachable_run; [exact Hr|by apply run_one]|].
  destruct Hok as (numDB & msDB & -> & -> & _). eauto.
Qed.

(** X2: [AddNumber] returns nil exactly when its input passes the
    checks and [number] finds nothing under the input's number; whenever
    it returns an error, the server state is the one before the call. *)
Theorem AddNumber_nil_iff (n : Number.t) (s : Server) :
  reachable s →
  ∃ r s', AddNumber n s = Done r s' ∧
    (r = None ↔ valid_Number n ∧ number (Number.Number n) s = Done None s) ∧
    (r ≠ None → s' = s).
Proof.
  intros Hr. pose proof (reachable_ok s Hr) as (numDB & msDB & Hn & Hm & Htab & Hsvc).
  rewrite (number_idle _ s numDB Hn).
  destruct (decide (valid_Number n)) as [Hv|Hv].
  2:{ destruct (AddNumber_invalid n s Hv) as (e & He & _).
      exists (Some e), s. split; [done|]. split; [|done].
      split; [done|]. by intros [? _]. }
  destruct (numDB !! Number.Number n) as [p|] eqn:Hk.
  - exists (Some (NumberExists (Number.Number n))), s.
    split; [eapply AddNumber_duplicate; eauto|].
    split; [|done]. split; [done|]. intros [_ [=]].
  - eexists None, _. split; [by apply AddNumber_fresh|].
    split; [|done]. done.
Qed.


Lemma AddNumber_error_unchanged (n : Number.t) (s s' : Server) (e : err) :
  store_ok s → AddNumber n s = Done (Some e) s' → s' = s.
Proof.
  intros (numDB & msDB & Hn & Hm & Htab & Hsvc) Hrun.
  destruct (decide (valid_Number n)) as [Hv|Hv].
  2:{ destruct (AddNumber_invalid n s Hv) as (e' & He & _). congruence. }
  destruct (numDB !! Number.Number n) as [p|] eqn:Hk.
  - pose proof (AddNumber_duplicate n s numDB Hv Hn ltac:(by rewrite Hk)).
    congruence.
  - pose proof (AddNumber_fresh n s numDB Hv Hn Hk). congruence.
Qed.

Lemma AddMsgService_error_unchanged (ms : MsgService.t) (s s' : Server) (e : err) :
  store_ok s → AddMsgService ms s = Done (Some e) s' → s' = s.
Proof.
  intros (numDB & msDB & Hn & Hm & Htab & Hsvc) Hrun.
  destruct (decide (valid_MsgService ms)) as [Hv|Hv].
  2:{ destruct (AddMsgService_invalid ms s Hv) as (e' & He & _). congruence. }
  destruct (msDB !! MsgService.ID ms) as [ps|] eqn:Hk.
  - pose proof (AddMsgService_duplicate ms s msDB Hv Hm ltac:(by rewrite Hk)).
    congruence.
  - destruct (AddMsgService_fresh ms s numDB msDB Hv Hn Hm Htab Hk)
      as (numDB' & h' & ps & Hrun' & _).
    congruence.
Qed.

(** What a call has done to the state: nothing, a registration, or one
    more ID. *)
Lemma exec_cases (o : op) (s s' : Server) :
  store_ok s → exec o s = Done () s' →
  s' = s ∨
  (∃ n, o = OpAddNumber n ∧ AddNumber n s = Done None s') ∨
  (∃ ms, o = OpAddMsgService ms ∧ AddMsgService ms s = Done None s') ∨
  (∃ prefix, o = OpNextID prefix ∧ s' = set_id ((id s + 1) mod 2 ^ 64)%N s).
Proof.
  intros Hok He. pose proof Hok as (numDB & msDB & Hn & Hm & _).
  destruct o as [n|ms|k|sid|prefix]; simpl in He;
    unfold mbind, M_bind, mret, M_ret in He.
  - destruct (AddNumber n s) as [[e|] s1| |] eqn:Hrun; simplify_eq.
    + left. by eapply AddNumber_error_unchanged.
    + right. left. eauto.
  - destruct (AddMsgService ms s) as [[e|] s1| |] eqn:Hrun; simplify_eq.
    + left. by eapply AddMsgService_error_unchanged.
    + right. right. left. eauto.
  - rewrite (number_idle k s numDB Hn) in He. left. by simplify_eq.
  - rewrite (numberSvc_idle sid s msDB Hm) in He. left. by simplify_eq.
  - right. right. right. exists prefix. split; [done|].
    by injection He as <-.
Qed.

(** Every list of the service table has a member. *)
Lemma svc_nonempty (s : Server) :
  reachable s →
  ∀ msDB sid ps, msgSvcDB s = Some msDB → msDB !! sid = Some ps → ps ≠ [].
Proof.
  revert s.
  apply (reachable_ind (λ s, ∀ msDB sid ps,
           msgSvcDB s = Some msDB → msDB !! sid = Some ps → ps ≠ [])).
  - intros c s0. unfold NewServer. case_decide; [done|]. intros [= <-].
    simpl. intros msDB sid ps [= <-]. by rewrite lookup_empty.
  - intros o s s' Hr IH He.
    pose proof (reachable_ok s Hr) as Hok.
    pose proof Hok as (numDB & msDB & Hn & Hm & Htab & Hsvc).
    destruct (exec_cases o s s' Hok He)
      as [->|[(n & -> & Hrun)|[(ms & -> & Hrun)|(prefix & -> & ->)]]].
    + done.
    + destruct (AddNumber_ok_inv n s s' numDB Hn Hrun) as (_ & _ & ->).
      simpl. exact IH.
    + destruct (AddMsgService_ok_inv ms s s' numDB msDB Hn Hm Htab Hrun)
        as (Hv & Hfresh & numDB' & ps & Hn' & Hm' & _ & _ & _ & _ & _ & Hps).
      intros msDB' sid qs Hm'' Hqs. rewrite Hm' in Hm''. injection Hm'' as <-.
      case_decide as Hnil; [by eapply IH|].
      apply lookup_insert_Some in Hqs as [[_ <-]|[_ Hqs]]; [|by eapply IH].
      intros ->. apply Forall2_nil_inv_r in Hps. done.
    + simpl. exact IH.
Qed.

(** X3: [AddMsgService] returns nil exactly when its input passes the
    checks and [numberSvc] returns no member for the input's ID; whenever
    it returns an error, the server state is the one before the call. *)
Theorem AddMsgService_nil_iff (ms : MsgService.t) (s : Server) :
  reachable s →
  ∃ r s', AddMsgService ms s = Done r s' ∧
    (r = None ↔
       valid_MsgService ms ∧ numberSvc (MsgService.ID ms) s = Done [] s) ∧
    (r ≠ None → s' = s).
Proof.
  intros Hr. pose proof (reachable_ok s Hr) as Hok.
  pose proof Hok as (numDB & msDB & Hn & Hm & Htab & Hsvc).
  rewrite (numberSvc_idle _ s msDB Hm).
  destruct (decide (valid_MsgService ms)) as [Hv|Hv].
  2:{ destruct (AddMsgService_invalid ms s Hv) as (e & He & _).
      exists (Some e), s. split; [done|]. split; [|done].
      split; [done|]. by intros [? _]. }
  destruct (msDB !! MsgService.ID ms) as [ps|] eqn:Hk.
  - exists (Some (SIDExists (MsgService.ID ms))), s.
    split; [eapply AddMsgService_duplicate; eauto|].
    split; [|done]. split; [done|]. simpl. intros [_ [= ->]].
    exfalso. by apply (svc_nonempty s Hr msDB _ _ Hm Hk).
  - destruct (AddMsgService_fresh ms s numDB msDB Hv Hn Hm Htab Hk)
      as (numDB' & h' & ps & Hrun' & _).
    eexists None, _. split; [exact Hrun'|]. split; [|done]. done.
Qed.


(** X4: a successful [AddNumber] touches nothing but the new number:
    [number] returns for every other identity the pointer it returned
    before, with the same record behind it, and [numberSvc] returns for
    every service the members it returned before, with the same records
    behind them. *)
Theorem AddNumber_frame (n : Number.t) (s s' : Server) :
  reachable s →
  AddNumber n s = Done None s' →
  (∀ k q, k ≠ Number.Number n → number k s = Done q s →
     number k s' = Done q s' ∧ lookupNumber k s' = lookupNumber k s) ∧
  (∀ sid ps, numberSvc sid s = Done ps s →
     numberSvc sid s' = Done ps s' ∧
     lookupServiceNumbers sid s' = lookupServiceNumbers sid s).
Proof.
  intros Hr Hrun.
  pose proof (reachable_ok s Hr) as (numDB & msDB & Hn & Hm & Htab & Hsvc).
  destruct (AddNumber_ok_inv n s s' numDB Hn Hrun) as (Hv & Hfresh & ->).
  split.
  - intros k q Hk. rewrite (number_idle k s numDB Hn). intros [= <-].
    erewrite number_idle by reflexivity.
    rewrite (lookupNumber_idle k s numDB Hn).
    erewrite lookupNumber_idle by reflexivity. simpl.
    rewrite lookup_insert_ne by done. split; [done|].
    destruct (numDB !! k) as [p|] eqn:Hkp; [|done]. simpl.
    destruct (Htab _ _ Hkp) as (r & Hp & _).
    rewrite lookup_app_l; [done|]. by eapply lookup_lt_Some.
  - intros sid ps. rewrite (numberSvc_idle sid s msDB Hm). intros [= <-].
    erewrite numberSvc_idle by exact Hm. split; [done|].
    rewrite (lookupServiceNumbers_idle sid s msDB Hm).
    erewrite lookupServiceNumbers_idle by exact Hm.
    destruct (msDB !! sid) as [ps|] eqn:Hps; [|done]. simpl.
    apply list_fmap_ext. intros i p Hp. unfold deref. simpl.
    destruct (Hsvc sid ps p Hps) as (k & Hkp);
      [by eapply list_elem_of_lookup_2|].
    destruct (Htab _ _ Hkp) as (r & Hr' & _).
    rewrite lookup_app_l; [done|]. by eapply lookup_lt_Some.
Qed.

(** X5: a number is never removed and never moved: once [number]
    returns a pointer for an identity, it returns the same pointer after
    any sequence of calls, and the record behind it carries that identity
    in its [Number] field. *)
Theorem number_pointer_stable (k : string) (p : loc) (s s' : Server) (ops : list op) :
  reachable s →
  number k s = Done (Some p) s →
  run ops s = Done () s' →
  number k s' = Done (Some p) s' ∧
  ∃ r, deref s' p = Some r ∧ Number.Number r = k.
Proof.
  intros Hr Hnum Hrun. pose proof (reachable_ok s Hr) as Hok.
  pose proof Hok as (numDB & msDB & Hn & Hm & Htab & Hsvc).
  rewrite (number_idle k s numDB Hn) in Hnum. injection Hnum as Hkp.
  destruct (run_follows ops s Hok) as (s'' & Hrun' & Hok' & Hmono & _).
  rewrite Hrun in Hrun'. injection Hrun' as <-.
  destruct Hok' as (numDB' & msDB' & Hn' & Hm' & Htab' & Hsvc').
  pose proof (Hmono numDB numDB' k p Hn Hn' Hkp) as Hkp'.
  rewrite (number_idle k s' numDB' Hn'), Hkp'. split; [done|].
  by apply Htab'.
Qed.

(** X6: two identities never share a record: in every state of the
    server, [number] returns different pointers for different numbers. *)
Theorem number_no_alias (k1 k2 : string) (p : loc) (s : Server) :
  reachable s →
  number k1 s = Done (Some p) s →
  number k2 s = Done (Some p) s →
  k1 = k2.
Proof.
  intros Hr H1 H2.
  pose proof (reachable_ok s Hr) as (numDB & msDB & Hn & Hm & Htab & Hsvc).
  rewrite (number_idle k1 s numDB Hn) in H1.
  rewrite (number_idle k2 s numDB Hn) in H2.
  injection H1 as H1. injection H2 as H2. by eapply tables_ok_inj.
Qed.

(** X7: the members of a service are numbers of the store: every pointer
    [numberSvc] returns leads to a record, and [number] returns that very
    pointer for the record's number. *)
Theorem service_members_registered (sid : string) (ps : list loc) (p : loc)
    (s : Server) :
  reachable s →
  numberSvc sid s = Done ps s →
  p ∈ ps →
  ∃ r, deref s p = Some r ∧ number (Number.Number r) s = Done (Some p) s.
Proof.
  intros Hr Hsid Hp.
  pose proof (reachable_ok s Hr) as (numDB & msDB & Hn & Hm & Htab & Hsvc).
  rewrite (numberSvc_idle sid s msDB Hm) in Hsid. injection Hsid as <-.
  destruct (msDB !! sid) as [ps|] eqn:Hps; [|by apply elem_of_nil in Hp].
  destruct (Hsvc sid ps p Hps Hp) as (k & Hkp).
  destruct (Htab _ _ Hkp) as (r & Hr' & <-).
  exists r. split; [done|]. by rewrite (number_idle _ s numDB Hn), Hkp.
Qed.

(** X8: the member list of a service is fixed at its registration: once
    [numberSvc] returns a non-empty list for an ID, it returns the same
    list after any sequence of calls. *)
Theorem service_members_fixed (sid : string) (ps : list loc) (s s' : Server)
    (ops : list op) :
  reachable s →
  numberSvc sid s = Done ps s →
  ps ≠ [] →
  run ops s = Done () s' →
  numberSvc sid s' = Done ps s'.
Proof.
  intros Hr Hsid Hne Hrun. pose proof (reachable_ok s Hr) as Hok.
  pose proof Hok as (numDB & msDB & Hn & Hm & Htab & Hsvc).
  rewrite (numberSvc_idle sid s msDB Hm) in Hsid. injection Hsid as Hps.
  destruct (msDB !! sid) as [qs|] eqn:Hqs; simpl in Hps; [subst qs|congruence].
  destruct (run_follows ops s Hok) as (s'' & Hrun' & Hok' & _ & Hsv & _).
  rewrite Hrun in Hrun'. injection Hrun' as <-.
  destruct Hok' as (numDB' & msDB' & Hn' & Hm' & _).
  rewrite (numberSvc_idle sid s' msDB' Hm').
  by rewrite (Hsv msDB msDB' sid ps Hm Hm' Hqs).
Qed.


(** What one call does to the record of a number: nothing, or the
    override of a service that lists it. *)
Lemma exec_record (o : op) (s s' : Server) (k : string) (r : Number.t) :
  store_ok s → exec o s = Done () s' → lookupNumber k s = Some r →
  lookupNumber k s' = Some r ∨
  ∃ ms, o = OpAddMsgService ms ∧ k ∈ MsgService.Numbers ms ∧
    MsgService.SMSWebhookURL ms ≠ "" ∧
    lookupNumber k s' =
      Some (Number.with_SMSWebhookURL (MsgService.SMSWebhookURL ms) r).
Proof.
  intros Hok He Hr.
  destruct (exec_follows o s Hok) as (s'' & He' & _ & _ & _ & Hfr).
  rewrite He in He'. injection He' as <-.
  assert (Hcase : ¬ overrides k o ∨
            ∃ ms, o = OpAddMsgService ms ∧ k ∈ MsgService.Numbers ms ∧
                  MsgService.SMSWebhookURL ms ≠ "").
  { destruct o as [n|ms|k0|sid|prefix]; simpl; try (left; tauto).
    destruct (decide (MsgService.SMSWebhookURL ms = "")) as [Hu|Hu];
      [left; tauto|].
    destruct (decide (k ∈ MsgService.Numbers ms)) as [Hk|Hk];
      [right; eauto|left; tauto]. }
  destruct Hcase as [Hno|(ms & -> & Hk & Hu)]; [left; by apply Hfr|].
  destruct (exec_cases _ s s' Hok He)
    as [->|[(n & [=] & _)|[(ms' & [= <-] & Hrun)|(prefix & [=] & _)]]];
    [by left|right].
  exists ms. split; [done|]. split; [done|]. split; [done|].
  pose proof Hok as (numDB & msDB & Hn & Hm & Htab & Hsvc).
  destruct (AddMsgService_ok_inv ms s s' numDB msDB Hn Hm Htab Hrun)
    as (_ & _ & numDB' & ps & Hn' & _ & _ & _ & _ & _ & Hin & _).
  destruct (Hin k Hk) as (p & r0 & Hkp & Hp & Hold).
  rewrite (lookupNumber_idle k s numDB Hn) in Hr.
  rewrite (lookupNumber_idle k s' numDB' Hn'), Hkp. simpl. rewrite Hp.
  destruct (numDB !! k) as [p0|]; [|done]. simpl in Hr.
  destruct Hold as [-> Hr0]. rewrite Hr in Hr0. injection Hr0 as <-.
  unfold override. by rewrite decide_False.
Qed.

(** X9: the [Number] and the [VoiceWebhookURL] of a registered number
    never change, whatever is called afterwards; its [SMSWebhookURL] is
    either the one it had or the non-empty [SMSWebhookURL] of a service
    among the later calls that lists the number. *)
Theorem number_fields_stable (k : string) (r : Number.t) (s s' : Server)
    (ops : list op) :
  reachable s →
  lookupNumber k s = Some r →
  run ops s = Done () s' →
  ∃ r', lookupNumber k s' = Some r' ∧
    Number.Number r' = Number.Number r ∧
    Number.VoiceWebhookURL r' = Number.VoiceWebhookURL r ∧
    (Number.SMSWebhookURL r' = Number.SMSWebhookURL r ∨
     ∃ ms, OpAddMsgService ms ∈ ops ∧ k ∈ MsgService.Numbers ms ∧
       MsgService.SMSWebhookURL ms ≠ "" ∧
       Number.SMSWebhookURL r' = MsgService.SMSWebhookURL ms).
Proof.
  intros Hr. revert s Hr r.
  induction ops as [|o rest IH]; intros s Hr r Hlk Hrun.
  - injection Hrun as <-. exists r. eauto.
  - apply run_cons_inv in Hrun as (s1 & He & Hrest).
    assert (Hr1 : reachable s1)
      by (eapply reachable_run; [exact Hr|by apply run_one]).
    destruct (exec_record o s s1 k r (reachable_ok s Hr) He Hlk)
      as [Hsame|(ms & -> & Hk & Hu & Hnew)].
    + destruct (IH s1 Hr1 r Hsame Hrest) as (r' & Hlk' & Hnum & Hvoice & Hsms).
      exists r'. split; [done|]. split; [done|]. split; [done|].
      destruct Hsms as [?|(ms & Hin & ?)]; [by left|right].
      exists ms. split; [by apply list_elem_of_further|done].
    + destruct (IH s1 Hr1 _ Hnew Hrest) as (r' & Hlk' & Hnum & Hvoice & Hsms).
      exists r'. split; [done|]. split; [done|]. split; [done|]. right.
      destruct Hsms as [Hsame|(ms' & Hin & ?)].
      * exists ms. split; [by apply list_elem_of_here|]. done.
      * exists ms'. split; [by apply list_elem_of_further|done].
Qed.

(** What one call leaves absent. *)
Lemma exec_absent (o : op) (s s' : Server) (k sid : string) numDB msDB :
  store_ok s → exec o s = Done () s' →
  numbersDB s = Some numDB → msgSvcDB s = Some msDB →
  ∃ numDB' msDB', numbersDB s' = Some numDB' ∧ msgSvcDB s' = Some msDB' ∧
    (¬ targets k o → numDB !! k = None → numDB' !! k = None) ∧
    (¬ registers sid o → msDB !! sid = None → msDB' !! sid = None).
Proof.
  intros Hok He Hn Hm.
  destruct (exec_cases o s s' Hok He)
    as [->|[(n & -> & Hrun)|[(ms & -> & Hrun)|(prefix & -> & ->)]]].
  - exists numDB, msDB. done.
  - destruct (AddNumber_ok_inv n s s' numDB Hn Hrun) as (_ & _ & ->).
    eexists _, msDB. split; [reflexivity|]. split; [done|]. split; [|done].
    simpl. intros Hne Hk. by rewrite lookup_insert_ne.
  - pose proof Hok as (numDB0 & msDB0 & Hn0 & Hm0 & Htab & _).
    rewrite Hn in Hn0. injection Hn0 as <-.
    rewrite Hm in Hm0. injection Hm0 as <-.
    destruct (AddMsgService_ok_inv ms s s' numDB msDB Hn Hm Htab Hrun)
      as (_ & _ & numDB' & ps & Hn' & Hm' & _ & Hne & _).
    eexists numDB', _. split; [done|]. split; [exact Hm'|]. split.
    + simpl. intros Hk Hnone. by rewrite (Hne k Hk).
    + simpl. intros Hsid Hnone. case_decide; [done|].
      by rewrite lookup_insert_ne.
  - exists numDB, msDB. done.
Qed.

Lemma absent_number (ops : list op) (k : string) :
  ∀ s0 s numDB, reachable s0 → numbersDB s0 = Some numDB →
  numDB !! k = None → run ops s0 = Done () s →
  Forall (λ o, ¬ targets k o) ops → number k s = Done None s.
Proof.
  induction ops as [|o rest IH]; intros s0 s numDB Hr0 Hn Hk Hrun Hall.
  - injection Hrun as <-. by rewrite (number_idle k s0 numDB Hn), Hk.
  - apply run_cons_inv in Hrun as (s1 & He & Hrest).
    apply Forall_cons in Hall as [Ho Hall].
    pose proof (reachable_ok s0 Hr0) as Hok.
    pose proof Hok as (numDB0 & msDB & Hn0 & Hm & _).
    rewrite Hn in Hn0. injection Hn0 as <-.
    destruct (exec_absent o s0 s1 k "" numDB msDB Hok He Hn Hm)
      as (numDB1 & msDB1 & Hn1 & _ & Hk1 & _).
    apply (IH s1 s numDB1); [|done|by apply Hk1|done|done].
    eapply reachable_run; [exact Hr0|by apply run_one].
Qed.

Lemma absent_service (ops : list op) (sid : string) :
  ∀ s0 s msDB, reachable s0 → msgSvcDB s0 = Some msDB →
  msDB !! sid = None → run ops s0 = Done () s →
  Forall (λ o, ¬ registers sid o) ops → numberSvc sid s = Done [] s.
Proof.
  induction ops as [|o rest IH]; intros s0 s msDB Hr0 Hm Hsid Hrun Hall.
  - injection Hrun as <-. by rewrite (numberSvc_idle sid s0 msDB Hm), Hsid.
  - apply run_cons_inv in Hrun as (s1 & He & Hrest).
    apply Forall_cons in Hall as [Ho Hall].
    pose proof (reachable_ok s0 Hr0) as Hok.
    pose proof Hok as (numDB & msDB0 & Hn & Hm0 & _).
    rewrite Hm in Hm0. injection Hm0 as <-.
    destruct (exec_absent o s0 s1 "" sid numDB msDB Hok He Hn Hm)
      as (numDB1 & msDB1 & _ & Hm1 & _ & Hsid1).
    apply (IH s1 s msDB1); [|done|by apply Hsid1|done|done].
    eapply reachable_run; [exact Hr0|by apply run_one].
Qed.

(** X10: what nobody registered is not there: after any calls on a new
    server, [number] returns nil for an identity that none of the calls
    names, and [numberSvc] returns no member for an ID that none of the
    calls registers. *)
Theorem absent_unless_registered (c : Config) (s0 s : Server) (ops : list op)
    (k sid : string) :
  NewServer c = Some s0 →
  run ops s0 = Done () s →
  (Forall (λ o, ¬ targets k o) ops → number k s = Done None s) ∧
  (Forall (λ o, ¬ registers sid o) ops → numberSvc sid s = Done [] s).
Proof.
  intros Hnew Hrun.
  assert (Hr0 : reachable s0) by (exists c, s0, []; done).
  unfold NewServer in Hnew. case_decide; [done|]. injection Hnew as <-.
  split; intros Hall.
  - eapply (absent_number ops k); [exact Hr0|reflexivity|apply lookup_empty|done..].
  - eapply (absent_service ops sid); [exact Hr0|reflexivity|apply lookup_empty|done..].
Qed.

(** X11: a successful [AddMsgService] keeps what it does not name: a
    number that is not a member keeps its pointer and its record, every
    other service keeps its member list, and without an override every
    number keeps its record. *)
Theorem AddMsgService_frame (ms : MsgService.t) (s s' : Server) :
  reachable s →
  AddMsgService ms s = Done None s' →
  (∀ k q, k ∉ MsgService.Numbers ms → number k s = Done q s →
     number k s' = Done q s' ∧ lookupNumber k s' = lookupNumber k s) ∧
  (∀ sid ps, sid ≠ MsgService.ID ms → numberSvc sid s = Done ps s →
     numberSvc sid s' = Done ps s') ∧
  (MsgService.SMSWebhookURL ms = "" →
     ∀ k r, lookupNumber k s = Some r → lookupNumber k s' = Some r).
Proof.
  intros Hr Hrun. pose proof (reachable_ok s Hr) as Hok.
  pose proof Hok as (numDB & msDB & Hn & Hm & Htab & Hsvc).
  destruct (AddMsgService_ok_inv ms s s' numDB msDB Hn Hm Htab Hrun)
    as (Hv & Hfresh & numDB' & ps & Hn' & Hm' & Htab' & Hne & Hmono & Hfr
        & Hin & Hps).
  split; [|split].
  - intros k q Hk. rewrite (number_idle k s numDB Hn). intros [= <-].
    rewrite (number_idle k s' numDB' Hn'), (Hne k Hk). split; [done|].
    rewrite (lookupNumber_idle k s numDB Hn), (lookupNumber_idle k s' numDB' Hn').
    rewrite (Hne k Hk). destruct (numDB !! k) as [p|] eqn:Hkp; [|done].
    simpl. by apply (Hfr k).
  - intros sid qs Hsid. rewrite (numberSvc_idle sid s msDB Hm). intros [= <-].
    erewrite numberSvc_idle by exact Hm'. case_decide; [done|].
    by rewrite lookup_insert_ne.
  - intros Hu k r Hlk.
    destruct (AddMsgService_follows ms s Hok) as (e & s'' & Hrun' & _ & _ & _ & Hfr').
    rewrite Hrun in Hrun'. injection Hrun' as <- <-.
    apply (Hfr' k r); [|done]. simpl. tauto.
Qed.

(** X12: the error of [AddMsgService] for a malformed member is the
    error of the first one: with a well-formed ID and override, and the
    members before [k] accepted by the parser, the call returns the
    invalid-number error for [k], and the state is unchanged. *)
Theorem AddMsgService_first_malformed (ms : MsgService.t) (s : Server)
    (pre post : list string) (k cause : string) :
  String.prefix "MG" (MsgService.ID ms) = true →
  (MsgService.SMSWebhookURL ms ≠ "" →
     validateURL (MsgService.SMSWebhookURL ms) = None) →
  MsgService.Numbers ms = (pre ++ k :: post)%list →
  Forall (λ nStr, libphonenumber_Parse nStr = None) pre →
  libphonenumber_Parse k = Some cause →
  AddMsgService ms s = Done (Some (InvalidPhoneNumber k cause)) s.
Proof.
  intros Hp Hu Hnums Hpre Hk. unfold AddMsgService. rewrite Hp. simpl.
  assert (Hm : parse_members (MsgService.Numbers ms)
               = Some (InvalidPhoneNumber k cause)).
  { rewrite Hnums. clear Hnums. induction Hpre as [|x pre Hx Hpre IH]; simpl.
    - by rewrite Hk.
    - by rewrite Hx. }
  rewrite Hm.
  destruct (decide (MsgService.SMSWebhookURL ms ≠ "")) as [Hs|Hs];
    [rewrite (Hu Hs)|]; reflexivity.
Qed.


(** *** The store and the counter *)

Lemma counter_free_ret {A : Type} (a : A) : counter_free (mret a).
Proof. intros v s. reflexivity. Qed.

Lemma counter_free_bind {A B : Type} (m : M A) (f : A → M B) :
  counter_free m → (∀ a, counter_free (f a)) → counter_free (m ≫= f).
Proof.
  intros Hm Hf v s. unfold mbind, M_bind. rewrite Hm.
  destruct (m s) as [a s1| |]; simpl; [apply Hf|done..].
Qed.

Lemma counter_free_recv_numbersDB : counter_free recv_numbersDB.
Proof. intros v s. unfold recv_numbersDB. simpl. by destruct (numbersDB s). Qed.

Lemma counter_free_send_numbersDB db : counter_free (send_numbersDB db).
Proof. intros v s. unfold send_numbersDB. simpl. by destruct (numbersDB s). Qed.

Lemma counter_free_recv_msgSvcDB : counter_free recv_msgSvcDB.
Proof. intros v s. unfold recv_msgSvcDB. simpl. by destruct (msgSvcDB s). Qed.

Lemma counter_free_send_msgSvcDB db : counter_free (send_msgSvcDB db).
Proof. intros v s. unfold send_msgSvcDB. simpl. by destruct (msgSvcDB s). Qed.

Lemma counter_free_alloc n : counter_free (alloc n).
Proof. intros v s. reflexivity. Qed.

Lemma counter_free_store p u : counter_free (store_SMSWebhookURL p u).
Proof.
  intros v s. unfold store_SMSWebhookURL. simpl. by destruct (heap s !! p).
Qed.

Ltac counter_free_tac :=
  repeat first
    [ apply counter_free_ret
    | apply counter_free_recv_numbersDB
    | apply counter_free_send_numbersDB
    | apply counter_free_recv_msgSvcDB
    | apply counter_free_send_msgSvcDB
    | apply counter_free_alloc
    | apply counter_free_store
    | apply counter_free_bind; [|intros ?]
    | case_match ].

Lemma counter_free_number (k : string) : counter_free (number k).
Proof. unfold number. counter_free_tac. Qed.

Lemma counter_free_numberSvc (sid : string) : counter_free (numberSvc sid).
Proof. unfold numberSvc. counter_free_tac. Qed.

Lemma counter_free_AddNumber (n : Number.t) : counter_free (AddNumber n).
Proof. unfold AddNumber. counter_free_tac. Qed.

Lemma counter_free_add_member ms k numDB msDB :
  counter_free (add_member ms k numDB msDB).
Proof. unfold add_member. counter_free_tac. Qed.

Lemma counter_free_add_members ms nums :
  ∀ numDB msDB, counter_free (add_members ms nums numDB msDB).
Proof.
  induction nums as [|k rest IH]; intros numDB msDB; simpl.
  - apply counter_free_ret.
  - apply counter_free_bind; [apply counter_free_add_member|].
    intros [numDB' msDB']. apply IH.
Qed.

Lemma counter_free_AddMsgService (ms : MsgService.t) :
  counter_free (AddMsgService ms).
Proof.
  unfold AddMsgService.
  repeat first
    [ apply counter_free_ret
    | apply counter_free_recv_numbersDB
    | apply counter_free_send_numbersDB
    | apply counter_free_recv_msgSvcDB
    | apply counter_free_send_msgSvcDB
    | apply counter_free_add_members
    | apply counter_free_bind; [|intros ?]
    | case_match ].
Qed.

Lemma counter_free_exec (o : op) :
  (∀ prefix, o ≠ OpNextID prefix) → counter_free (exec o).
Proof.
  intros Hno. destruct o as [n|ms|k|sid|prefix]; simpl.
  - apply counter_free_bind; [apply counter_free_AddNumber|intros; apply counter_free_ret].
  - apply counter_free_bind; [apply counter_free_AddMsgService|intros; apply counter_free_ret].
  - apply counter_free_bind; [apply counter_free_number|intros; apply counter_free_ret].
  - apply counter_free_bind; [apply counter_free_numberSvc|intros; apply counter_free_ret].
  - by destruct (Hno prefix).
Qed.

Lemma set_id_id (s : Server) : set_id (id s) s = s.
Proof. by destruct s. Qed.

(** X13: the store and the ID issuer do not see each other: a call of
    [AddNumber], [AddMsgService], [number] or [numberSvc] leaves the counter
    as it is, and it has the same outcome before and after a call of
    [nextID], which returns the same ID before and after it; both orders
    end in the same state. *)
Theorem nextID_commutes (o : op) (prefix : string) (s s1 : Server) :
  (∀ p, o ≠ OpNextID p) →
  exec o s = Done () s1 →
  id s1 = id s ∧
  ∃ x s2 s', nextID prefix s = Done x s2 ∧
    nextID prefix s1 = Done x s' ∧ exec o s2 = Done () s'.
Proof.
  intros Hno He. pose proof (counter_free_exec o Hno) as Hfree.
  assert (Hid : id s1 = id s).
  { pose proof (Hfree (id s) s) as Hx. rewrite set_id_id, He in Hx.
    simpl in Hx. injection Hx as Hx. by rewrite Hx. }
  split; [done|].
  exists (Sprintf_s_032d prefix ((id s + 1) mod 2 ^ 64)%N),
    (set_id ((id s + 1) mod 2 ^ 64)%N s),
    (set_id ((id s + 1) mod 2 ^ 64)%N s1).
  split; [reflexivity|]. split.
  - unfold nextID, mbind, M_bind, atomic_AddUint64_id. simpl. by rewrite Hid.
  - by rewrite Hfree, He.
Qed.

End StoreMore.

(** ** More of the contract on a concrete server *)

Lemma after_svc1_reachable : reachable (H := demo) after_svc1.
Proof.
  apply (reachable_run (H := demo) [OpAddNumber num1; OpAddMsgService svc1]
           demo_Server).
  - exact demo_Server_reachable.
  - vm_compute; reflexivity.
Qed.

Lemma after_svc1_num2_reachable : reachable (H := demo) after_svc1_num2.
Proof.
  apply (reachable_run (H := demo) [OpAddNumber num2] after_svc1).
  - exact after_svc1_reachable.
  - vm_compute; reflexivity.
Qed.

Lemma calls_return_witness :
  ∃ s', exec (H := demo) (OpAddMsgService svc3) after_svc1_num2 = Done () s' ∧
    reachable (H := demo) s' ∧
    is_Some (numbersDB s') ∧ is_Some (msgSvcDB s').
Proof.
  apply (calls_return (H := demo) (OpAddMsgService svc3) after_svc1_num2).
  exact after_svc1_num2_reachable.
Defined.

Lemma AddNumber_nil_iff_witness :
  ∃ r s', AddNumber (H := demo) num2 after_svc1 = Done r s' ∧
    (r = None ↔
       valid_Number (H := demo) num2 ∧
       number "+15550005678" after_svc1 = Done None after_svc1) ∧
    (r ≠ None → s' = after_svc1).
Proof.
  apply (AddNumber_nil_iff (H := demo) num2 after_svc1).
  exact after_svc1_reachable.
Defined.

Lemma AddMsgService_nil_iff_witness :
  ∃ r s', AddMsgService (H := demo) svc1 after_svc1 = Done r s' ∧
    (r = None ↔
       valid_MsgService (H := demo) svc1 ∧
       numberSvc "MG0001" after_svc1 = Done [] after_svc1) ∧
    (r ≠ None → s' = after_svc1).
Proof.
  apply (AddMsgService_nil_iff (H := demo) svc1 after_svc1).
  exact after_svc1_reachable.
Defined.

Lemma AddNumber_frame_witness :
  AddNumber (H := demo) num2 after_svc1 = Done None after_svc1_num2 ∧
  (number "+15550009999" after_svc1_num2 = Done (Some 1) after_svc1_num2 ∧
   lookupNumber "+15550009999" after_svc1_num2
     = lookupNumber "+15550009999" after_svc1) ∧
  (numberSvc "MG0001" after_svc1_num2 = Done [0; 1] after_svc1_num2 ∧
   lookupServiceNumbers "MG0001" after_svc1_num2
     = lookupServiceNumbers "MG0001" after_svc1).
Proof.
  split; [vm_compute; reflexivity|].
  destruct (AddNumber_frame (H := demo) num2 after_svc1 after_svc1_num2)
    as [Hnum Hsvc].
  - exact after_svc1_reachable.
  - vm_compute; reflexivity.
  - split.
    + apply Hnum; [done|vm_compute; reflexivity].
    + apply Hsvc. vm_compute; reflexivity.
Defined.

Lemma number_pointer_stable_witness :
  number "+15550001234" after_svc1 = Done (Some 0) after_svc1 ∧
  run (H := demo) [OpAddNumber num2; OpAddMsgService svc3] after_svc1
    = Done () after_svc1_num2_svc3 ∧
  number "+15550001234" after_svc1_num2_svc3
    = Done (Some 0) after_svc1_num2_svc3 ∧
  ∃ r, deref after_svc1_num2_svc3 0 = Some r ∧
    Number.Number r = "+15550001234".
Proof.
  split; [vm_compute; reflexivity|].
  split; [vm_compute; reflexivity|].
  apply (number_pointer_stable (H := demo) "+15550001234" 0 after_svc1
           after_svc1_num2_svc3 [OpAddNumber num2; OpAddMsgService svc3]).
  - exact after_svc1_reachable.
  - vm_compute; reflexivity.
  - vm_compute; reflexivity.
Defined.

Lemma number_no_alias_witness :
  number "+15550009999" after_svc1 = Done (Some 1) after_svc1 ∧
  "+15550009999" = "+15550009999".
Proof.
  split; [vm_compute; reflexivity|].
  apply (number_no_alias (H := demo) "+15550009999" "+15550009999" 1
           after_svc1).
  - exact after_svc1_reachable.
  - vm_compute; reflexivity.
  - vm_compute; reflexivity.
Defined.

Lemma service_members_registered_witness :
  numberSvc "MG0001" after_svc1 = Done [0; 1] after_svc1 ∧
  ∃ r, deref after_svc1 1 = Some r ∧
    number (Number.Number r) after_svc1 = Done (Some 1) after_svc1.
Proof.
  split; [vm_compute; reflexivity|].
  apply (service_members_registered (H := demo) "MG0001" [0; 1] 1 after_svc1).
  - exact after_svc1_reachable.
  - vm_compute; reflexivity.
  - rewrite !elem_of_cons. tauto.
Defined.

Lemma service_members_fixed_witness :
  numberSvc "MG0001" after_svc1 = Done [0; 1] after_svc1 ∧
  run (H := demo) [OpAddNumber num2; OpAddMsgService svc3] after_svc1
    = Done () after_svc1_num2_svc3 ∧
  numberSvc "MG0001" after_svc1_num2_svc3 = Done [0; 1] after_svc1_num2_svc3.
Proof.
  split; [vm_compute; reflexivity|].
  split; [vm_compute; reflexivity|].
  apply (service_members_fixed (H := demo) "MG0001" [0; 1] after_svc1
           after_svc1_num2_svc3 [OpAddNumber num2; OpAddMsgService svc3]).
  - exact after_svc1_reachable.
  - vm_compute; reflexivity.
  - discriminate.
  - vm_compute; reflexivity.
Defined.

Lemma number_fields_stable_witness :
  lookupNumber "+15550001234" after_num1 = Some num1 ∧
  run (H := demo) [OpAddMsgService svc1] after_num1 = Done () after_svc1 ∧
  ∃ r', lookupNumber "+15550001234" after_svc1 = Some r' ∧
    Number.Number r' = "+15550001234" ∧
    Number.VoiceWebhookURL r' = "" ∧
    (Number.SMSWebhookURL r' = "http://test/hook" ∨
     ∃ ms, OpAddMsgService ms ∈ [OpAddMsgService svc1] ∧
       "+15550001234" ∈ MsgService.Numbers ms ∧
       MsgService.SMSWebhookURL ms ≠ "" ∧
       Number.SMSWebhookURL r' = MsgService.SMSWebhookURL ms).
Proof.
  split; [vm_compute; reflexivity|].
  split; [vm_compute; reflexivity|].
  apply (number_fields_stable (H := demo) "+15550001234" num1 after_num1
           after_svc1 [OpAddMsgService svc1]).
  - exact after_num1_reachable.
  - vm_compute; reflexivity.
  - vm_compute; reflexivity.
Defined.

Lemma absent_unless_registered_witness :
  run (H := demo) [OpAddNumber num1; OpAddMsgService svc1] demo_Server
    = Done () after_svc1 ∧
  number "+15550005678" after_svc1 = Done None after_svc1 ∧
  numberSvc "MG0003" after_svc1 = Done [] after_svc1.
Proof.
  split; [vm_compute; reflexivity|].
  destruct (absent_unless_registered (H := demo) demo_Config demo_Server
              after_svc1 [OpAddNumber num1; OpAddMsgService svc1]
              "+15550005678" "MG0003")
    as [Hnum Hsvc].
  - reflexivity.
  - vm_compute; reflexivity.
  - split.
    + apply Hnum. rewrite !Forall_cons, Forall_nil. simpl.
      rewrite !elem_of_cons, elem_of_nil.
      repeat split; [discriminate|]. intros [|[|]]; done.
    + apply Hsvc. rewrite !Forall_cons, Forall_nil. simpl.
      repeat split; [tauto|discriminate].
Defined.

Lemma AddMsgService_frame_witness :
  AddMsgService (H := demo) svc3 after_svc1_num2
    = Done None after_svc1_num2_svc3 ∧
  (number "+15550001234" after_svc1_num2_svc3
     = Done (Some 0) after_svc1_num2_svc3 ∧
   lookupNumber "+15550001234" after_svc1_num2_svc3
     = lookupNumber "+15550001234" after_svc1_num2) ∧
  numberSvc "MG0001" after_svc1_num2_svc3
    = Done [0; 1] after_svc1_num2_svc3 ∧
  lookupNumber "+15550005678" after_svc1_num2_svc3 = Some num2.
Proof.
  split; [vm_compute; reflexivity|].
  destruct (AddMsgService_frame (H := demo) svc3 after_svc1_num2
              after_svc1_num2_svc3)
    as (Hnum & Hsvc & Hrec).
  - exact after_svc1_num2_reachable.
  - vm_compute; reflexivity.
  - split; [|split].
    + apply Hnum; [|vm_compute; reflexivity].
      simpl. rewrite !elem_of_cons, elem_of_nil. intros [|[|]]; done.
    + apply Hsvc; [discriminate|vm_compute; reflexivity].
    + apply Hrec; [reflexivity|vm_compute; reflexivity].
Defined.

Lemma AddMsgService_first_malformed_witness :
  AddMsgService (H := demo) svc_malformed after_svc1
    = Done (Some (InvalidPhoneNumber "bad"
                    "the phone number supplied is not a number"))
        after_svc1.
Proof.
  apply (AddMsgService_first_malformed (H := demo) svc_malformed after_svc1
           ["+15550001234"] ["worse"] "bad"
           "the phone number supplied is not a number").
  - reflexivity.
  - intros Hne. by destruct Hne.
  - reflexivity.
  - repeat constructor.
  - reflexivity.
Defined.

Lemma nextID_commutes_witness :
  exec (H := demo) (OpAddNumber num1) demo_Server = Done () after_num1 ∧
  id after_num1 = id demo_Server ∧
  ∃ x s2 s', nextID "SM" demo_Server = Done x s2 ∧
    nextID "SM" after_num1 = Done x s' ∧
    exec (H := demo) (OpAddNumber num1) s2 = Done () s'.
Proof.
  split; [vm_compute; reflexivity|].
  apply (nextID_commutes (H := demo) (OpAddNumber num1) "SM" demo_Server
           after_num1).
  - intros p. discriminate.
  - vm_compute; reflexivity.
Defined.

(** * More facts about the ID issuer *)

Section IDMore.

Local Open Scope N_scope.

Lemma is_digit_digit (d : N) : d < 10 → is_digit (digit d) = true.
Proof.
  intros Hd.
  assert (Hc : d = 0 ∨ d = 1 ∨ d = 2 ∨ d = 3 ∨ d = 4 ∨ d = 5 ∨ d = 6 ∨
               d = 7 ∨ d = 8 ∨ d = 9) by lia.
  repeat (destruct Hc as [->|Hc]; [reflexivity|]). by subst.
Qed.

Lemma all_digits_cons (c : ascii) (s : string) :
  all_digits (String c s) = is_digit c && all_digits s.
Proof. reflexivity. Qed.

Lemma fmtInteger_digits (fuel : nat) :
  ∀ (u : N) (buf : string),
  all_digits buf = true → all_digits (fmtInteger fuel u buf) = true.
Proof.
  induction fuel as [|fuel IH]; intros u buf Hbuf; simpl; [done|].
  destruct (N.leb_spec 10 u) as [Hge|Hlt].
  - apply IH. rewrite all_digits_cons, Hbuf.
    rewrite is_digit_digit; [done|]. apply N.mod_lt. lia.
  - rewrite all_digits_cons, Hbuf. by rewrite is_digit_digit.
Qed.

Lemma pad_zeros_digits (k : nat) :
  ∀ buf, all_digits buf = true → all_digits (pad_zeros k buf) = true.
Proof.
  induction k as [|k IH]; intros buf Hbuf; simpl; [done|].
  apply IH. by rewrite all_digits_cons, Hbuf.
Qed.

Lemma fmt_032d_digits (u : N) : all_digits (fmt_032d u) = true.
Proof.
  unfold fmt_032d. apply pad_zeros_digits. by apply fmtInteger_digits.
Qed.

Lemma append_inj_l (a b c : string) : a +:+ c = b +:+ c → a = b.
Proof.
  revert b. induction a as [|x a IH]; intros b Heq.
  - destruct b as [|y b]; [done|].
    apply (f_equal String.length) in Heq.
    rewrite append_nil_l, append_cons in Heq. simpl in Heq.
    rewrite append_length in Heq. lia.
  - destruct b as [|y b].
    + apply (f_equal String.length) in Heq.
      rewrite append_nil_l, append_cons in Heq. simpl in Heq.
      rewrite append_length in Heq. lia.
    + rewrite !append_cons in Heq. injection Heq as -> Heq.
      f_equal. by apply IH.
Qed.

(** X14: in every state, at the wrap of the counter too, [nextID]
    returns its prefix followed by exactly 32 decimal digits, which read
    as the new value of the counter: the old one plus one, modulo 2^64. *)
Theorem nextID_shape (prefix : string) (s : Server) :
  ∃ x, nextID prefix s = Done x (set_id ((id s + 1) mod 2 ^ 64) s) ∧
    x = prefix +:+ last_chars 32 x ∧
    String.length x = (String.length prefix + 32)%nat ∧
    all_digits (last_chars 32 x) = true ∧
    numeric_part x = (id s + 1) mod 2 ^ 64.
Proof.
  set (v := (id s + 1) mod 2 ^ 64).
  assert (Hv : v < 2 ^ 64) by (apply N.mod_lt; lia).
  destruct (fmt_032d_spec v Hv) as [Hlen Hread].
  exists (Sprintf_s_032d prefix v). split; [reflexivity|].
  assert (Hlast : last_chars 32 (Sprintf_s_032d prefix v) = fmt_032d v).
  { unfold Sprintf_s_032d. rewrite <- Hlen at 1. apply last_chars_append. }
  rewrite Hlast. split; [reflexivity|]. split.
  { unfold Sprintf_s_032d. by rewrite append_length, Hlen. }
  split; [apply fmt_032d_digits|]. by apply numeric_part_Sprintf.
Qed.

(** X15: an ID tells its prefix and its counter: two calls of [nextID]
    that return the same ID, in whatever states, were given the same prefix
    and left the same counter. *)
Theorem nextID_injective (p1 p2 x : string) (s1 s2 t1 t2 : Server) :
  nextID p1 s1 = Done x t1 →
  nextID p2 s2 = Done x t2 →
  p1 = p2 ∧ id t1 = id t2.
Proof.
  rewrite !nextID_eq. intros [= <- <-] [= Hx <-]. simpl.
  set (v1 := (id s1 + 1) mod 2 ^ 64) in *.
  set (v2 := (id s2 + 1) mod 2 ^ 64) in *.
  assert (Hv1 : v1 < 2 ^ 64) by (apply N.mod_lt; lia).
  assert (Hv2 : v2 < 2 ^ 64) by (apply N.mod_lt; lia).
  assert (Hv : v2 = v1).
  { rewrite <- (numeric_part_Sprintf p2 v2 Hv2), Hx.
    by apply numeric_part_Sprintf. }
  split; [|done]. rewrite Hv in Hx. unfold Sprintf_s_032d in Hx.
  symmetry. by eapply append_inj_l.
Qed.

End IDMore.

(** ** More of the ID issuer on a concrete server *)

Lemma nextID_injective_witness :
  nextID "SM" demo_Server
    = Done "SM00000000000000000000000000000001" (set_id 1 demo_Server) ∧
  nextID "SM" after_num1
    = Done "SM00000000000000000000000000000001" (set_id 1 after_num1) ∧
  "SM" = "SM" ∧ id (set_id 1 demo_Server) = id (set_id 1 after_num1).
Proof.
  split; [vm_compute; reflexivity|].
  split; [vm_compute; reflexivity|].
  apply (nextID_injective "SM" "SM" "SM00000000000000000000000000000001"
           demo_Server after_num1).
  - vm_compute; reflexivity.
  - vm_compute; reflexivity.
Defined.

(** * More facts about the coordinator *)

Section CoordMore.

Ltac run_cases Hstep :=
  unfold coord_step in Hstep;
  match type of Hstep with
  | context [panicked ?σ] => destruct (panicked σ) eqn:?; [discriminate|]
  end;
  match type of Hstep with
  | match ?ev with _ => _ end = _ => destruct ev
  end;
  repeat case_match; simplify_eq.

Ltac loop_is :=
  match goal with
  | H : loop _ = _ |- _ => rewrite H in *
  end.

Lemma step_drain_inv (ev : event) (σ σ' : Coord) :
  coord_inv σ → drain_inv σ → coord_step ev σ = Some σ' → drain_inv σ'.
Proof.
  intros Hinv [[Hc1 Hc2] Hw] Hstep.
  pose proof (step_no_panic ev σ σ' Hinv Hstep) as Hnp.
  run_cases Hstep; try discriminate Hnp; unfold drain_inv; simpl.
  all: try loop_is; simpl in *.
  all: split;
    [ split; intros Hx;
      first [ lia | reflexivity | assumption | apply Hc2; lia
            | apply Hc1 in Hx; lia | by apply Hc1 | by apply Hc2 ]
    | intros Hx;
      first [ lia | assumption | apply Hw; lia | by apply Hw
            | apply Hw in Hx; congruence ] ].
Qed.

Lemma coord_init_drain : drain_inv coord_init.
Proof. split; simpl; [split; [done|lia]|lia]. Qed.

Lemma run_drain_inv (evs : list event) :
  ∀ σ σ', coord_inv σ → drain_inv σ → coord_run evs σ = Some σ' → drain_inv σ'.
Proof.
  induction evs as [|ev rest IH]; intros σ σ' Hinv Hd Hrun; simpl in Hrun.
  - by injection Hrun as <-.
  - destruct (coord_step ev σ) as [σ1|] eqn:Hstep; [|done].
    eapply IH; [|by eapply step_drain_inv|exact Hrun].
    by eapply coord_step_inv.
Qed.

Lemma loop_task_leaving (pc : loop_pc) :
  1 ≤ loop_phase pc → loop_task pc = None.
Proof. destruct pc; simpl; intros; (done || lia). Qed.

(** X16: [Close] returns, and the loop closes its channels, only after
    the lifecycles: in every state of a run in which [srv.msgCh] or
    [srv.shutdownDone] is closed or a call of [Close] has returned, the
    loop's context is cancelled, the counter of the WaitGroup is zero, and
    every message the loop ever received has executed its [wg.Done()]. *)
Theorem drained_before_exit (σ : Coord) :
  coord_reachable σ →
  msgCh_closed σ = true ∨ shutdownDone σ = true ∨
    (∃ c, closers σ !! c = Some CloseReturned) →
  cancelled σ = true ∧ wg σ = 0 ∧
  ∀ t pc, tasks σ !! t = Some pc → pc = TaskFinished.
Proof.
  intros [evs Hrun] Hexit.
  pose proof (coord_run_inv evs _ _ coord_init_inv Hrun) as Hinv.
  pose proof (run_drain_inv evs _ _ coord_init_inv coord_init_drain Hrun)
    as [Hc Hw].
  destruct Hinv as (_ & Hclose & Htask & _).
  assert (Hphase : 4 ≤ loop_phase (loop σ)).
  { destruct Hexit as [Hm|[Hd|[c Hc']]].
    - by apply (ci_msgCh σ Hclose).
    - apply (ci_shutdownDone σ Hclose) in Hd. lia.
    - apply (ci_returned σ Hclose) in Hc'.
      apply (ci_shutdownDone σ Hclose) in Hc'. lia. }
  split; [apply Hc; lia|]. split; [apply Hw; lia|].
  intros t pc Ht. apply counted_idle_Finished.
  - eapply (all_counted σ); [done|apply loop_task_leaving; lia|done].
  - eapply count_in_flight_zero; [|exact Ht].
    rewrite <- (ti_wg σ Htask). apply Hw. lia.
Qed.


(** *** Calls of [WaitInFlight] that are never served *)

Ltac waiter_cases w :=
  match goal with
  | |- context [<[?w0 := ?x]> _ !! w] =>
      destruct (decide (w = w0)) as [->|?];
      [ rewrite list_lookup_insert_eq by (by eapply lookup_lt_Some)
      | rewrite list_lookup_insert_ne by done ]
  | |- context [(_ ++ [_])%list !! w] =>
      rewrite lookup_app_l by (by eapply lookup_lt_Some)
  | _ => idtac
  end.

Ltac same_waiter :=
  repeat match goal with
  | Ha : waiters ?σ !! ?w = Some ?a, Hb : waiters ?σ !! ?w = Some ?b |- _ =>
      rewrite Ha in Hb; injection Hb as <-
  end.

Lemma step_unserved_leaving (ev : event) (σ σ' : Coord) (w : nat) :
  unserved_leaving σ w → coord_step ev σ = Some σ' → unserved_leaving σ' w.
Proof.
  intros (Hph & wt & Hwt & Hpc & Hwa & Hch) Hstep.
  run_cases Hstep; unfold unserved_leaving, unserved; simpl.
  all: try (loop_is; simpl in *; try lia).
  all: split; [first [lia|assumption]|].
  all: waiter_cases w; same_waiter.
  all: try (eexists; split; [reflexivity|]; simpl; by eauto).
  all: try (exists wt; by eauto).
  all: try congruence.
  all: simpl in Hph; lia.
Qed.

Lemma step_unserved_returned (ev : event) (σ σ' : Coord) (w : nat) :
  unserved_returned σ w → coord_step ev σ = Some σ' → unserved_returned σ' w.
Proof.
  intros (Hlw & wt & Hwt & (Hpc & Hwa & Hch) & Hret) Hstep.
  run_cases Hstep; unfold unserved_returned, unserved; simpl.
  all: try (loop_is; simpl in *).
  all: split; [first [assumption|discriminate|idtac]|].
  all: waiter_cases w; same_waiter.
  all: try (eexists; split; [reflexivity|]; simpl; by eauto).
  all: try (exists wt; by eauto).
  all: congruence.
Qed.

Lemma run_unserved_leaving (evs : list event) :
  ∀ σ σ' w, unserved_leaving σ w → coord_run evs σ = Some σ' →
    unserved_leaving σ' w.
Proof.
  induction evs as [|ev evs IH]; intros σ σ' w Hu Hrun; simpl in Hrun.
  - by simplify_eq.
  - destruct (coord_step ev σ) as [σ1|] eqn:Hstep; [|done].
    eapply IH; [|done]. by eapply step_unserved_leaving.
Qed.

Lemma run_unserved_returned (evs : list event) :
  ∀ σ σ' w, unserved_returned σ w → coord_run evs σ = Some σ' →
    unserved_returned σ' w.
Proof.
  induction evs as [|ev evs IH]; intros σ σ' w Hu Hrun; simpl in Hrun.
  - by simplify_eq.
  - destruct (coord_step ev σ) as [σ1|] eqn:Hstep; [|done].
    eapply IH; [|done]. by eapply step_unserved_returned.
Qed.

(** X17: a call of [WaitInFlight] that begins once the loop has taken the
    [<-s.shutdown] case of its [select] is never served, whatever runs
    afterwards: it stays at its first [select] or returns [ctx.Err()] from
    it, no watcher goroutine is started for it, and its channel is never
    closed. *)
Theorem WaitInFlight_after_shutdown (evs : list event) (σ σ' : Coord) :
  1 ≤ loop_phase (loop σ) →
  coord_run (CallWaitInFlight :: evs) σ = Some σ' →
  ∃ wt, waiters σ' !! length (waiters σ) = Some wt ∧
    (w_pc wt = WaitSend ∨ w_pc wt = WaitReturned WaitCtxErr) ∧
    w_watcher wt = WatcherNone ∧ w_ch_closed wt = false.
Proof.
  intros Hph Hrun. simpl in Hrun.
  destruct (coord_step CallWaitInFlight σ) as [σ1|] eqn:Hstep; [|done].
  assert (Hu : unserved_leaving σ1 (length (waiters σ))).
  { unfold coord_step in Hstep. destruct (panicked σ); [done|].
    simplify_eq. split; [done|]. simpl. eexists. split.
    - by apply list_lookup_middle.
    - repeat split; by eauto. }
  destruct (run_unserved_leaving evs _ _ _ Hu Hrun)
    as (_ & wt & Hwt & Hpc & Hwa & Hch).
  by exists wt.
Qed.

(** X18: a call of [WaitInFlight] whose deadline passes while it is still
    at its first [select] returns [ctx.Err()] and leaves nothing behind:
    whatever runs afterwards, the loop never receives its channel, no
    watcher goroutine is started for it, and its channel is never
    closed. *)
Theorem WaitInFlight_early_deadline (evs : list event) (σ σ' : Coord)
    (w : nat) (wt : waiter) :
  coord_reachable σ →
  waiters σ !! w = Some wt →
  w_pc wt = WaitSend →
  coord_run (WaitCtxDone w :: evs) σ = Some σ' →
  loop_watcher (loop σ') ≠ Some w ∧
  ∃ wt', waiters σ' !! w = Some wt' ∧
    w_pc wt' = WaitReturned WaitCtxErr ∧
    w_watcher wt' = WatcherNone ∧ w_ch_closed wt' = false.
Proof.
  intros Hreach Hwt Hpc Hrun. simpl in Hrun.
  destruct (coord_step (WaitCtxDone w) σ) as [σ1|] eqn:Hstep; [|done].
  destruct (coord_reachable_inv σ Hreach) as (_ & _ & _ & Hwait).
  destruct (wi_waiter σ Hwait w wt Hwt) as (_ & Hsend & Hcl & _).
  destruct (Hsend Hpc) as [Hwa Hlw].
  assert (Hch : w_ch_closed wt = false).
  { destruct (w_ch_closed wt) eqn:E; [|done].
    specialize (Hcl eq_refl). congruence. }
  assert (Hu : unserved_returned σ1 w).
  { unfold coord_step in Hstep. destruct (panicked σ); [done|].
    rewrite Hwt, Hpc in Hstep. destruct (w_ctx_done wt); [|done].
    simplify_eq. split; [done|]. simpl. eexists. split.
    - apply list_lookup_insert_eq. by eapply lookup_lt_Some.
    - repeat split; by eauto. }
  destruct (run_unserved_returned evs _ _ _ Hu Hrun)
    as (Hlw' & wt' & Hwt' & (_ & Hwa' & Hch') & Hret).
  split; [done|]. by exists wt'.
Qed.

(** *** The instant at which nothing is in flight *)

Lemma step_watcher_waits (ev : event) (σ σ' : Coord) (w : nat) (wt : waiter) :
  coord_step ev σ = Some σ' →
  waiters σ !! w = Some wt →
  w_watcher wt = WatcherNone ∨ w_watcher wt = WatcherWait →
  wg σ = 0 ∨
  ∃ wt', waiters σ' !! w = Some wt' ∧
    (w_watcher wt' = WatcherNone ∨ w_watcher wt' = WatcherWait).
Proof.
  intros Hstep Hwt Hwa.
  run_cases Hstep; simpl.
  all: try (by left).
  all: right.
  all: waiter_cases w; same_waiter.
  all: try (eexists; split; [reflexivity|]; simpl; by eauto).
  all: try (exists wt; by eauto).
  all: destruct Hwa; congruence.
Qed.

Lemma run_watcher_waits (evs : list event) :
  ∀ σ σ' w wt wt',
    coord_run evs σ = Some σ' →
    waiters σ !! w = Some wt →
    w_watcher wt = WatcherNone ∨ w_watcher wt = WatcherWait →
    waiters σ' !! w = Some wt' →
    w_watcher wt' = WatcherClose ∨ w_watcher wt' = WatcherDone →
    ∃ evs_a evs_b σm, evs = (evs_a ++ evs_b)%list ∧
      coord_run evs_a σ = Some σm ∧ wg σm = 0 ∧
      coord_run evs_b σm = Some σ'.
Proof.
  induction evs as [|ev evs IH]; intros σ σ' w wt wt' Hrun Hwt Hwa Hwt' Hwa';
    simpl in Hrun.
  - simplify_eq. destruct Hwa, Hwa'; congruence.
  - destruct (coord_step ev σ) as [σ1|] eqn:Hstep; [|done].
    destruct (step_watcher_waits ev σ σ1 w wt Hstep Hwt Hwa)
      as [Hz|(wt1 & Hwt1 & Hwa1)].
    + exists [], (ev :: evs), σ. repeat split; [done|].
      simpl. by rewrite Hstep.
    + destruct (IH σ1 σ' w wt1 wt' Hrun Hwt1 Hwa1 Hwt' Hwa')
        as (evs_a & evs_b & σm & -> & Ha & Hz & Hb).
      exists (ev :: evs_a), evs_b, σm. repeat split; [|done..].
      simpl. by rewrite Hstep.
Qed.

(** X19: when a call of [WaitInFlight] has returned nil, there was an
    instant between the beginning of the call and its return at which the
    counter of the WaitGroup was zero, that is, at which no message was in
    flight. *)
Theorem WaitInFlight_quiescent (evs : list event) (σ σ' : Coord)
    (wt : waiter) :
  coord_reachable σ →
  coord_run (CallWaitInFlight :: evs) σ = Some σ' →
  waiters σ' !! length (waiters σ) = Some wt →
  w_pc wt = WaitReturned WaitNil →
  ∃ evs_a evs_b σm, evs = (evs_a ++ evs_b)%list ∧
    coord_run (CallWaitInFlight :: evs_a) σ = Some σm ∧
    coord_run evs_b σm = Some σ' ∧
    wg σm = 0 ∧ count_in_flight (tasks σm) = 0.
Proof.
  intros Hreach Hrun Hwt Hnil. simpl in Hrun.
  destruct (coord_step CallWaitInFlight σ) as [σ1|] eqn:Hstep; [|done].
  pose proof (coord_reachable_inv σ Hreach) as Hinv.
  pose proof (coord_step_inv _ _ _ Hinv Hstep) as Hinv1.
  pose proof (coord_run_inv evs _ _ Hinv1 Hrun) as (_ & _ & _ & Hwait).
  destruct (wi_waiter σ' Hwait _ wt Hwt) as (_ & _ & Hcl & Hret & _).
  assert (Hnew : ∃ wt1, waiters σ1 !! length (waiters σ) = Some wt1 ∧
                   w_watcher wt1 = WatcherNone).
  { unfold coord_step in Hstep. destruct (panicked σ); [done|].
    simplify_eq. simpl. eexists. split; [by apply list_lookup_middle|done]. }
  destruct Hnew as (wt1 & Hwt1 & Hwa1).
  destruct (run_watcher_waits evs σ1 σ' _ wt1 wt Hrun Hwt1 (or_introl Hwa1)
              Hwt (or_intror (Hcl (Hret Hnil))))
    as (evs_a & evs_b & σm & -> & Ha & Hz & Hb).
  exists evs_a, evs_b, σm. split; [done|]. split.
  { simpl. by rewrite Hstep. }
  split; [done|]. split; [done|].
  pose proof (coord_run_inv evs_a _ _ Hinv1 Ha) as (_ & _ & Htask & _).
  by rewrite <- (ti_wg σm Htask).
Qed.

(** *** [Close] can return *)

Lemma step_once_inv (ev : event) (σ σ' : Coord) :
  once_inv σ → coord_step ev σ = Some σ' → once_inv σ'.
Proof.
  intros (Hrun & Hdone & Hpast & Hleave) Hstep.
  run_cases Hstep; unfold once_inv; simpl.
  all: try (split_and!; assumption).
  all: repeat match goal with
       | Hc : closers _ !! _ = Some CloseRecv |- _ =>
           pose proof (Hpast _ _ Hc (or_introl eq_refl)); clear Hc
       | Ho : once _ = _ |- _ => rewrite Ho in *
       end.
  all: split_and!.
  all: try assumption; try discriminate; try done.
  all: try (intros c0 pc0 Hc0 Hpc0;
            apply list_lookup_insert_Some in Hc0 as [(-> & <- & _)|(_ & Hc0)];
            [first [done | by destruct Hpc0 | by eapply Hpast; eauto]
            |by eapply Hpast]).
  all: try (intros c0 Hc0;
            apply list_lookup_insert_Some in Hc0 as [(-> & ? & _)|(_ & Hc0)];
            [done|by eapply Hleave]).
  all: try (intros _; eexists _, _; split;
            [apply list_lookup_insert_eq; by eapply lookup_lt_Some
            |first [by left|by right]]).
  all: try (by intros _; eapply Hleave).
  - intros Hr. destruct (Hrun Hr) as (c & pc & Hc & Hin).
    exists c, pc. split; [|done].
    rewrite lookup_app_l; [done|by eapply lookup_lt_Some].
  - intros c pc Hc Hpc.
    apply lookup_app_Some in Hc as [Hc|[_ Hc]]; [by eapply Hpast|].
    apply list_lookup_singleton_Some in Hc as [_ <-]. by destruct Hpc.
  - intros c Hc.
    apply lookup_app_Some in Hc as [Hc|[_ Hc]]; [by eapply Hleave|].
    by apply list_lookup_singleton_Some in Hc as [_ ?].
  - intros c0 pc Hc Hpc.
    apply list_lookup_insert_Some in Hc as [(-> & <- & _)|(_ & Hc)].
    + by destruct Hpc.
    + by pose proof (Hpast _ _ Hc Hpc).
Qed.


Lemma run_once_inv (evs : list event) :
  ∀ σ σ', once_inv σ → coord_run evs σ = Some σ' → once_inv σ'.
Proof.
  induction evs as [|ev evs IH]; intros σ σ' Hinv Hrun; simpl in Hrun.
  - by simplify_eq.
  - destruct (coord_step ev σ) as [σ1|] eqn:Hstep; [|done].
    eapply IH; [|done]. by eapply step_once_inv.
Qed.

Lemma coord_init_once : once_inv coord_init.
Proof. unfold once_inv. simpl. split_and!; done. Qed.

Lemma settled_refl (σ : Coord) : settled σ σ.
Proof. unfold settled. split_and!; done. Qed.

Lemma settled_trans (σ1 σ2 σ3 : Coord) :
  settled σ1 σ2 → settled σ2 σ3 → settled σ1 σ3.
Proof.
  intros (Ha1 & Ha2 & Ha3 & Ha4) (Hb1 & Hb2 & Hb3 & Hb4).
  unfold settled. split_and!; [lia|by eauto..].
Qed.

Lemma step_settled (ev : event) (σ σ' : Coord) :
  coord_step ev σ = Some σ' → settled σ σ'.
Proof.
  intros Hstep.
  run_cases Hstep; unfold settled; simpl.
  all: try (split_and!; done).
  all: split_and!; try done; try congruence.
  all: try (rewrite length_insert; lia).
  all: try (intros c0 Hc0; rewrite list_lookup_insert_ne; [done|congruence]).
  - rewrite length_app. simpl. lia.
  - intros c Hc. rewrite lookup_app_l; [done|by eapply lookup_lt_Some].
Qed.

Lemma run_settled (evs : list event) :
  ∀ σ σ', coord_run evs σ = Some σ' → settled σ σ'.
Proof.
  induction evs as [|ev evs IH]; intros σ σ' Hrun; simpl in Hrun.
  - simplify_eq. apply settled_refl.
  - destruct (coord_step ev σ) as [σ1|] eqn:Hstep; [|done].
    eapply settled_trans; [by eapply step_settled|by apply IH].
Qed.

Lemma coord_run_app (evs1 evs2 : list event) (σ : Coord) :
  coord_run (evs1 ++ evs2) σ =
  match coord_run evs1 σ with
  | Some σ1 => coord_run evs2 σ1
  | None => None
  end.
Proof.
  revert σ. induction evs1 as [|ev evs1 IH]; intros σ; simpl; [done|].
  destruct (coord_step ev σ); [apply IH|done].
Qed.

Lemma leads_now (σ : Coord) (Q : Coord → Prop) : Q σ → leads σ Q.
Proof. intros HQ. by exists [], σ. Qed.

Lemma leads_step (ev : event) (σ σ1 : Coord) (Q : Coord → Prop) :
  coord_step ev σ = Some σ1 → leads σ1 Q → leads σ Q.
Proof.
  intros Hstep (evs & σ' & Hrun & HQ). exists (ev :: evs), σ'.
  split; [|done]. simpl. by rewrite Hstep.
Qed.

Lemma leads_trans (σ : Coord) (P Q : Coord → Prop) :
  leads σ P → (∀ σ1, P σ1 → leads σ1 Q) → leads σ Q.
Proof.
  intros (evs1 & σ1 & Hrun1 & HP) HPQ.
  destruct (HPQ σ1 HP) as (evs2 & σ2 & Hrun2 & HQ).
  exists (evs1 ++ evs2)%list, σ2. split; [|done].
  by rewrite coord_run_app, Hrun1.
Qed.

(** What the run built so far is kept along: the invariants and what is
    settled. *)
Lemma leads_inv (σ : Coord) (Q : Coord → Prop) :
  coord_inv σ → once_inv σ → leads σ Q →
  leads σ (λ σ', coord_inv σ' ∧ once_inv σ' ∧ settled σ σ' ∧ Q σ').
Proof.
  intros Hinv Honce (evs & σ' & Hrun & HQ). exists evs, σ'.
  split; [done|]. split_and!; [| | |done].
  - by eapply coord_run_inv.
  - by eapply run_once_inv.
  - by eapply run_settled.
Qed.

Ltac go ev :=
  eapply (leads_step ev);
  [ unfold coord_step; simpl;
    repeat match goal with
           | Hx : _ = _ |- _ => rewrite Hx
           end; simpl; reflexivity
  | ].

(** The loop runs its deferred calls to the end. *)
Lemma loop_exits_4 (σ : Coord) :
  coord_inv σ → loop σ = LoopCloseShutdownDone →
  leads σ (λ σ', loop σ' = LoopExited).
Proof.
  intros (Hnp & Hclose & _) Hloop.
  assert (Hsd : shutdownDone σ = false).
  { destruct (shutdownDone σ) eqn:E; [|done].
    apply (ci_shutdownDone σ Hclose) in E. rewrite Hloop in E. done. }
  go LoopDeferCloseShutdownDone. by apply leads_now.
Qed.

Lemma loop_exits_3 (σ : Coord) :
  coord_inv σ → loop σ = LoopCloseMsgCh →
  leads σ (λ σ', loop σ' = LoopExited).
Proof.
  intros Hinv Hloop. pose proof Hinv as (Hnp & Hclose & _).
  assert (Hm : msgCh_closed σ = false).
  { destruct (msgCh_closed σ) eqn:E; [|done].
    apply (ci_msgCh σ Hclose) in E. rewrite Hloop in E. simpl in E. lia. }
  assert (Hstep : coord_step LoopDeferCloseMsgCh σ =
                  Some (set_loop LoopCloseShutdownDone (close_msgCh σ))).
  { unfold coord_step. by rewrite Hnp, Hloop, Hm. }
  eapply leads_step; [exact Hstep|].
  apply loop_exits_4; [by eapply coord_step_inv|done].
Qed.

Lemma in_flight_exists (ts : list task_pc) :
  count_in_flight ts ≠ 0 →
  ∃ t pc, ts !! t = Some pc ∧ in_flight pc = true.
Proof.
  unfold count_in_flight. intros Hn.
  destruct (filter (λ pc, in_flight pc = true) ts) as [|pc l] eqn:E; [done|].
  assert (Hin : pc ∈ filter (λ pc, in_flight pc = true) ts).
  { rewrite E. apply list_elem_of_here. }
  apply list_elem_of_filter in Hin as [Hfl Hin].
  apply list_elem_of_lookup in Hin as [t Ht]. by exists t, pc.
Qed.

(** The goroutines of the messages run to their [wg.Done()]. *)
Lemma tasks_drain (n : nat) :
  ∀ σ, wg σ = n → coord_inv σ → loop_task (loop σ) = None →
    leads σ (λ σ', wg σ' = 0 ∧ loop σ' = loop σ ∧ coord_inv σ' ∧
                   waiters σ' = waiters σ).
Proof.
  induction n as [|n IH]; intros σ Hwg Hinv Hheld.
  { by apply leads_now. }
  pose proof Hinv as (Hnp & _ & Htask & _).
  destruct (in_flight_exists (tasks σ)) as (t & pc & Ht & Hfl).
  { rewrite <- (ti_wg σ Htask). lia. }
  assert (Hdone : ∀ σ1, wg σ1 = S n → coord_inv σ1 → loop σ1 = loop σ →
            tasks σ1 !! t = Some TaskLifecycleDone →
            waiters σ1 = waiters σ →
            leads σ1 (λ σ', wg σ' = 0 ∧ loop σ' = loop σ ∧ coord_inv σ' ∧
                            waiters σ' = waiters σ)).
  { intros σ1 Hwg1 Hinv1 Hloop1 Ht1 Hws1.
    assert (Hstep : coord_step (TaskWgDone t) σ1 =
                    Some (set_task t TaskFinished (set_wg n σ1))).
    { unfold coord_step. destruct Hinv1 as (-> & _). by rewrite Ht1, Hwg1. }
    eapply leads_step; [exact Hstep|].
    destruct (IH (set_task t TaskFinished (set_wg n σ1)))
      as (evs & σ' & Hrun & Hz & Hl & Hi & Hws).
    - done.
    - by eapply coord_step_inv.
    - simpl. by rewrite Hloop1.
    - exists evs, σ'. split; [done|]. split; [done|].
      split; [by rewrite Hl|]. split; [done|]. by rewrite Hws. }
  destruct pc; try discriminate Hfl.
  - exfalso.
    assert (Hn : ¬ counted TaskAdded) by (intros [_ Hc]; done).
    apply (ti_loop σ Htask t TaskAdded Hn) in Ht. congruence.
  - assert (Hstep : coord_step (LifecycleReturns t) σ =
                    Some (set_task t TaskLifecycleDone σ)).
    { unfold coord_step. by rewrite Hnp, Ht. }
    eapply leads_step; [exact Hstep|].
    apply Hdone; [done|by eapply coord_step_inv|done| |done].
    simpl. apply list_lookup_insert_eq. by eapply lookup_lt_Some.
  - by apply Hdone.
Qed.

Lemma loop_exits_2 (σ : Coord) :
  coord_inv σ → loop σ = LoopWait → leads σ (λ σ', loop σ' = LoopExited).
Proof.
  intros Hinv Hloop.
  eapply leads_trans.
  { apply (tasks_drain (wg σ) σ); [done..|by rewrite Hloop]. }
  intros σ1 (Hz & Hl & Hinv1 & _). simpl in *. rewrite Hloop in Hl.
  assert (Hstep : coord_step LoopDeferWait σ1 =
                  Some (set_loop LoopCloseMsgCh σ1)).
  { unfold coord_step. destruct Hinv1 as (-> & _). by rewrite Hl, Hz. }
  eapply leads_step; [exact Hstep|].
  apply loop_exits_3; [by eapply coord_step_inv|done].
Qed.

Lemma loop_exits_1 (σ : Coord) :
  coord_inv σ → loop σ = LoopCancel → leads σ (λ σ', loop σ' = LoopExited).
Proof.
  intros Hinv Hloop.
  assert (Hstep : coord_step LoopDeferCancel σ =
                  Some (set_loop LoopWait (set_cancelled σ))).
  { unfold coord_step. destruct Hinv as (-> & _). by rewrite Hloop. }
  eapply leads_step; [exact Hstep|].
  apply loop_exits_2; [by eapply coord_step_inv|done].
Qed.

Lemma loop_exits_0 (σ : Coord) :
  coord_inv σ → shutdown σ = true → loop σ = LoopSelect →
  leads σ (λ σ', loop σ' = LoopExited).
Proof.
  intros Hinv Hsh Hloop.
  assert (Hstep : coord_step LoopShutdown σ = Some (set_loop LoopCancel σ)).
  { unfold coord_step. destruct Hinv as (-> & _). by rewrite Hloop, Hsh. }
  eapply leads_step; [exact Hstep|].
  apply loop_exits_1; [by eapply coord_step_inv|done].
Qed.

Lemma loop_go_lifecycle (σ : Coord) (t : nat) :
  coord_inv σ → shutdown σ = true → loop σ = LoopGo t →
  leads σ (λ σ', loop σ' = LoopExited).
Proof.
  intros Hinv Hsh Hloop.
  assert (Hstep : coord_step LoopGoLifecycle σ =
                  Some (set_loop LoopSelect (set_task t TaskRunning σ))).
  { unfold coord_step. destruct Hinv as (-> & _). by rewrite Hloop. }
  eapply leads_step; [exact Hstep|].
  apply loop_exits_0; [by eapply coord_step_inv|done..].
Qed.

(** Once [srv.shutdown] is closed, the loop can run to its end. *)
Lemma loop_exits (σ : Coord) :
  coord_inv σ → shutdown σ = true → leads σ (λ σ', loop σ' = LoopExited).
Proof.
  intros Hinv Hsh. pose proof Hinv as (Hnp & _ & _ & Hwait).
  destruct (loop σ) as [|t|t|w| | | | |] eqn:Hloop.
  - by apply loop_exits_0.
  - assert (Hstep : coord_step LoopWgAdd σ =
        Some (set_loop (LoopGo t) (set_task t TaskAdded (set_wg (S (wg σ)) σ)))).
    { unfold coord_step. by rewrite Hnp, Hloop. }
    eapply leads_step; [exact Hstep|].
    eapply loop_go_lifecycle; [by eapply coord_step_inv|done..].
  - by eapply loop_go_lifecycle.
  - destruct (wi_handover σ Hwait w) as (wt & Hwt & _); [by rewrite Hloop|].
    assert (Hstep : coord_step LoopGoWatcherEv σ =
        Some (set_loop LoopSelect (set_waiter w (with_watcher WatcherWait wt) σ))).
    { unfold coord_step. by rewrite Hnp, Hloop, Hwt. }
    eapply leads_step; [exact Hstep|].
    apply loop_exits_0; [by eapply coord_step_inv|done..].
  - by apply loop_exits_1.
  - by apply loop_exits_2.
  - by apply loop_exits_3.
  - by apply loop_exits_4.
  - by apply leads_now.
Qed.

Lemma leads_mono (σ : Coord) (P Q : Coord → Prop) :
  leads σ P → (∀ σ', P σ' → Q σ') → leads σ Q.
Proof. intros (evs & σ' & Hrun & HP) HPQ. exists evs, σ'. by eauto. Qed.

Lemma once_leaves (σ : Coord) (c : nat) :
  coord_inv σ → closers σ !! c = Some CloseLeaveF →
  leads σ (λ σ', once σ' = OnceDone).
Proof.
  intros (Hnp & _) Hc.
  assert (Hstep : coord_step (OnceLeave c) σ =
                  Some (set_closer c CloseRecv (set_once OnceDone σ))).
  { unfold coord_step. by rewrite Hnp, Hc. }
  eapply leads_step; [exact Hstep|]. by apply leads_now.
Qed.

Lemma once_closes (σ : Coord) (c : nat) :
  coord_inv σ → closers σ !! c = Some CloseInF →
  leads σ (λ σ', once σ' = OnceDone).
Proof.
  intros Hinv Hc. pose proof Hinv as (Hnp & Hclose & _).
  assert (Hstep : coord_step (CloseShutdown c) σ =
                  Some (set_closer c CloseLeaveF (close_shutdown σ))).
  { unfold coord_step. by rewrite Hnp, Hc, (ci_inF σ Hclose c Hc). }
  eapply leads_step; [exact Hstep|].
  eapply (once_leaves _ c); [by eapply coord_step_inv|].
  simpl. apply list_lookup_insert_eq. by eapply lookup_lt_Some.
Qed.

(** When [Close] has been called, the Once can be brought to its end. *)
Lemma once_done (σ : Coord) :
  coord_inv σ → once_inv σ → closers σ ≠ [] →
  leads σ (λ σ', once σ' = OnceDone).
Proof.
  intros Hinv (Hrun & _ & Hpast & _) Hne.
  pose proof Hinv as (Hnp & Hclose & _).
  destruct (once σ) eqn:Honce.
  - assert (Hex : is_Some (closers σ !! 0)).
    { apply lookup_lt_is_Some_2. destruct (closers σ); [done|simpl; lia]. }
    destruct Hex as [pc Hc].
    assert (Hpc : pc = CloseDo).
    { destruct pc; [done|..].
      - pose proof (ci_inside σ Hclose 0 _ Hc inside_CloseInF). congruence.
      - pose proof (ci_inside σ Hclose 0 _ Hc inside_CloseLeaveF). congruence.
      - pose proof (Hpast 0 _ Hc (or_introl eq_refl)). congruence.
      - pose proof (Hpast 0 _ Hc (or_intror eq_refl)). congruence. }
    subst pc.
    assert (Hstep : coord_step (OnceEnter 0) σ =
                    Some (set_closer 0 CloseInF (set_once OnceRunning σ))).
    { unfold coord_step. by rewrite Hnp, Hc, Honce. }
    eapply leads_step; [exact Hstep|].
    eapply (once_closes _ 0); [by eapply coord_step_inv|].
    simpl. apply list_lookup_insert_eq. by eapply lookup_lt_Some.
  - destruct (Hrun eq_refl) as (c & pc & Hc & [->| ->]).
    + by eapply once_closes.
    + by eapply once_leaves.
  - by apply leads_now.
Qed.

(** Once the loop has exited, a call of [Close] can return. *)
Lemma closer_returns (σ : Coord) (c : nat) (pc : closer_pc) :
  coord_inv σ → once σ = OnceDone → loop σ = LoopExited →
  closers σ !! c = Some pc →
  leads σ (λ σ', closers σ' !! c = Some CloseReturned).
Proof.
  intros (Hnp & Hclose & _) Honce Hloop Hc.
  assert (Hsd : shutdownDone σ = true).
  { apply (ci_shutdownDone σ Hclose). by rewrite Hloop. }
  assert (Hrecv : ∀ σ1, panicked σ1 = false → shutdownDone σ1 = true →
            closers σ1 !! c = Some CloseRecv →
            leads σ1 (λ σ', closers σ' !! c = Some CloseReturned)).
  { intros σ1 Hnp1 Hsd1 Hc1.
    assert (Hstep : coord_step (RecvShutdownDone c) σ1 =
                    Some (set_closer c CloseReturned σ1)).
    { unfold coord_step. by rewrite Hnp1, Hc1, Hsd1. }
    eapply leads_step; [exact Hstep|]. apply leads_now.
    simpl. apply list_lookup_insert_eq. by eapply lookup_lt_Some. }
  destruct pc.
  - assert (Hstep : coord_step (OnceSkip c) σ =
                    Some (set_closer c CloseRecv σ)).
    { unfold coord_step. by rewrite Hnp, Hc, Honce. }
    eapply leads_step; [exact Hstep|]. apply Hrecv; [done..|].
    simpl. apply list_lookup_insert_eq. by eapply lookup_lt_Some.
  - pose proof (ci_inside σ Hclose c _ Hc inside_CloseInF). congruence.
  - pose proof (ci_inside σ Hclose c _ Hc inside_CloseLeaveF). congruence.
  - by apply Hrecv.
  - by apply leads_now.
Qed.

Lemma closers_return (k : nat) :
  ∀ σ, coord_inv σ → once_inv σ → once σ = OnceDone → loop σ = LoopExited →
    leads σ (λ σ', ∀ c, c < k → c < length (closers σ) →
                     closers σ' !! c = Some CloseReturned).
Proof.
  induction k as [|k IH]; intros σ Hinv Hoi Honce Hloop.
  { apply leads_now. intros c Hc. lia. }
  eapply leads_trans.
  { apply leads_inv; [done..|]. by apply IH. }
  intros σ1 (Hinv1 & Hoi1 & (Hlen & Hret & Hdone & Hexit) & Hk). simpl in *.
  destruct (decide (k < length (closers σ))) as [Hlt|Hge].
  - destruct (lookup_lt_is_Some_2 (closers σ1) k) as [pc Hc]; [lia|].
    eapply leads_mono.
    { apply leads_inv; [done..|].
      eapply (closer_returns σ1 k pc); by eauto. }
    simpl. intros σ2 (_ & _ & (_ & Hret2 & _) & Hk2) c Hck Hcl.
    destruct (decide (c = k)) as [->|Hne]; [done|].
    apply Hret2, Hk; [lia|done].
  - apply leads_now. intros c Hck Hcl. apply Hk; [lia|done].
Qed.

(** X20: [Close] does not deadlock.  From every state of a running server
    in which [Close] has been called, some continuation of the run (the
    pending messages' [lifecycle] calls return, the loop takes the
    [<-s.shutdown] case and runs its deferred calls) reaches a state in
    which the loop has exited and every one of these calls of [Close] has
    returned. *)
Theorem Close_can_return (σ : Coord) :
  coord_reachable σ →
  closers σ ≠ [] →
  ∃ evs σ', coord_run evs σ = Some σ' ∧
    loop σ' = LoopExited ∧
    ∀ c, c < length (closers σ) → closers σ' !! c = Some CloseReturned.
Proof.
  intros Hreach Hne.
  pose proof (coord_reachable_inv σ Hreach) as Hinv.
  assert (Hoi : once_inv σ).
  { destruct Hreach as [evs Hrun].
    by eapply run_once_inv; [apply coord_init_once|]. }
  cut (leads σ (λ σ', loop σ' = LoopExited ∧
         ∀ c, c < length (closers σ) → closers σ' !! c = Some CloseReturned)).
  { intros (evs & σ' & Hrun & HQ). by exists evs, σ'. }
  eapply leads_trans.
  { apply leads_inv; [done..|]. by apply once_done. }
  intros σ1 (Hinv1 & Hoi1 & (Hlen1 & _) & Honce1). simpl in *.
  eapply leads_trans.
  { apply leads_inv; [done..|]. apply loop_exits; [done|].
    by apply Hoi1. }
  intros σ2 (Hinv2 & Hoi2 & (Hlen2 & _ & Hdone2 & _) & Hloop2). simpl in *.
  eapply leads_mono.
  { apply leads_inv; [done..|].
    apply (closers_return (length (closers σ2)) σ2); by eauto. }
  simpl. intros σ3 (_ & _ & (_ & _ & _ & Hexit3) & Hall).
  split; [by apply Hexit3|].
  intros c Hc. apply Hall; lia.
Qed.

(** *** [WaitInFlight] can return nil *)

(** The loop finishes the case of its [select] it is in. *)
Lemma loop_to_select (σ : Coord) (w : nat) (wt : waiter) :
  coord_inv σ → loop_phase (loop σ) = 0 →
  waiters σ !! w = Some wt → w_pc wt = WaitSend →
  leads σ (λ σ', coord_inv σ' ∧ loop σ' = LoopSelect ∧
                 ∃ wt', waiters σ' !! w = Some wt' ∧ w_pc wt' = WaitSend).
Proof.
  intros Hinv Hph Hwt Hpc. pose proof Hinv as (Hnp & _ & _ & Hwait).
  assert (Hgo : ∀ σ1 t, coord_inv σ1 → loop σ1 = LoopGo t →
            waiters σ1 = waiters σ →
            leads σ1 (λ σ', coord_inv σ' ∧ loop σ' = LoopSelect ∧
              ∃ wt', waiters σ' !! w = Some wt' ∧ w_pc wt' = WaitSend)).
  { intros σ1 t Hinv1 Hloop1 Hws1.
    assert (Hstep : coord_step LoopGoLifecycle σ1 =
                    Some (set_loop LoopSelect (set_task t TaskRunning σ1))).
    { unfold coord_step. destruct Hinv1 as (-> & _). by rewrite Hloop1. }
    eapply leads_step; [exact Hstep|]. apply leads_now.
    split; [by eapply coord_step_inv|]. split; [done|].
    exists wt. simpl. by rewrite Hws1. }
  destruct (loop σ) as [|t|t|w0| | | | |] eqn:Hloop; simpl in Hph; try lia.
  - apply leads_now. by eauto.
  - assert (Hstep : coord_step LoopWgAdd σ =
        Some (set_loop (LoopGo t) (set_task t TaskAdded (set_wg (S (wg σ)) σ)))).
    { unfold coord_step. by rewrite Hnp, Hloop. }
    eapply leads_step; [exact Hstep|].
    eapply Hgo; [by eapply coord_step_inv|done..].
  - by eapply Hgo.
  - destruct (wi_handover σ Hwait w0) as (wt0 & Hwt0 & _); [by rewrite Hloop|].
    assert (Hstep : coord_step LoopGoWatcherEv σ =
        Some (set_loop LoopSelect
                (set_waiter w0 (with_watcher WatcherWait wt0) σ))).
    { unfold coord_step. by rewrite Hnp, Hloop, Hwt0. }
    eapply leads_step; [exact Hstep|]. apply leads_now.
    split; [by eapply coord_step_inv|]. split; [done|]. simpl.
    destruct (decide (w = w0)) as [->|Hne].
    + rewrite list_lookup_insert_eq by (by eapply lookup_lt_Some).
      eexists. split; [done|]. simpl. congruence.
    + rewrite list_lookup_insert_ne by done. by exists wt.
Qed.

(** X21: [WaitInFlight] can succeed while the server runs.  From every
    state of a running server whose loop has not taken the [<-s.shutdown]
    case, a call of [WaitInFlight] at its first [select] has a
    continuation (the loop receives its channel, the pending messages'
    [lifecycle] calls return, the watcher closes the channel) in which it
    returns nil. *)
Theorem WaitInFlight_can_return_nil (σ : Coord) (w : nat) (wt : waiter) :
  coord_reachable σ →
  loop_phase (loop σ) = 0 →
  waiters σ !! w = Some wt →
  w_pc wt = WaitSend →
  ∃ evs σ' wt', coord_run evs σ = Some σ' ∧
    waiters σ' !! w = Some wt' ∧ w_pc wt' = WaitReturned WaitNil.
Proof.
  intros Hreach Hph Hwt Hpc.
  pose proof (coord_reachable_inv σ Hreach) as Hinv.
  cut (leads σ (λ σ', ∃ wt', waiters σ' !! w = Some wt' ∧
                        w_pc wt' = WaitReturned WaitNil)).
  { intros (evs & σ' & Hrun & wt' & HQ). by exists evs, σ', wt'. }
  eapply leads_trans; [by eapply loop_to_select|].
  clear dependent σ. clear dependent wt.
  intros σ (Hinv & Hloop & wt & Hwt & Hpc). simpl in *.
  pose proof Hinv as (Hnp & _ & _ & Hwait).
  destruct (wi_waiter σ Hwait w wt Hwt) as (_ & Hsend & Hcl & _).
  destruct (Hsend Hpc) as [Hwa _].
  assert (Hch : w_ch_closed wt = false).
  { destruct (w_ch_closed wt) eqn:E; [|done].
    specialize (Hcl eq_refl). congruence. }
  assert (Hlt : w < length (waiters σ)) by (by eapply lookup_lt_Some).
  (* the loop receives the channel and starts the watcher *)
  set (wt1 := with_pc WaitRecv wt).
  set (σ1 := set_loop (LoopGoWatcher w) (set_waiter w wt1 σ)).
  assert (Hstep1 : coord_step (WaitHandOver w) σ = Some σ1).
  { unfold coord_step. by rewrite Hnp, Hwt, Hloop, Hpc. }
  eapply leads_step; [exact Hstep1|].
  pose proof (coord_step_inv _ _ _ Hinv Hstep1) as Hinv1.
  set (wt2 := with_watcher WatcherWait wt1).
  set (σ2 := set_loop LoopSelect (set_waiter w wt2 σ1)).
  assert (Hstep2 : coord_step LoopGoWatcherEv σ1 = Some σ2).
  { unfold coord_step. simpl. rewrite Hnp.
    by rewrite list_lookup_insert_eq by done. }
  eapply leads_step; [exact Hstep2|].
  pose proof (coord_step_inv _ _ _ Hinv1 Hstep2) as Hinv2.
  (* the messages in flight finish *)
  eapply leads_trans.
  { by apply (tasks_drain (wg σ2) σ2). }
  intros σ3 (Hz3 & _ & Hinv3 & Hws3). simpl in *.
  assert (Hwt3 : waiters σ3 !! w = Some wt2).
  { rewrite Hws3. apply list_lookup_insert_eq.
    by rewrite length_insert. }
  (* the watcher closes the channel, the call returns *)
  set (wt4 := with_watcher WatcherClose wt2).
  assert (Hstep4 : coord_step (WatcherWgWait w) σ3 =
                   Some (set_waiter w wt4 σ3)).
  { unfold coord_step. destruct Hinv3 as (-> & _). by rewrite Hwt3, Hz3. }
  eapply leads_step; [exact Hstep4|].
  set (wt5 := with_watcher WatcherDone (with_ch_closed wt4)).
  assert (Hstep5 : coord_step (WatcherCloseCh w) (set_waiter w wt4 σ3) =
                   Some (set_waiter w wt5 (set_waiter w wt4 σ3))).
  { unfold coord_step. simpl. destruct Hinv3 as (-> & _).
    rewrite list_lookup_insert_eq by (by eapply lookup_lt_Some).
    simpl. by rewrite Hch. }
  eapply leads_step; [exact Hstep5|].
  eapply (leads_step (WaitChClosed w)).
  { unfold coord_step. simpl. destruct Hinv3 as (-> & _).
    rewrite list_lookup_insert_eq; [simpl; reflexivity|].
    rewrite length_insert. by eapply lookup_lt_Some. }
  apply leads_now. simpl. eexists. split.
  - apply list_lookup_insert_eq. rewrite !length_insert.
    by eapply lookup_lt_Some.
  - done.
Qed.

End CoordMore.

(** ** More of the coordinator on concrete runs *)

Lemma after_one_message_reachable : coord_reachable after_one_message.
Proof. exists run_one_message. reflexivity. Qed.

Lemma after_call_wait_reachable : coord_reachable after_call_wait.
Proof. exists (run_one_message ++ [CallWaitInFlight])%list. reflexivity. Qed.

Lemma after_call_deadline_reachable : coord_reachable after_call_deadline.
Proof. exists run_call_deadline. reflexivity. Qed.

Lemma after_close_pending_reachable : coord_reachable after_close_pending.
Proof. exists run_close_pending. reflexivity. Qed.

Lemma after_close_drain_reachable : coord_reachable after_close_drain.
Proof. exists run_close_drain. reflexivity. Qed.

Lemma drained_before_exit_witness :
  coord_run run_close_drain coord_init = Some after_close_drain ∧
  coord_run (run_close_cancel ++ [LoopDeferWait])%list coord_init = None ∧
  closers after_close_drain !! 0 = Some CloseReturned ∧
  tasks after_close_drain !! 0 = Some TaskFinished ∧
  cancelled after_close_drain = true ∧ wg after_close_drain = 0 ∧
  ∀ t pc, tasks after_close_drain !! t = Some pc → pc = TaskFinished.
Proof.
  split; [reflexivity|]. split; [reflexivity|].
  split; [reflexivity|]. split; [reflexivity|].
  apply (drained_before_exit after_close_drain after_close_drain_reachable).
  right. right. exists 0. reflexivity.
Defined.

Lemma WaitInFlight_after_shutdown_witness :
  coord_run (CallWaitInFlight :: run_wait_after_close) after_close_twice
    = Some after_wait_after_close ∧
  ∃ wt, waiters after_wait_after_close !! 0 = Some wt ∧
    (w_pc wt = WaitSend ∨ w_pc wt = WaitReturned WaitCtxErr) ∧
    w_watcher wt = WatcherNone ∧ w_ch_closed wt = false.
Proof.
  split; [reflexivity|].
  apply (WaitInFlight_after_shutdown run_wait_after_close after_close_twice
           after_wait_after_close).
  - simpl. lia.
  - reflexivity.
Defined.

Lemma WaitInFlight_early_deadline_witness :
  coord_run (WaitCtxDone 0 :: run_after_early_deadline) after_call_deadline
    = Some after_early_deadline ∧
  loop_watcher (loop after_early_deadline) ≠ Some 0 ∧
  ∃ wt', waiters after_early_deadline !! 0 = Some wt' ∧
    w_pc wt' = WaitReturned WaitCtxErr ∧
    w_watcher wt' = WatcherNone ∧ w_ch_closed wt' = false.
Proof.
  split; [reflexivity|].
  apply (WaitInFlight_early_deadline run_after_early_deadline
           after_call_deadline after_early_deadline 0
           (mkWaiter WaitSend true false WatcherNone 1)).
  - exact after_call_deadline_reachable.
  - reflexivity.
  - reflexivity.
  - reflexivity.
Defined.

Lemma WaitInFlight_quiescent_witness :
  coord_run (CallWaitInFlight :: run_wait_success) after_one_message
    = Some after_wait_success ∧
  ∃ evs_a evs_b σm, run_wait_success = (evs_a ++ evs_b)%list ∧
    coord_run (CallWaitInFlight :: evs_a) after_one_message = Some σm ∧
    coord_run evs_b σm = Some after_wait_success ∧
    wg σm = 0 ∧ count_in_flight (tasks σm) = 0.
Proof.
  split; [reflexivity|].
  apply (WaitInFlight_quiescent run_wait_success after_one_message
           after_wait_success
           (mkWaiter (WaitReturned WaitNil) false true WatcherDone 1)).
  - exact after_one_message_reachable.
  - reflexivity.
  - reflexivity.
  - reflexivity.
Defined.

Lemma Close_can_return_witness :
  coord_run run_close_pending coord_init = Some after_close_pending ∧
  ∃ evs σ', coord_run evs after_close_pending = Some σ' ∧
    loop σ' = LoopExited ∧
    ∀ c, c < 2 → closers σ' !! c = Some CloseReturned.
Proof.
  split; [reflexivity|].
  apply (Close_can_return after_close_pending).
  - exact after_close_pending_reachable.
  - discriminate.
Defined.

Lemma WaitInFlight_can_return_nil_witness :
  ∃ evs σ' wt', coord_run evs after_call_wait = Some σ' ∧
    waiters σ' !! 0 = Some wt' ∧ w_pc wt' = WaitReturned WaitNil.
Proof.
  apply (WaitInFlight_can_return_nil after_call_wait 0
           (mkWaiter WaitSend false false WatcherNone 1)).
  - exact after_call_wait_reachable.
  - reflexivity.
  - reflexivity.
  - reflexivity.
Defined.
